(** * A shallow embedding of the zanreal-labs/search relevance engine

    The repository carries two variants of [src/index.ts]:
    - [Plain]  : the engine without caches (full-matrix edit distance,
                 field statistics over the whole collection, full scan);
    - [Cached] : the engine with the process-wide caches (two-row edit
                 distance, field statistics over a sample of 100 records,
                 early termination of the scan after [limit * 3] hits).

    Conventions of the embedding:
    - a JavaScript string is the list of its UTF-16 code units;
    - JavaScript numbers are exact rationals [Q] (lengths, positions and
      edit distances are integers); IEEE rounding, NaN and infinities are
      not modelled;
    - [String.prototype.toLowerCase] is a parameter of the development;
    - records are plain data values ([JsValue]): objects and arrays whose
      prototypes are [Object.prototype] and [Array.prototype], so that a
      property lookup sees own properties and the members inherited from
      these; every object and array carries its heap address, which is
      what the identity-keyed caches ([WeakMap]) observe;
    - a method call on a value of the wrong type raises [TypeError].

    Part I holds the definitions, Part II the theorems on the statements of
    the specification, Part III further properties of the engine. *)

From Stdlib Require Import QArith Qminmax Lia Lqa Sorted.
From Stdlib Require Import String Ascii DecimalString.
From stdpp Require Import base list gmap.

Set Default Proof Using "Type".
Set Warnings "-register-all".

(** * Part I: definitions *)

(** ** Edit distance: the specification *)

Section EditDistanceDefs.
Context {A : Type} `{EqDecision A}.

(** One single-character edit: an insertion, a deletion or a substitution
    at any place of the string. *)
Inductive edit1 : list A → list A → Prop :=
| edit1_insert l1 c l2 : edit1 (l1 ++ l2) (l1 ++ c :: l2)
| edit1_delete l1 c l2 : edit1 (l1 ++ c :: l2) (l1 ++ l2)
| edit1_substitute l1 c d l2 : edit1 (l1 ++ c :: l2) (l1 ++ d :: l2).

(** [edits n a b]: [a] is transformed into [b] by [n] single edits. *)
Inductive edits : nat → list A → list A → Prop :=
| edits_O a : edits 0 a a
| edits_S n a b c : edit1 a b → edits n b c → edits (S n) a c.

(** [d] is the minimum number of edits transforming [a] into [b]. *)
Definition min_edits (a b : list A) (d : nat) : Prop :=
  edits d a b ∧ ∀ n, edits n a b → d ≤ n.

Definition subst_cost (x y : A) : nat := if decide (x = y) then 0 else 1.

(** The textbook recursion on the heads of the two strings. *)
Fixpoint lev (a b : list A) : nat :=
  match a with
  | [] => length b
  | x :: a' =>
      (fix lev_a (b : list A) : nat :=
         match b with
         | [] => length a
         | y :: b' =>
             Nat.min (S (lev a' b))
               (Nat.min (S (lev_a b')) (lev a' b' + subst_cost x y))
         end) b
  end.

(** [Math.min(a, b, c)] on table entries. *)
Definition min3 (a b c : nat) : nat := Nat.min a (Nat.min b c).

(** [str1[j] === str2[i] ? 0 : 1]; an index out of range reads [undefined]. *)
Definition char_cost (str1 str2 : list A) (j i : nat) : nat :=
  if decide (str1 !! j = str2 !! i) then 0 else 1.

(** Entry [(i, j)] of the dynamic-programming table: the distance between
    the first [j] characters of [str1] and the first [i] characters of
    [str2]. *)
Definition table (str1 str2 : list A) (i j : nat) : nat :=
  lev (reverse (take j str1)) (reverse (take i str2)).

End EditDistanceDefs.

(** ** JavaScript strings *)

(** A string is the sequence of its UTF-16 code units; [s.length] is
    [length s] and [s[i]] is [s !! i]. *)
Abbreviation code_unit := N (only parsing).
Abbreviation jsstring := (list code_unit) (only parsing).

(** An ASCII literal as a JavaScript string. *)
Definition js (s : string) : jsstring := N_of_ascii <$> list_ascii_of_string s.

(** A length or an index as a JavaScript number. *)
Definition num (n : nat) : Q := inject_Z (Z.of_nat n).

(** [!s] on a string: only the empty string is falsy. *)
Definition str_falsy (s : jsstring) : bool :=
  match s with [] => true | _ => false end.

(** The code units matched by [\s] and stripped by [trim]: WhiteSpace and
    LineTerminator of ECMA-262. *)
Definition is_white_space (c : code_unit) : bool :=
  ((9 <=? c) && (c <=? 13) || (c =? 32) || (c =? 160) || (c =? 5760)
   || (8192 <=? c) && (c <=? 8202) || (c =? 8232) || (c =? 8233)
   || (c =? 8239) || (c =? 8287) || (c =? 12288) || (c =? 65279))%N.

Fixpoint trimStart (s : jsstring) : jsstring :=
  match s with
  | c :: s' => if is_white_space c then trimStart s' else s
  | [] => []
  end.

Definition trim (s : jsstring) : jsstring :=
  reverse (trimStart (reverse (trimStart s))).

(** [text.startsWith(q)] *)
Fixpoint startsWith (text q : jsstring) : bool :=
  match q, text with
  | [], _ => true
  | c :: q', d :: text' => (c =? d)%N && startsWith text' q'
  | _ :: _, [] => false
  end.

(** [text.includes(q)] *)
Fixpoint includes (text q : jsstring) : bool :=
  startsWith text q ||
  match text with
  | [] => false
  | _ :: text' => includes text' q
  end.

(** [text.indexOf(q)]: the least index at which [q] occurs, or [-1]. *)
Fixpoint indexOf (text q : jsstring) : Z :=
  if startsWith text q then 0%Z
  else match text with
       | [] => (-1)%Z
       | _ :: text' =>
           let p := indexOf text' q in
           if (p <? 0)%Z then (-1)%Z else (p + 1)%Z
       end.

(** [s.split(sep)] for a one-unit separator; [cur] is the piece being read,
    in reverse. *)
Fixpoint split_on_aux (sep : code_unit) (cur : jsstring) (s : jsstring)
    : list jsstring :=
  match s with
  | [] => [reverse cur]
  | c :: s' =>
      if (c =? sep)%N then reverse cur :: split_on_aux sep [] s'
      else split_on_aux sep (c :: cur) s'
  end.

(** [path.split(".")] *)
Definition split_dot (s : jsstring) : list jsstring := split_on_aux 46%N [] s.

(** [s.split(/\s+/)]: the pieces between maximal runs of white space; a
    leading or trailing run leaves an empty piece at that end. [in_ws] tells
    that the scan is inside a run. *)
Fixpoint split_ws_aux (in_ws : bool) (cur : jsstring) (s : jsstring)
    : list jsstring :=
  match s with
  | [] => [reverse cur]
  | c :: s' =>
      if is_white_space c then
        if in_ws then split_ws_aux true [] s'
        else reverse cur :: split_ws_aux true [] s'
      else split_ws_aux false (c :: cur) s'
  end.

Definition split_ws (s : jsstring) : list jsstring := split_ws_aux false [] s.

(** [s.slice(a, b)] for indices [0 ≤ a] and [0 ≤ b]. *)
Definition slice (s : jsstring) (a b : nat) : jsstring := drop a (take b s).

(** ASCII lower-casing: [toLowerCase] on ASCII strings. It instantiates the
    parameter on concrete inputs. *)
Definition ascii_lower_unit (c : code_unit) : code_unit :=
  if ((65 <=? c) && (c <=? 90))%N then (c + 32)%N else c.
Definition ascii_lower (s : jsstring) : jsstring := ascii_lower_unit <$> s.

(** The words a fuzzy match looks at, in the words of the specification: the
    maximal runs of non-white-space code units. *)
Fixpoint words_aux (cur : jsstring) (s : jsstring) : list jsstring :=
  match s with
  | [] => match cur with [] => [] | _ => [reverse cur] end
  | c :: s' =>
      if is_white_space c then
        match cur with
        | [] => words_aux [] s'
        | _ => reverse cur :: words_aux [] s'
        end
      else words_aux (c :: cur) s'
  end.
Definition words (s : jsstring) : list jsstring := words_aux [] s.

(** ** JavaScript values *)

(** What a property lookup reaches through the prototype chain of a plain
    object or array: a method (a function, whichever) and the two prototype
    objects. *)
Inductive builtin : Type := BFunction | BObjectPrototype | BArrayPrototype.

Inductive JsValue : Type :=
| JUndefined
| JNull
| JBool (b : bool)
| JNum (q : Q)
| JStr (s : jsstring)
| JObj (addr : positive) (props : list (jsstring * JsValue))
| JArr (addr : positive) (elems : list JsValue)
| JBuiltin (b : builtin).

(** The outcome of a call that may throw. *)
Inductive js_error : Type := TypeError.
Inductive outcome (A : Type) : Type :=
| Ok (a : A)
| Throw (e : js_error).
Arguments Ok {A} a.
Arguments Throw {A} e.

(** Truthiness ([if (v)], [!v], [v && ...]). *)
Definition truthy (v : JsValue) : bool :=
  match v with
  | JUndefined | JNull => false
  | JBool b => b
  | JNum q => negb (Qeq_bool q 0%Q)
  | JStr s => negb (str_falsy s)
  | JObj _ _ | JArr _ _ | JBuiltin _ => true
  end.

(** [v && typeof v === "object"]; the type of a function is ["function"]. *)
Definition is_object (v : JsValue) : bool :=
  match v with
  | JObj _ _ | JArr _ _ => true
  | JBuiltin BObjectPrototype | JBuiltin BArrayPrototype => true
  | _ => false
  end.

(** The identity of an object or array, the key of a [WeakMap]. The two
    prototype objects carry none: they have no enumerable property, so that
    a detection on them finds no field whether it was cached or not. *)
Definition addr_of (v : JsValue) : option positive :=
  match v with
  | JObj a _ | JArr a _ => Some a
  | _ => None
  end.

Definition digit_of (c : code_unit) : option nat :=
  if ((48 <=? c) && (c <=? 57))%N then Some (N.to_nat (c - 48)) else None.

(** A property key that is a canonical array index: decimal digits without
    a leading zero. *)
Definition array_index (key : jsstring) : option nat :=
  match key with
  | [] => None
  | [c] => digit_of c
  | c :: _ =>
      if (c =? 48)%N then None
      else fold_left (λ acc d, n ← acc; k ← digit_of d; Some (10 * n + k))
             key (Some 0)
  end.

Definition index_key (i : nat) : jsstring :=
  js (NilEmpty.string_of_uint (Nat.to_uint i)).

(** The methods of [Object.prototype] (ECMAScript 2023 with its Annex B);
    its accessor [__proto__] is handled apart. *)
Definition object_prototype_methods : list jsstring :=
  js <$>
    ["constructor"; "__defineGetter__"; "__defineSetter__"; "hasOwnProperty";
     "__lookupGetter__"; "__lookupSetter__"; "isPrototypeOf";
     "propertyIsEnumerable"; "toString"; "valueOf"; "toLocaleString"]%string.

(** The methods of [Array.prototype] (ECMAScript 2023). *)
Definition array_prototype_methods : list jsstring :=
  js <$>
    ["constructor"; "at"; "concat"; "copyWithin"; "fill"; "find"; "findIndex";
     "findLast"; "findLastIndex"; "lastIndexOf"; "pop"; "push"; "reverse";
     "shift"; "unshift"; "slice"; "sort"; "splice"; "includes"; "indexOf";
     "join"; "keys"; "entries"; "values"; "forEach"; "filter"; "flat";
     "flatMap"; "map"; "every"; "some"; "reduce"; "reduceRight";
     "toLocaleString"; "toString"; "toReversed"; "toSorted"; "toSpliced";
     "with"]%string.

(** [key in v] with [v[key]] for a key that is no own property of [v], where
    the prototype chain of [v] starts at [Object.prototype] or goes on from
    it; [proto] is what [v.__proto__] gives. *)
Definition object_member (proto : JsValue) (key : jsstring)
    : option JsValue :=
  if bool_decide (key = js "__proto__") then Some proto
  else if bool_decide (key ∈ object_prototype_methods)
  then Some (JBuiltin BFunction)
  else None.

(** The same where the chain starts at [Array.prototype] or goes on from
    it. *)
Definition array_member (proto : JsValue) (key : jsstring)
    : option JsValue :=
  if bool_decide (key = js "__proto__") then Some proto
  else if bool_decide
            (key ∈ array_prototype_methods ++ object_prototype_methods)
  then Some (JBuiltin BFunction)
  else None.

(** [key in v] together with [v[key]], for an object or array [v]: [Some x]
    when the property is there, own or inherited, with value [x]. The
    property list of an object is in enumeration order, with distinct keys;
    a record is a plain object or array, so that what it inherits are the
    members of [Object.prototype] and [Array.prototype]. *)
Definition get_property (v : JsValue) (key : jsstring) : option JsValue :=
  match v with
  | JObj _ props =>
      match find (λ p, bool_decide (p.1 = key)) props with
      | Some p => Some p.2
      | None => object_member (JBuiltin BObjectPrototype) key
      end
  | JArr _ elems =>
      if bool_decide (key = js "length") then Some (JNum (num (length elems)))
      else
        match i ← array_index key; elems !! i with
        | Some x => Some x
        | None => array_member (JBuiltin BArrayPrototype) key
        end
  | JBuiltin BObjectPrototype => object_member JNull key
  | JBuiltin BArrayPrototype =>
      if bool_decide (key = js "length") then Some (JNum 0)
      else array_member (JBuiltin BObjectPrototype) key
  | _ => None
  end.

(** [Object.entries(v)] *)
Definition entries (v : JsValue) : list (jsstring * JsValue) :=
  match v with
  | JObj _ props => props
  | JArr _ elems => imap (λ i x, (index_key i, x)) elems
  | _ => []
  end.

(** [x ?? ""] *)
Definition nullish_empty (v : JsValue) : JsValue :=
  match v with
  | JUndefined | JNull => JStr []
  | _ => v
  end.

(** [getNestedValue(obj, path)], the same in both variants. *)
Definition getNestedValue (obj : JsValue) (path : jsstring) : JsValue :=
  nullish_empty
    (fold_left
       (λ current key,
          if truthy current && is_object current then
            match get_property current key with
            | Some v => v
            | None => JStr []
            end
          else JStr [])
       (split_dot path) obj).

(** ** Options, matches and results *)

Inductive MatchType : Type := ExactStart | ExactContain | Fuzzy.

Record SearchMatch : Type := {
  m_field : jsstring;
  m_value : jsstring;
  m_score : Q;
  m_type : MatchType;
  m_position : option Z
}.

Record SearchResult : Type := {
  r_item : JsValue;
  r_score : Q;
  r_matches : list SearchMatch
}.

Record SearchOptions : Type := {
  fields : option (list jsstring);
  fieldWeights : option (gmap jsstring Q);
  fuzzyThreshold : option Q;
  minFuzzyLength : option Q;
  limit : option Z;
  caseSensitive : option bool
}.

(** [options = {}] *)
Definition no_options : SearchOptions :=
  {| fields := None; fieldWeights := None; fuzzyThreshold := None;
     minFuzzyLength := None; limit := None; caseSensitive := None |}.

(** [overrides: Partial<SearchOptions>] as an argument of an object spread:
    for each key, [None] when the object has no such key and [Some None]
    when the key is there with the value [undefined]. *)
Record Overrides : Type := {
  ov_fields : option (option (list jsstring));
  ov_fieldWeights : option (option (gmap jsstring Q));
  ov_fuzzyThreshold : option (option Q);
  ov_minFuzzyLength : option (option Q);
  ov_limit : option (option Z);
  ov_caseSensitive : option (option bool)
}.

(** [overrides = {}] *)
Definition no_overrides : Overrides :=
  {| ov_fields := None; ov_fieldWeights := None; ov_fuzzyThreshold := None;
     ov_minFuzzyLength := None; ov_limit := None; ov_caseSensitive := None |}.

(** [{ ...config, ...overrides }]: a key of [overrides] wins, also when its
    value is [undefined]. *)
Definition spread (config : SearchOptions) (overrides : Overrides)
    : SearchOptions :=
  {| fields := default (fields config) (ov_fields overrides);
     fieldWeights := default (fieldWeights config) (ov_fieldWeights overrides);
     fuzzyThreshold :=
       default (fuzzyThreshold config) (ov_fuzzyThreshold overrides);
     minFuzzyLength :=
       default (minFuzzyLength config) (ov_minFuzzyLength overrides);
     limit := default (limit config) (ov_limit overrides);
     caseSensitive :=
       default (caseSensitive config) (ov_caseSensitive overrides) |}.

(** The options [calculateFieldScore] receives. *)
Record ScoreOptions : Type := {
  o_fuzzyThreshold : Q;
  o_minFuzzyLength : Q;
  o_caseSensitive : bool
}.

Record FieldStats : Type := { avgLength : Q; weight : Q }.

(** [DEFAULT_SEARCH_OPTIONS] *)
Definition DEFAULT_fieldWeights : gmap jsstring Q := ∅.
Definition DEFAULT_fuzzyThreshold : Q := 0.7%Q.
Definition DEFAULT_minFuzzyLength : Q := 3%Q.
Definition DEFAULT_limit : Z := 100.
Definition DEFAULT_caseSensitive : bool := false.

(** [a > b] on numbers *)
Definition Qgt_bool (a b : Q) : bool := negb (Qle_bool a b).
(** [a < b] on numbers *)
Definition Qlt_bool (a b : Q) : bool := negb (Qle_bool b a).

Definition set_field (f : jsstring) (m : SearchMatch) : SearchMatch :=
  {| m_field := f; m_value := m_value m; m_score := m_score m;
     m_type := m_type m; m_position := m_position m |}.

(** The exact-start match of [calculateFieldScore]. *)
Definition exact_start_match (text : jsstring) (fieldWeight : Q)
    : SearchMatch :=
  {| m_field := []; m_value := text; m_score := (fieldWeight * 20)%Q;
     m_type := ExactStart; m_position := Some 0%Z |}.

(** The exact-contain match of [calculateFieldScore], at [position]. *)
Definition exact_contain_match (text : jsstring) (fieldWeight : Q)
    (position : Z) : SearchMatch :=
  let lengthBonus := Qmax 1 (100 / num (length text)) in
  let positionPenalty := (inject_Z position * 0.1)%Q in
  let score := (fieldWeight * (10 + lengthBonus - positionPenalty))%Q in
  {| m_field := []; m_value := text; m_score := Qmax score fieldWeight;
     m_type := ExactContain; m_position := Some position |}.

(** [(maxLength - distance) / maxLength] of the fuzzy tier. *)
Definition similarity_of (distance : nat) (word searchQuery : jsstring) : Q :=
  let maxLength := Nat.max (length word) (length searchQuery) in
  (inject_Z (Z.of_nat maxLength - Z.of_nat distance) / num maxLength)%Q.

(** [fieldWeight * similarity * (2 + Math.max(1, 50 / text.length))] *)
Definition fuzzy_score (text : jsstring) (fieldWeight similarity : Q) : Q :=
  let lengthBonus := Qmax 1 (50 / num (length text)) in
  (fieldWeight * similarity * (2 + lengthBonus))%Q.

Definition fuzzy_match (text : jsstring) (score : Q) : SearchMatch :=
  {| m_field := []; m_value := text; m_score := score;
     m_type := Fuzzy; m_position := None |}.

(** The body of the fuzzy loop for one [word], from [const distance] to the
    update of [bestMatch]; [distance] is the variant's [levenshteinDistance]. *)
Definition fuzzy_word (distance : jsstring → jsstring → nat)
    (text searchQuery : jsstring) (fieldWeight : Q) (options : ScoreOptions)
    (bestMatch : option SearchMatch) (word : jsstring) : option SearchMatch :=
  let similarity :=
    similarity_of (distance word searchQuery) word searchQuery in
  if Qle_bool (o_fuzzyThreshold options) similarity then
    let score := fuzzy_score text fieldWeight similarity in
    match bestMatch with
    | Some b =>
        if Qgt_bool score (m_score b) then Some (fuzzy_match text score)
        else bestMatch
    | None => Some (fuzzy_match text score)
    end
  else bestMatch.

(** The base weight of a lower-cased field name. *)
Definition base_weight (fieldName : jsstring) : Q :=
  if bool_decide (fieldName ∈ [js "title"; js "name"; js "heading"])
  then 5%Q
  else if bool_decide
            (fieldName ∈ [js "description"; js "summary"; js "subtitle"])
  then 3%Q
  else if bool_decide (fieldName ∈ [js "content"; js "body"; js "text"])
  then 1%Q
  else 1%Q.

Definition length_weight (avgLength : Q) : Q :=
  if Qlt_bool avgLength 50 then 2.0%Q
  else if Qlt_bool avgLength 100 then 1.5%Q
  else if Qlt_bool avgLength 300 then 1.2%Q
  else 1.0%Q.

(** One round of the sampling loop of [calculateFieldStats]: the running
    [(totalLength, count)]. *)
Definition stats_step (fieldPath : jsstring) (acc : nat * nat) (item : JsValue)
    : nat * nat :=
  match getNestedValue item fieldPath with
  | JStr (c :: text) => (acc.1 + length (c :: text), acc.2 + 1)
  | _ => acc
  end.

(** [fieldPath.split(".").pop()]; [split] never returns an empty array. *)
Definition last_segment (fieldPath : jsstring) : jsstring :=
  default [] (last (split_dot fieldPath)).

(** The comparator of [results.sort]. *)
Definition total_length (r : SearchResult) : Z :=
  fold_left (λ sum m, (sum + Z.of_nat (length (m_value m)))%Z)
    (r_matches r) 0%Z.

Definition compare_results (a b : SearchResult) : Q :=
  if negb (Qeq_bool (r_score a) (r_score b)) then (r_score b - r_score a)%Q
  else inject_Z (total_length a - total_length b).

(** [Array.prototype.sort(cmp)] is stable, and for a comparator that is a
    consistent ordering its result is the stable sort: an element goes before
    the first later element it does not compare greater than. *)
Fixpoint sort_insert {A} (cmp : A → A → Q) (x : A) (l : list A) : list A :=
  match l with
  | [] => [x]
  | y :: l' =>
      if Qle_bool (cmp x y) 0%Q then x :: l else y :: sort_insert cmp x l'
  end.

Definition sort {A} (cmp : A → A → Q) (l : list A) : list A :=
  foldr (sort_insert cmp) [] l.

(** [l.slice(0, n)] for an integer [n]; a negative [n] counts from the end. *)
Definition slice0 {A} (l : list A) (n : Z) : list A :=
  if (n <? 0)%Z then take (Z.to_nat (Z.of_nat (length l) + n)) l
  else take (Z.to_nat n) l.

(** [limit ? results.slice(0, limit) : results] *)
Definition truncate {A} (limit : Z) (results : list A) : list A :=
  if (limit =? 0)%Z then results else slice0 results limit.

(** The result of a call, mapped when the call returns. *)
Definition outcome_map {A B} (f : A → B) (r : outcome A) : outcome B :=
  match r with
  | Ok a => Ok (f a)
  | Throw e => Throw e
  end.

(** [data.map((item) => ({ item, score: 0, matches: [] }))] *)
Definition pass_through (data : list JsValue) : list SearchResult :=
  (λ item, {| r_item := item; r_score := 0%Q; r_matches := [] |}) <$> data.

(** [explicitWeight ?? fieldStat?.weight ?? 1], for a field whose weight is
    a number: [fieldWeights[field]] is read from a plain object, and a field
    named as an inherited member of that object gets the member for its
    weight, which is no number ([numeric_weights] below excludes that). *)
Definition field_weight (fieldWeights : gmap jsstring Q)
    (fieldStats : gmap jsstring FieldStats) (field : jsstring) : Q :=
  match fieldWeights !! field with
  | Some w => w
  | None =>
      match fieldStats !! field with
      | Some st => weight st
      | None => 1%Q
      end
  end.

(** ** The plain variant *)

Module Plain.

(** [matrix[i]![j]] and [matrix[i]![j] = v]; every access of
    [levenshteinDistance] is within the bounds of the matrix. *)
Definition matrix_get (matrix : list (list nat)) (i j : nat) : nat :=
  (matrix !!! i) !!! j.

Definition matrix_set (matrix : list (list nat)) (i j v : nat)
    : list (list nat) :=
  <[i := <[j := v]> (matrix !!! i)]> matrix.

(** The body of the inner loop: the entry at row [i], column [j]. *)
Definition fill_cell (str1 str2 : jsstring) (i : nat)
    (matrix : list (list nat)) (j : nat) : list (list nat) :=
  let cost := char_cost str1 str2 (j - 1) (i - 1) in
  let deletion := matrix_get matrix (i - 1) j + 1 in
  let insertion := matrix_get matrix i (j - 1) + 1 in
  let substitution := matrix_get matrix (i - 1) (j - 1) + cost in
  matrix_set matrix i j (min3 deletion insertion substitution).

Definition levenshteinDistance (str1 str2 : jsstring) : nat :=
  let len1 := length str1 in
  let len2 := length str2 in
  let matrix := replicate (len2 + 1) (replicate (len1 + 1) 0) in
  let matrix :=
    fold_left (λ m i, matrix_set m 0 i i) (seq 0 (len1 + 1)) matrix in
  let matrix :=
    fold_left (λ m j, matrix_set m j 0 j) (seq 0 (len2 + 1)) matrix in
  let matrix :=
    fold_left (λ m i, fold_left (fill_cell str1 str2 i) (seq 1 len1) m)
      (seq 1 len2) matrix in
  matrix_get matrix len2 len1.

(** [detectStringFields(obj, prefix, maxDepth)] *)
Fixpoint detectStringFields (maxDepth : nat) (obj : JsValue)
    (prefix : jsstring) : list jsstring :=
  match maxDepth with
  | 0 => []
  | S d =>
      if negb (truthy obj && is_object obj) then []
      else
        fold_left
          (λ fields kv,
             let fieldPath :=
               if str_falsy prefix then kv.1 else prefix ++ js "." ++ kv.1 in
             match kv.2 with
             | JStr (_ :: _) => fields ++ [fieldPath]
             | JObj _ _ => fields ++ detectStringFields d kv.2 fieldPath
             | _ => fields
             end)
          (entries obj) []
  end.

Section WithLowerCase.
Variable toLowerCase : jsstring → jsstring.

(** [options.caseSensitive ? s : s.toLowerCase()] *)
Definition normalize (caseSensitive : bool) (s : jsstring) : jsstring :=
  if caseSensitive then s else toLowerCase s.

Definition calculateFieldScore (text query : jsstring) (fieldWeight : Q)
    (options : ScoreOptions) : option SearchMatch :=
  if str_falsy text || str_falsy query then None
  else
    let searchText := normalize (o_caseSensitive options) text in
    let searchQuery := normalize (o_caseSensitive options) query in
    if startsWith searchText searchQuery then
      Some (exact_start_match text fieldWeight)
    else if includes searchText searchQuery then
      Some (exact_contain_match text fieldWeight
              (indexOf searchText searchQuery))
    else if Qle_bool (o_minFuzzyLength options) (num (length searchQuery)) then
      fold_left
        (λ bestMatch word,
           if 3 <=? length word then
             fuzzy_word levenshteinDistance text searchQuery fieldWeight options
               bestMatch word
           else bestMatch)
        (split_ws searchText) None
    else None.

(** [calculateFieldStats(fieldPath)] over the collection [data]. *)
Definition calculateFieldStats (data : list JsValue) (fieldPath : jsstring)
    : FieldStats :=
  let acc := fold_left (stats_step fieldPath) data (0, 0) in
  let avgLength := if 0 <? acc.2 then (num acc.1 / num acc.2)%Q else 0%Q in
  let fieldName := toLowerCase (last_segment fieldPath) in
  {| avgLength := avgLength;
     weight := (base_weight fieldName * length_weight avgLength)%Q |}.

(** One round of the loop over [searchFields] for one [item]: the running
    [(matches, totalScore)]. A truthy value that is no string reaches
    [calculateFieldScore] and fails there on [text.toLowerCase()] or on
    [searchText.startsWith(...)]. *)
Definition score_field (fieldWeights : gmap jsstring Q)
    (fieldStats : gmap jsstring FieldStats) (searchQuery : jsstring)
    (searchOptions : ScoreOptions) (item : JsValue)
    (acc : outcome (list SearchMatch * Q)) (field : jsstring)
    : outcome (list SearchMatch * Q) :=
  match acc with
  | Throw e => Throw e
  | Ok (matches, totalScore) =>
      let text := getNestedValue item field in
      if negb (truthy text) then acc
      else
        match text with
        | JStr text =>
            let defaultWeight := field_weight fieldWeights fieldStats field in
            match calculateFieldScore text searchQuery defaultWeight
                    searchOptions with
            | Some m =>
                Ok (matches ++ [set_field field m], (totalScore + m_score m)%Q)
            | None => acc
            end
        | _ => Throw TypeError
        end
  end.

(** One round of the loop over [data]: the running [results]. *)
Definition score_item (fieldWeights : gmap jsstring Q)
    (fieldStats : gmap jsstring FieldStats) (searchFields : list jsstring)
    (searchQuery : jsstring) (searchOptions : ScoreOptions)
    (acc : outcome (list SearchResult)) (item : JsValue)
    : outcome (list SearchResult) :=
  match acc with
  | Throw e => Throw e
  | Ok results =>
      match fold_left
              (score_field fieldWeights fieldStats searchQuery searchOptions
                 item)
              searchFields (Ok ([], 0%Q)) with
      | Throw e => Throw e
      | Ok ([], _) => acc
      | Ok (matches, totalScore) =>
          Ok (results ++
              [{| r_item := item; r_score := totalScore;
                  r_matches := matches |}])
      end
  end.

Definition search (data : list JsValue) (query : jsstring)
    (options : SearchOptions) : outcome (list SearchResult) :=
  if str_falsy (trim query) then Ok (pass_through data)
  else
    let fieldWeights := default DEFAULT_fieldWeights (fieldWeights options) in
    let fuzzyThreshold :=
      default DEFAULT_fuzzyThreshold (fuzzyThreshold options) in
    let minFuzzyLength :=
      default DEFAULT_minFuzzyLength (minFuzzyLength options) in
    let limit := default DEFAULT_limit (limit options) in
    let caseSensitive :=
      default DEFAULT_caseSensitive (caseSensitive options) in
    let searchQuery := trim query in
    let searchOptions :=
      {| o_fuzzyThreshold := fuzzyThreshold; o_minFuzzyLength := minFuzzyLength;
         o_caseSensitive := caseSensitive |} in
    let searchFields :=
      match fields options with
      | Some fs => fs
      | None =>
          match data with
          | item0 :: _ => detectStringFields 3 item0 []
          | [] => []
          end
      end in
    let fieldStats :=
      fold_left
        (λ stats field, <[field := calculateFieldStats data field]> stats)
        searchFields (∅ : gmap jsstring FieldStats) in
    match fold_left
            (score_item fieldWeights fieldStats searchFields searchQuery
               searchOptions)
            data (Ok []) with
    | Throw e => Throw e
    | Ok results => Ok (truncate limit (sort compare_results results))
    end.

(** [searchItems(data, query, options)] *)
Definition searchItems (data : list JsValue) (query : jsstring)
    (options : SearchOptions) : outcome (list JsValue) :=
  outcome_map (fmap r_item) (search data query options).

(** [createSearcher(config)]: the function it returns, applied. *)
Definition createSearcher (config : SearchOptions) (data : list JsValue)
    (query : jsstring) (overrides : Overrides)
    : outcome (list SearchResult) :=
  search data query (spread config overrides).

(** [createDocumentSearcher()] *)
Definition createDocumentSearcher
    : list JsValue → jsstring → Overrides → outcome (list SearchResult) :=
  createSearcher
    {| fields := None; fieldWeights := Some DEFAULT_fieldWeights;
       fuzzyThreshold := Some DEFAULT_fuzzyThreshold;
       minFuzzyLength := Some DEFAULT_minFuzzyLength;
       limit := Some DEFAULT_limit;
       caseSensitive := Some DEFAULT_caseSensitive |}.

(** [quickSearch(data, query, fields)] *)
Definition quickSearch (data : list JsValue) (query : jsstring)
    (fields : option (list jsstring)) : outcome (list JsValue) :=
  searchItems data query
    {| fields := fields; fieldWeights := Some DEFAULT_fieldWeights;
       fuzzyThreshold := Some DEFAULT_fuzzyThreshold;
       minFuzzyLength := Some DEFAULT_minFuzzyLength;
       limit := Some DEFAULT_limit;
       caseSensitive := Some DEFAULT_caseSensitive |}.

End WithLowerCase.
End Plain.

(** ** The cached variant *)

Module Cached.

(** The process-wide state: the three caches and the call counter. The
    string cache is a [Map], whose keys are kept in insertion order; the
    other two are [WeakMap]s keyed by the identity of a record and of a
    collection. *)
Record Caches : Type := {
  fieldDetectionCache : gmap positive (list jsstring);
  stringProcessingCache : list (jsstring * jsstring);
  fieldStatsCache : gmap positive (gmap jsstring FieldStats);
  searchCallCount : nat
}.

(** The state of a freshly loaded module. *)
Definition cold : Caches :=
  {| fieldDetectionCache := ∅; stringProcessingCache := [];
     fieldStatsCache := ∅; searchCallCount := 0 |}.

Definition MAX_STRING_CACHE_SIZE : nat := 500.

(** [cache.get(key)] *)
Definition cache_get (cache : list (jsstring * jsstring)) (key : jsstring)
    : option jsstring :=
  snd <$> find (λ kv, bool_decide (kv.1 = key)) cache.

(** [keysToDelete.forEach(key => cache.delete(key))] for the first [n] keys. *)
Definition evict_oldest (n : nat) (cache : list (jsstring * jsstring))
    : list (jsstring * jsstring) :=
  let keysToDelete := take n (fst <$> cache) in
  filter (λ kv, kv.1 ∉ keysToDelete) cache.

(** The two-row edit distance. [new Array(len1 + 1)] is modelled as a row of
    zeros: no slot is read before it is written. *)
Definition fill_slot (str1 str2 : jsstring) (i : nat) (prevRow : list nat)
    (currRow : list nat) (j : nat) : list nat :=
  let cost := char_cost str1 str2 (j - 1) (i - 1) in
  <[j := min3 (prevRow !!! j + 1) (currRow !!! (j - 1) + 1)
           (prevRow !!! (j - 1) + cost)]> currRow.

Definition fill_row (str1 str2 : jsstring) (rows : list nat * list nat)
    (i : nat) : list nat * list nat :=
  let currRow := <[0 := i]> rows.2 in
  let currRow :=
    fold_left (fill_slot str1 str2 i rows.1) (seq 1 (length str1)) currRow in
  (currRow, rows.1).

Definition two_rows (str1 str2 : jsstring) : nat :=
  let len1 := length str1 in
  let len2 := length str2 in
  let prevRow := replicate (len1 + 1) 0 in
  let currRow := replicate (len1 + 1) 0 in
  let prevRow :=
    fold_left (λ row i, <[i := i]> row) (seq 0 (len1 + 1)) prevRow in
  let rows := fold_left (fill_row str1 str2) (seq 1 len2) (prevRow, currRow) in
  rows.1 !!! len1.

Definition levenshteinDistance (str1 str2 : jsstring) : nat :=
  if length str2 <? length str1 then two_rows str2 str1
  else two_rows str1 str2.

(** [detectStringFields(obj, prefix, maxDepth)] with the cache of the fields
    of a root object. *)
Fixpoint detectStringFields (maxDepth : nat) (obj : JsValue)
    (prefix : jsstring) (cache : gmap positive (list jsstring))
    : list jsstring * gmap positive (list jsstring) :=
  match maxDepth with
  | 0 => ([], cache)
  | S d =>
      match addr_of obj with
      | None => ([], cache)
      | Some a =>
          match (if str_falsy prefix then cache !! a else None) with
          | Some fields => (fields, cache)
          | None =>
              let r :=
                fold_left
                  (λ acc kv,
                     let fieldPath :=
                       if str_falsy prefix then kv.1
                       else prefix ++ js "." ++ kv.1 in
                     match kv.2 with
                     | JStr (_ :: _) => (acc.1 ++ [fieldPath], acc.2)
                     | JObj _ _ =>
                         let sub := detectStringFields d kv.2 fieldPath acc.2 in
                         (acc.1 ++ sub.1, sub.2)
                     | _ => acc
                     end)
                  (entries obj) ([], cache) in
              (r.1, if str_falsy prefix then <[a := r.1]> r.2 else r.2)
          end
      end
  end.

Section WithLowerCase.
Variable toLowerCase : jsstring → jsstring.

(** [getProcessedString(str, caseSensitive)] on the string cache. *)
Definition getProcessedString (str : jsstring) (caseSensitive : bool)
    (cache : list (jsstring * jsstring))
    : jsstring * list (jsstring * jsstring) :=
  if caseSensitive then (str, cache)
  else
    let cacheKey := js "lc:" ++ str in
    match cache_get cache cacheKey with
    | Some processed => (processed, cache)
    | None =>
        let processed := toLowerCase str in
        let cache :=
          if MAX_STRING_CACHE_SIZE <=? length cache
          then evict_oldest (MAX_STRING_CACHE_SIZE / 2) cache
          else cache in
        (processed, cache ++ [(cacheKey, processed)])
    end.

(** One round of the word-splitting loop of the fuzzy tier: the running
    [(bestMatch, wordStart)] at index [i]. *)
Definition fuzzy_scan (text searchText searchQuery : jsstring)
    (fieldWeight : Q) (options : ScoreOptions)
    (acc : option SearchMatch * nat) (i : nat) : option SearchMatch * nat :=
  if (i =? length searchText)
     || match searchText !! i with
        | Some char => is_white_space char
        | None => false
        end
  then
    (if 3 <=? i - acc.2 then
       fuzzy_word levenshteinDistance text searchQuery fieldWeight options
         acc.1 (slice searchText acc.2 i)
     else acc.1,
     i + 1)
  else acc.

Definition calculateFieldScore (text query : jsstring) (fieldWeight : Q)
    (options : ScoreOptions) (cache : list (jsstring * jsstring))
    : option SearchMatch * list (jsstring * jsstring) :=
  if str_falsy text || str_falsy query then (None, cache)
  else
    let t := getProcessedString text (o_caseSensitive options) cache in
    let q := getProcessedString query (o_caseSensitive options) t.2 in
    let searchText := t.1 in
    let searchQuery := q.1 in
    let position := indexOf searchText searchQuery in
    (if startsWith searchText searchQuery then
       Some (exact_start_match text fieldWeight)
     else if negb (position =? -1)%Z then
       Some (exact_contain_match text fieldWeight position)
     else if Qle_bool (o_minFuzzyLength options) (num (length searchQuery)) then
       (fold_left (fuzzy_scan text searchText searchQuery fieldWeight options)
          (seq 0 (length searchText + 1)) (None, 0)).1
     else None,
     q.2).

(** [calculateFieldStats(fieldPath)] over the first 100 records of [data]. *)
Definition calculateFieldStats (data : list JsValue) (fieldPath : jsstring)
    : FieldStats :=
  let sampleSize := Nat.min (length data) 100 in
  let acc :=
    fold_left
      (λ acc i, stats_step fieldPath acc (default JUndefined (data !! i)))
      (seq 0 sampleSize) (0, 0) in
  let avgLength := if 0 <? acc.2 then (num acc.1 / num acc.2)%Q else 0%Q in
  let fieldName := toLowerCase (last_segment fieldPath) in
  {| avgLength := avgLength;
     weight := (base_weight fieldName * length_weight avgLength)%Q |}.

(** One round of the loop over [searchFields] for one [item]: the running
    [(matches, totalScore)] and the string cache. A truthy value that is no
    string fails in [getProcessedString] on [str.toLowerCase()], or in
    [calculateFieldScore] on [searchText.startsWith(...)]. When the string
    cache already holds the key [lc:] followed by the text of such a value,
    the engine goes on with the cached string instead and builds a match
    whose value is no string: that path is not followed here, and what is
    proved of the results of the cached scan is proved for collections
    whose searched fields hold strings or falsy values ([string_valued]),
    or does not depend on the path. *)
Definition score_field (fieldWeights : gmap jsstring Q)
    (fieldStats : gmap jsstring FieldStats) (searchQuery : jsstring)
    (searchOptions : ScoreOptions) (item : JsValue)
    (acc : outcome (list SearchMatch * Q) * list (jsstring * jsstring))
    (field : jsstring)
    : outcome (list SearchMatch * Q) * list (jsstring * jsstring) :=
  match acc.1 with
  | Throw e => acc
  | Ok (matches, totalScore) =>
      let text := getNestedValue item field in
      if negb (truthy text) then acc
      else
        match text with
        | JStr text =>
            let defaultWeight := field_weight fieldWeights fieldStats field in
            let r := calculateFieldScore text searchQuery defaultWeight
                       searchOptions acc.2 in
            match r.1 with
            | Some m =>
                (Ok (matches ++ [set_field field m],
                     (totalScore + m_score m)%Q),
                 r.2)
            | None => (acc.1, r.2)
            end
        | _ => (Throw TypeError, acc.2)
        end
  end.

(** The loop over [data] from [itemIndex] on, with its early termination:
    the running [results] and the string cache. *)
Fixpoint collect (fieldWeights : gmap jsstring Q)
    (fieldStats : gmap jsstring FieldStats) (searchFields : list jsstring)
    (searchQuery : jsstring) (searchOptions : ScoreOptions) (maxResults : Z)
    (items : list JsValue) (results : list SearchResult)
    (cache : list (jsstring * jsstring))
    : outcome (list SearchResult) * list (jsstring * jsstring) :=
  match items with
  | [] => (Ok results, cache)
  | item :: items' =>
      if negb (truthy item) then
        collect fieldWeights fieldStats searchFields searchQuery searchOptions
          maxResults items' results cache
      else
        let r :=
          fold_left
            (score_field fieldWeights fieldStats searchQuery searchOptions item)
            searchFields (Ok ([], 0%Q), cache) in
        match r.1 with
        | Throw e => (Throw e, r.2)
        | Ok (matches, totalScore) =>
            let results :=
              match matches with
              | [] => results
              | _ =>
                  results ++
                  [{| r_item := item; r_score := totalScore;
                      r_matches := matches |}]
              end in
            if (maxResults <=? Z.of_nat (length results))%Z
            then (Ok results, r.2)
            else
              collect fieldWeights fieldStats searchFields searchQuery
                searchOptions maxResults items' results r.2
        end
  end.

(** The periodic cleanup at the head of [search]. *)
Definition count_call (st : Caches) : Caches :=
  let count := searchCallCount st + 1 in
  let strings := stringProcessingCache st in
  {| fieldDetectionCache := fieldDetectionCache st;
     stringProcessingCache :=
       if (count mod 100 =? 0) && (MAX_STRING_CACHE_SIZE / 2 <? length strings)
       then evict_oldest (MAX_STRING_CACHE_SIZE / 4) strings
       else strings;
     fieldStatsCache := fieldStatsCache st;
     searchCallCount := count |}.

(** [search(data, query, options)] in state [st]; [data_addr] is the identity
    of the array [data]. *)
Definition search (data_addr : positive) (data : list JsValue)
    (query : jsstring) (options : SearchOptions) (st : Caches)
    : outcome (list SearchResult) * Caches :=
  let st := count_call st in
  if str_falsy (trim query) then (Ok (pass_through data), st)
  else
    let fieldWeights := default DEFAULT_fieldWeights (fieldWeights options) in
    let fuzzyThreshold :=
      default DEFAULT_fuzzyThreshold (fuzzyThreshold options) in
    let minFuzzyLength :=
      default DEFAULT_minFuzzyLength (minFuzzyLength options) in
    let limit := default DEFAULT_limit (limit options) in
    let caseSensitive :=
      default DEFAULT_caseSensitive (caseSensitive options) in
    let searchQuery := trim query in
    let searchOptions :=
      {| o_fuzzyThreshold := fuzzyThreshold; o_minFuzzyLength := minFuzzyLength;
         o_caseSensitive := caseSensitive |} in
    let detected :=
      match fields options with
      | Some fs => (fs, fieldDetectionCache st)
      | None =>
          match data with
          | item0 :: _ => detectStringFields 3 item0 [] (fieldDetectionCache st)
          | [] => ([], fieldDetectionCache st)
          end
      end in
    let searchFields := detected.1 in
    let stats :=
      match fieldStatsCache st !! data_addr with
      | Some fieldStats => (fieldStats, fieldStatsCache st)
      | None =>
          let fieldStats :=
            fold_left
              (λ stats field,
                 <[field := calculateFieldStats data field]> stats)
              searchFields (∅ : gmap jsstring FieldStats) in
          (fieldStats, <[data_addr := fieldStats]> (fieldStatsCache st))
      end in
    let maxResults :=
      if (limit =? 0)%Z then Z.of_nat (length data) else (limit * 3)%Z in
    let r := collect fieldWeights stats.1 searchFields searchQuery searchOptions
               maxResults data [] (stringProcessingCache st) in
    (match r.1 with
     | Throw e => Throw e
     | Ok results => Ok (truncate limit (sort compare_results results))
     end,
     {| fieldDetectionCache := detected.2; stringProcessingCache := r.2;
        fieldStatsCache := stats.2; searchCallCount := searchCallCount st |}).

(** [searchItems(data, query, options)] in state [st] *)
Definition searchItems (data_addr : positive) (data : list JsValue)
    (query : jsstring) (options : SearchOptions) (st : Caches)
    : outcome (list JsValue) * Caches :=
  let r := search data_addr data query options st in
  (outcome_map (fmap r_item) r.1, r.2).

(** [createSearcher(config)]: the function it returns, applied in state
    [st]. *)
Definition createSearcher (config : SearchOptions) (data_addr : positive)
    (data : list JsValue) (query : jsstring) (overrides : Overrides)
    (st : Caches) : outcome (list SearchResult) * Caches :=
  search data_addr data query (spread config overrides) st.

(** [createDocumentSearcher()] *)
Definition createDocumentSearcher
    : positive → list JsValue → jsstring → Overrides → Caches →
      outcome (list SearchResult) * Caches :=
  createSearcher
    {| fields := None; fieldWeights := Some DEFAULT_fieldWeights;
       fuzzyThreshold := Some DEFAULT_fuzzyThreshold;
       minFuzzyLength := Some DEFAULT_minFuzzyLength;
       limit := Some DEFAULT_limit;
       caseSensitive := Some DEFAULT_caseSensitive |}.

(** [quickSearch(data, query, fields)] in state [st] *)
Definition quickSearch (data_addr : positive) (data : list JsValue)
    (query : jsstring) (fields : option (list jsstring)) (st : Caches)
    : outcome (list JsValue) * Caches :=
  searchItems data_addr data query
    {| fields := fields; fieldWeights := Some DEFAULT_fieldWeights;
       fuzzyThreshold := Some DEFAULT_fuzzyThreshold;
       minFuzzyLength := Some DEFAULT_minFuzzyLength;
       limit := Some DEFAULT_limit;
       caseSensitive := Some DEFAULT_caseSensitive |}
    st.

(** [getCacheStats()]: [(stringProcessingCacheSize, searchCallCount)] *)
Definition getCacheStats (st : Caches) : nat * nat :=
  (length (stringProcessingCache st), searchCallCount st).

(** [clearSearchCaches()] *)
Definition clearSearchCaches (st : Caches) : Caches :=
  {| fieldDetectionCache := fieldDetectionCache st; stringProcessingCache := [];
     fieldStatsCache := fieldStatsCache st; searchCallCount := 0 |}.

(** The states the module can be in: what calls of [search] and
    [clearSearchCaches] make of the state of a freshly loaded module. *)
Inductive reachable : Caches → Prop :=
| reachable_cold : reachable cold
| reachable_search st data_addr data query options :
    reachable st → reachable (search data_addr data query options st).2
| reachable_clear st : reachable st → reachable (clearSearchCaches st).

End WithLowerCase.
End Cached.

(** ** Notions of the specification *)

(** The similarity of a word and the query: the normalized inverse of their
    edit distance. *)
Definition similarity (word searchQuery : jsstring) : Q :=
  similarity_of (lev word searchQuery) word searchQuery.

(** The words of a text that the fuzzy tier compares with the query. *)
Definition long_words (searchText : jsstring) : list jsstring :=
  filter (λ word, 3 ≤ length word) (words searchText).

(** The best fuzzy match over the words of [searchText]. *)
Definition best_fuzzy (text searchText searchQuery : jsstring)
    (fieldWeight : Q) (options : ScoreOptions) : option SearchMatch :=
  fold_left (fuzzy_word lev text searchQuery fieldWeight options)
    (long_words searchText) None.

(** What [bestMatch] is after the fuzzy loop has seen the words [seen]: the
    match of a best-scoring word among those that reach the threshold. *)
Definition best_after (text sq : jsstring) (w : Q) (opts : ScoreOptions)
    (seen : list jsstring) (best : option SearchMatch) : Prop :=
  match best with
  | None =>
      ∀ word, word ∈ seen →
        Qle_bool (o_fuzzyThreshold opts) (similarity word sq) = false
  | Some m =>
      ∃ word, word ∈ seen ∧
        Qle_bool (o_fuzzyThreshold opts) (similarity word sq) = true ∧
        m = fuzzy_match text (fuzzy_score text w (similarity word sq)) ∧
        ∀ word', word' ∈ seen →
          Qle_bool (o_fuzzyThreshold opts) (similarity word' sq) = true →
          (fuzzy_score text w (similarity word' sq) <=
           fuzzy_score text w (similarity word sq))%Q
  end.

(** The classification of one field, in the order of the specification:
    prefix, then substring, then fuzzy; on the normalized text and query. *)
Definition field_match (text searchText searchQuery : jsstring)
    (fieldWeight : Q) (options : ScoreOptions) : option SearchMatch :=
  if startsWith searchText searchQuery then
    Some (exact_start_match text fieldWeight)
  else if (0 <=? indexOf searchText searchQuery)%Z then
    Some (exact_contain_match text fieldWeight (indexOf searchText searchQuery))
  else if Qle_bool (o_minFuzzyLength options) (num (length searchQuery)) then
    best_fuzzy text searchText searchQuery fieldWeight options
  else None.

(** The lengths of the non-empty strings found at [fieldPath]. *)
Definition field_lengths (records : list JsValue) (fieldPath : jsstring)
    : list nat :=
  omap (λ item,
          match getNestedValue item fieldPath with
          | JStr (c :: text) => Some (length (c :: text))
          | _ => None
          end) records.

(** Their mean, 0 when there is none. *)
Definition mean_length (records : list JsValue) (fieldPath : jsstring) : Q :=
  match field_lengths records fieldPath with
  | [] => 0%Q
  | ls => (num (sum_list ls) / num (length ls))%Q
  end.

(** The ranking: total score descending, then sum of the lengths of the
    matched values ascending. *)
Definition ranks_before (a b : SearchResult) : Prop :=
  (r_score b < r_score a)%Q ∨
  (r_score a == r_score b ∧ (total_length a ≤ total_length b)%Z).

(** The entries of the string cache are lower-casings under their key. *)
Definition string_cache_ok (toLowerCase : jsstring → jsstring)
    (cache : list (jsstring * jsstring)) : Prop :=
  Forall (λ kv, ∃ s, kv.1 = js "lc:" ++ s ∧ kv.2 = toLowerCase s) cache.

(** The string cache is a map, with distinct keys, of at most
    [MAX_STRING_CACHE_SIZE] entries. *)
Definition string_cache_bounded (cache : list (jsstring * jsstring)) : Prop :=
  NoDup (cache.*1) ∧ length cache ≤ Cached.MAX_STRING_CACHE_SIZE.

(** The sum the loop over the fields accumulates in [totalScore]. *)
Definition sum_scores (matches : list SearchMatch) : Q :=
  fold_left (λ totalScore m, (totalScore + m_score m)%Q) matches 0%Q.

(** A match of the record [item]: it carries the non-empty string found in
    the record at its field. *)
Definition match_of (item : JsValue) (m : SearchMatch) : Prop :=
  m_value m ≠ [] ∧ getNestedValue item (m_field m) = JStr (m_value m).

(** A result as the scoring loop builds it: it has a match, its matches are
    matches of its record, and its score is the sum of their scores. *)
Definition well_formed_result (r : SearchResult) : Prop :=
  r_matches r ≠ [] ∧
  r_score r = sum_scores (r_matches r) ∧
  Forall (match_of (r_item r)) (r_matches r).

(** A truthy value that is no string: what the guard [if (!text) continue]
    lets through to the matcher although the matcher cannot handle it. *)
Definition not_a_string (v : JsValue) : bool :=
  match v with
  | JStr _ => false
  | _ => truthy v
  end.

(** Every field of [searchFields] holds, in every record of [data], a string
    or a falsy value. *)
Definition string_valued (data : list JsValue) (searchFields : list jsstring)
    : Prop :=
  Forall
    (λ item,
       Forall (λ field, not_a_string (getNestedValue item field) = false)
         searchFields)
    data.

(** Every searched field has a number for its weight. The weight is read by
    [fieldWeights[field]] from a plain object, so that for a field named as
    a member of [Object.prototype] that is not set in [fieldWeights] it is
    the inherited member, no number, and the scores of that field are not
    numbers either: [field_weight] and the scores of the model are those of
    the engine where this holds. *)
Definition numeric_weights (options : SearchOptions)
    (searchFields : list jsstring) : Prop :=
  Forall
    (λ field,
       is_Some (object_member JNull field) →
       is_Some (default DEFAULT_fieldWeights (fieldWeights options) !! field))
    searchFields.

(** The [searchOptions] a call of [search] passes to the matcher. *)
Definition score_options_of (options : SearchOptions) : ScoreOptions :=
  {| o_fuzzyThreshold :=
       default DEFAULT_fuzzyThreshold (fuzzyThreshold options);
     o_minFuzzyLength :=
       default DEFAULT_minFuzzyLength (minFuzzyLength options);
     o_caseSensitive :=
       default DEFAULT_caseSensitive (caseSensitive options) |}.

(** The record [item] holds at [field] a string the matcher finds the query
    in, by whichever tier. *)
Definition field_hit (toLowerCase : jsstring → jsstring)
    (searchQuery : jsstring) (searchOptions : ScoreOptions) (item : JsValue)
    (field : jsstring) : bool :=
  match getNestedValue item field with
  | JStr text =>
      bool_decide
        (is_Some
           (Plain.calculateFieldScore toLowerCase text searchQuery 1
              searchOptions))
  | _ => false
  end.

(** Some searched field of the record is a hit. *)
Definition record_hit (toLowerCase : jsstring → jsstring)
    (searchFields : list jsstring) (searchQuery : jsstring)
    (searchOptions : ScoreOptions) (item : JsValue) : bool :=
  existsb (field_hit toLowerCase searchQuery searchOptions item) searchFields.

(** The objects [detectStringFields] walks from [obj], to the depth
    [maxDepth], have distinct keys, none of them empty or holding a dot. *)
Fixpoint dotless_keys (maxDepth : nat) (obj : JsValue) : Prop :=
  match maxDepth with
  | 0 => True
  | S d =>
      match obj with
      | JObj _ props =>
          NoDup props.*1 ∧
          Forall (λ kv, kv.1 ≠ [] ∧ (46%N ∉ kv.1) ∧ dotless_keys d kv.2) props
      | _ => True
      end
  end.

(** The [searchFields] of a call of the plain [search]. *)
Definition plain_search_fields (data : list JsValue) (options : SearchOptions)
    : list jsstring :=
  match fields options with
  | Some fs => fs
  | None =>
      match data with
      | item0 :: _ => Plain.detectStringFields 3 item0 []
      | [] => []
      end
  end.

(** The [searchFields] of a call of the cached [search] in state [st]. *)
Definition cached_search_fields (data : list JsValue) (options : SearchOptions)
    (st : Cached.Caches) : list jsstring :=
  match fields options with
  | Some fs => fs
  | None =>
      match data with
      | item0 :: _ =>
          (Cached.detectStringFields 3 item0 []
             (Cached.fieldDetectionCache st)).1
      | [] => []
      end
  end.

(** ** Inputs of the examples *)

(** The options [search] passes to the matcher by default. *)
Definition default_score_options : ScoreOptions :=
  {| o_fuzzyThreshold := DEFAULT_fuzzyThreshold;
     o_minFuzzyLength := DEFAULT_minFuzzyLength;
     o_caseSensitive := DEFAULT_caseSensitive |}.

(** [{ fuzzyThreshold: 0.6 }] *)
Definition lenient_score_options : ScoreOptions :=
  {| o_fuzzyThreshold := 0.6%Q;
     o_minFuzzyLength := DEFAULT_minFuzzyLength;
     o_caseSensitive := DEFAULT_caseSensitive |}.

(** [{ [key]: text }] at address [addr] *)
Definition record1 (addr : positive) (key text : string) : JsValue :=
  JObj addr [(js key, JStr (js text))].

(** [{ limit: n }] *)
Definition with_limit (options : SearchOptions) (n : Z) : SearchOptions :=
  {| fields := fields options; fieldWeights := fieldWeights options;
     fuzzyThreshold := fuzzyThreshold options;
     minFuzzyLength := minFuzzyLength options; limit := Some n;
     caseSensitive := caseSensitive options |}.

(** [{ fields: fs }] *)
Definition only_fields (fs : list jsstring) : SearchOptions :=
  {| fields := Some fs; fieldWeights := None; fuzzyThreshold := None;
     minFuzzyLength := None; limit := None; caseSensitive := None |}.

(** [{ name: "Al", address: { city: "Rome", zip: 185 } }] *)
Definition resident : JsValue :=
  JObj 1 [(js "name", JStr (js "Al"));
          (js "address",
           JObj 2 [(js "city", JStr (js "Rome")); (js "zip", JNum 185)])].

(** A collection in which the exact record comes fourth. *)
Definition johns : list JsValue :=
  [record1 1 "name" "Johnny"; record1 2 "name" "Johnson";
   record1 3 "name" "John Doe"; record1 4 "name" "John"].

(** 101 records with a one-letter text and a last record with a text of
    5000 letters. *)
Definition long_tail : list JsValue :=
  replicate 101 (record1 1 "t" "a")
  ++ [JObj 2 [(js "t", JStr (replicate 5000 97%N))]].

(** [[{ age: 30 }]] *)
Definition ages : list JsValue := [JObj 1 [(js "age", JNum 30)]].

(** [[{ title: "hello", body: "hello world" }]] *)
Definition notes : list JsValue :=
  [JObj 1 [(js "title", JStr (js "hello"));
           (js "body", JStr (js "hello world"))]].

(** The scores of a result, in lowest terms. *)
Definition scores_of (r : outcome (list SearchResult)) : outcome (list Q) :=
  outcome_map (fmap (λ x, Qred (r_score x))) r.

(** The state after a search of [notes] over the field [title], from a
    freshly loaded module. *)
Definition warm_notes : Cached.Caches :=
  (Cached.search ascii_lower 9 notes (js "hello") (only_fields [js "title"])
     Cached.cold).2.

(** ** Loop invariants of the two edit-distance implementations *)

(** The matrix has [len2 + 1] rows of [len1 + 1] entries. *)
Definition matrix_dims (str1 str2 : jsstring) (m : list (list nat)) : Prop :=
  length m = length str2 + 1 ∧
  ∀ i, i ≤ length str2 → length (m !!! i) = length str1 + 1.

(** After the two initialisation loops: row 0 and column 0 are set. *)
Definition borders_set (str1 str2 : jsstring) (m : list (list nat)) : Prop :=
  matrix_dims str1 str2 m ∧
  (∀ j, j ≤ length str1 → Plain.matrix_get m 0 j = j) ∧
  (∀ i, i ≤ length str2 → Plain.matrix_get m i 0 = i).

(** The rows above [i] hold the table, together with column 0 of every row
    and the first [j] entries of row [i]. *)
Definition filled (str1 str2 : jsstring) (i j : nat) (m : list (list nat))
    : Prop :=
  matrix_dims str1 str2 m ∧
  (∀ i', i' ≤ length str2 → Plain.matrix_get m i' 0 = i') ∧
  (∀ i' j', i' < i → j' ≤ length str1 →
     Plain.matrix_get m i' j' = table str1 str2 i' j') ∧
  (∀ j', j' < j → i ≤ length str2 →
     Plain.matrix_get m i j' = table str1 str2 i j').

(** At the head of round [i], [prevRow] is row [i - 1] of the table. *)
Definition rows_at (str1 str2 : jsstring) (i : nat)
    (rows : list nat * list nat) : Prop :=
  length rows.1 = length str1 + 1 ∧
  length rows.2 = length str1 + 1 ∧
  ∀ j, j ≤ length str1 → rows.1 !!! j = table str1 str2 (i - 1) j.

(** Inside round [i], the first [j] slots of [currRow] are row [i]. *)
Definition slots_at (str1 str2 : jsstring) (i j : nat) (currRow : list nat)
    : Prop :=
  length currRow = length str1 + 1 ∧
  ∀ j', j' < j → currRow !!! j' = table str1 str2 i j'.

(** * Part II: theorems *)

(** ** Loops over an index range *)

(** [for (let k = a; k < a + n; k++) s = f(s, k)] is [fold_left f (seq a n) s].
    The usual invariant rule for such a loop. *)
Lemma fold_left_seq_ind {St : Type} (P : nat → St → Prop)
    (f : St → nat → St) (a n : nat) (s0 : St) :
  P a s0 →
  (∀ k s, a ≤ k < a + n → P k s → P (S k) (f s k)) →
  P (a + n) (fold_left f (seq a n) s0).
Proof.
  induction n as [|n IH]; intros H0 Hstep.
  - by rewrite Nat.add_0_r.
  - rewrite seq_S, fold_left_app. simpl.
    replace (a + S n) with (S (a + n)) by lia.
    apply Hstep; [lia|]. apply IH; [done|].
    intros k s Hk. apply Hstep. lia.
Qed.

(** ** Edit distance: the recursion computes the minimum *)

Section EditDistance.
Context {A : Type} `{EqDecision A}.
Implicit Types a b l : list A.
Implicit Types x y c d : A.

Lemma lev_nil_r a : lev a [] = length a.
Proof. by destruct a. Qed.

Lemma lev_cons_cons x y a b :
  lev (x :: a) (y :: b) =
  Nat.min (S (lev a (y :: b)))
    (Nat.min (S (lev (x :: a) b)) (lev a b + subst_cost x y)).
Proof. reflexivity. Qed.

Lemma subst_cost_le x y : subst_cost x y ≤ 1.
Proof. unfold subst_cost. case_decide; lia. Qed.

Lemma lev_refl a : lev a a = 0.
Proof.
  induction a as [|x a IH]; [done|].
  rewrite lev_cons_cons, IH. unfold subst_cost.
  rewrite decide_True by done. lia.
Qed.

Lemma lev_sym a b : lev a b = lev b a.
Proof.
  revert b. induction a as [|x a IHa]; intros b.
  - by rewrite lev_nil_r.
  - induction b as [|y b IHb]; [done|].
    rewrite !lev_cons_cons, (IHa (y :: b)), IHb, (IHa b).
    unfold subst_cost. repeat case_decide; subst; try done; lia.
Qed.

Lemma lev_cons_r_le a y b : lev a (y :: b) ≤ S (lev a b).
Proof. destruct a; [simpl; lia|]. rewrite lev_cons_cons. lia. Qed.

Lemma lev_cons_l_le x a b : lev (x :: a) b ≤ S (lev a b).
Proof.
  destruct b; [rewrite !lev_nil_r; simpl; lia|]. rewrite lev_cons_cons. lia.
Qed.

Lemma lev_uncons_l_le x a b : lev a b ≤ S (lev (x :: a) b).
Proof.
  induction b as [|y b IHb]; [rewrite !lev_nil_r; simpl; lia|].
  rewrite lev_cons_cons. pose proof (lev_cons_r_le a y b). lia.
Qed.

Lemma lev_subst_l_le c d l b : lev (c :: l) b ≤ S (lev (d :: l) b).
Proof.
  induction b as [|y b IHb]; [rewrite !lev_nil_r; simpl; lia|].
  rewrite !lev_cons_cons.
  pose proof (subst_cost_le c y). pose proof (subst_cost_le d y). lia.
Qed.

Lemma lev_skip_l_le x l l' :
  (∀ b, lev l b ≤ S (lev l' b)) → ∀ b, lev (x :: l) b ≤ S (lev (x :: l') b).
Proof.
  intros Hl b. induction b as [|y b IHb].
  - rewrite !lev_nil_r. specialize (Hl []). rewrite !lev_nil_r in Hl.
    simpl. lia.
  - rewrite !lev_cons_cons.
    pose proof (Hl (y :: b)). pose proof (Hl b). lia.
Qed.

(** One edit of the source moves the distance by at most one. *)
Lemma edit1_lev a b : edit1 a b → ∀ s : list A, lev a s ≤ S (lev b s).
Proof.
  intros [l1 c l2|l1 c l2|l1 c d l2];
    (induction l1 as [|x l1 IH]; simpl; [|by apply lev_skip_l_le]); intros s.
  - apply lev_uncons_l_le.
  - apply lev_cons_l_le.
  - apply lev_subst_l_le.
Qed.

Lemma edits_lev n a b : edits n a b → lev a b ≤ n.
Proof.
  induction 1 as [a|n a b c He _ IH]; [by rewrite lev_refl|].
  pose proof (edit1_lev _ _ He c). lia.
Qed.

Lemma edit1_skip x a b : edit1 a b → edit1 (x :: a) (x :: b).
Proof.
  intros [l1 c l2|l1 c l2|l1 c d l2].
  - apply (edit1_insert (x :: l1)).
  - apply (edit1_delete (x :: l1)).
  - apply (edit1_substitute (x :: l1)).
Qed.

Lemma edits_skip x n a b : edits n a b → edits n (x :: a) (x :: b).
Proof.
  induction 1 as [a|n a b c He _ IH]; [constructor|].
  eapply edits_S; [by apply edit1_skip|done].
Qed.

Lemma edits_from_nil b : edits (length b) [] b.
Proof.
  induction b as [|y b IH]; [constructor|]. simpl.
  eapply edits_S; [apply (edit1_insert [] y [])|]. by apply edits_skip.
Qed.

Lemma edits_to_nil a : edits (length a) a [].
Proof.
  induction a as [|x a IH]; [constructor|]. simpl.
  eapply edits_S; [apply (edit1_delete [] x a)|done].
Qed.

Lemma lev_edits a b : edits (lev a b) a b.
Proof.
  revert b. induction a as [|x a IHa]; intros b; [apply edits_from_nil|].
  induction b as [|y b IHb]; [rewrite lev_nil_r; apply edits_to_nil|].
  rewrite lev_cons_cons.
  destruct (Nat.min_spec (S (lev a (y :: b)))
    (Nat.min (S (lev (x :: a) b)) (lev a b + subst_cost x y))) as [[_ ->]|[_ ->]].
  { eapply edits_S; [apply (edit1_delete [] x a)|apply IHa]. }
  destruct (Nat.min_spec (S (lev (x :: a) b)) (lev a b + subst_cost x y))
    as [[_ ->]|[_ ->]].
  { eapply edits_S; [apply (edit1_insert [] y (x :: a))|]. by apply edits_skip. }
  unfold subst_cost. case_decide as Hxy.
  - subst y. rewrite Nat.add_0_r. apply edits_skip, IHa.
  - rewrite Nat.add_1_r.
    eapply edits_S; [apply (edit1_substitute [] x y a)|]. apply edits_skip, IHa.
Qed.

(** The recursion computes the minimum number of edits. *)
Lemma lev_min_edits a b : min_edits a b (lev a b).
Proof. split; [apply lev_edits|]. intros n. apply edits_lev. Qed.

Lemma min_edits_unique a b n m : min_edits a b n → min_edits a b m → n = m.
Proof. intros [H1 H2] [H1' H2']. apply Nat.le_antisymm; auto. Qed.

Lemma edit1_reverse a b : edit1 a b → edit1 (reverse a) (reverse b).
Proof.
  intros [l1 c l2|l1 c l2|l1 c d l2];
    rewrite !reverse_app, ?reverse_cons, <-?(assoc_L (++)); simpl; constructor.
Qed.

Lemma edits_reverse n a b : edits n a b → edits n (reverse a) (reverse b).
Proof.
  induction 1 as [a|n a b c He _ IH]; [constructor|].
  eapply edits_S; [by apply edit1_reverse|done].
Qed.

Lemma lev_reverse a b : lev (reverse a) (reverse b) = lev a b.
Proof.
  apply Nat.le_antisymm.
  - apply edits_lev, edits_reverse, lev_edits.
  - rewrite <-(reverse_involutive a), <-(reverse_involutive b) at 1.
    apply edits_lev, edits_reverse, lev_edits.
Qed.

Lemma lev_le_max a b : lev a b ≤ Nat.max (length a) (length b).
Proof.
  revert b. induction a as [|x a IHa]; intros b; [simpl; lia|].
  destruct b as [|y b]; [rewrite lev_nil_r; lia|].
  rewrite lev_cons_cons. specialize (IHa b).
  pose proof (subst_cost_le x y). cbn [length]. lia.
Qed.
End EditDistance.

(** ** The dynamic-programming table *)

Section EditDistanceTable.
Context {A : Type} `{EqDecision A}.
Variables str1 str2 : list A.

Lemma table_row_0 j : j ≤ length str1 → table str1 str2 0 j = j.
Proof.
  intros Hj. unfold table.
  rewrite take_0, reverse_nil, lev_nil_r, length_reverse.
  by apply length_take_le.
Qed.

Lemma table_col_0 i : i ≤ length str2 → table str1 str2 i 0 = i.
Proof.
  intros Hi. unfold table. rewrite take_0, reverse_nil. simpl.
  rewrite length_reverse. by apply length_take_le.
Qed.

Lemma table_step i j :
  i < length str2 → j < length str1 →
  table str1 str2 (S i) (S j) =
  min3 (table str1 str2 i (S j) + 1) (table str1 str2 (S i) j + 1)
    (table str1 str2 i j + char_cost str1 str2 j i).
Proof.
  intros Hi Hj. unfold table, char_cost, min3.
  destruct (lookup_lt_is_Some_2 _ _ Hi) as [y Hy].
  destruct (lookup_lt_is_Some_2 _ _ Hj) as [x Hx].
  rewrite (take_S_r str1 j x), (take_S_r str2 i y) by done.
  rewrite !reverse_snoc, lev_cons_cons, Hx, Hy. unfold subst_cost.
  repeat case_decide; simplify_eq; lia.
Qed.

Lemma table_last : table str1 str2 (length str2) (length str1) = lev str1 str2.
Proof. unfold table. by rewrite !take_ge, lev_reverse by done. Qed.

End EditDistanceTable.

(** ** The full-matrix implementation fills the table *)

Section PlainMatrix.
Variables str1 str2 : jsstring.

Lemma matrix_set_dims m i j v :
  matrix_dims str1 str2 m → matrix_dims str1 str2 (Plain.matrix_set m i j v).
Proof.
  intros [Hrows Hcols]. unfold Plain.matrix_set. split.
  - by rewrite length_insert.
  - intros i' Hi'. destruct (decide (i = i')) as [->|Hne].
    + rewrite list_lookup_total_insert_eq by lia.
      rewrite length_insert. by apply Hcols.
    + rewrite list_lookup_total_insert_ne by done. by apply Hcols.
Qed.

Lemma matrix_get_set_eq m i j v :
  matrix_dims str1 str2 m → i ≤ length str2 → j ≤ length str1 →
  Plain.matrix_get (Plain.matrix_set m i j v) i j = v.
Proof.
  intros [Hrows Hcols] Hi Hj. unfold Plain.matrix_get, Plain.matrix_set.
  rewrite list_lookup_total_insert_eq by lia.
  apply list_lookup_total_insert_eq. rewrite Hcols by done. lia.
Qed.

Lemma matrix_get_set_ne m i j v i' j' :
  i ≠ i' ∨ j ≠ j' →
  Plain.matrix_get (Plain.matrix_set m i j v) i' j' = Plain.matrix_get m i' j'.
Proof.
  intros Hne. unfold Plain.matrix_get, Plain.matrix_set.
  destruct (decide (i = i')) as [->|Hi].
  - destruct Hne as [?|Hj]; [done|].
    destruct (decide (i' < length m)) as [Hlt|Hge].
    + rewrite list_lookup_total_insert_eq by done.
      by rewrite list_lookup_total_insert_ne.
    + by rewrite list_insert_ge by lia.
  - by rewrite list_lookup_total_insert_ne.
Qed.

Lemma matrix_dims_init :
  matrix_dims str1 str2 (replicate (length str2 + 1) (replicate (length str1 + 1) 0)).
Proof.
  split; [by rewrite length_replicate|]. intros i Hi.
  rewrite lookup_total_replicate_2 by lia. by rewrite length_replicate.
Qed.

Lemma init_loops_borders :
  borders_set str1 str2
    (fold_left (λ m j, Plain.matrix_set m j 0 j) (seq 0 (length str2 + 1))
       (fold_left (λ m i, Plain.matrix_set m 0 i i) (seq 0 (length str1 + 1))
          (replicate (length str2 + 1) (replicate (length str1 + 1) 0)))).
Proof.
  set (m0 := replicate _ _).
  assert (matrix_dims str1 str2 (fold_left (λ m i, Plain.matrix_set m 0 i i)
            (seq 0 (length str1 + 1)) m0) ∧
          ∀ j, j < 0 + (length str1 + 1) →
            Plain.matrix_get (fold_left (λ m i, Plain.matrix_set m 0 i i)
              (seq 0 (length str1 + 1)) m0) 0 j = j) as [Hd1 Hrow].
  { apply (fold_left_seq_ind
      (λ k m, matrix_dims str1 str2 m ∧ ∀ j, j < k → Plain.matrix_get m 0 j = j)).
    - split; [apply matrix_dims_init|]. lia.
    - intros k m Hk [Hd Hr]. split; [by apply matrix_set_dims|].
      intros j Hj. destruct (decide (j = k)) as [->|Hne].
      + apply matrix_get_set_eq; [done|lia|lia].
      + rewrite matrix_get_set_ne by auto. apply Hr. lia. }
  set (m1 := fold_left _ _ m0) in *.
  pose proof (fold_left_seq_ind
    (λ k m, matrix_dims str1 str2 m ∧
            (∀ j, j ≤ length str1 → Plain.matrix_get m 0 j = j) ∧
            ∀ i, i < k → Plain.matrix_get m i 0 = i)
    (λ m j, Plain.matrix_set m j 0 j) 0 (length str2 + 1) m1) as Hloop.
  simpl in Hloop. destruct Hloop as (Hd2 & Hr2 & Hc2).
  - split; [done|]. split; [|lia]. intros j Hj. apply Hrow. lia.
  - intros k m Hk (Hd & Hr & Hc). split; [by apply matrix_set_dims|]. split.
    + intros j Hj. destruct (decide (k = 0 ∧ j = 0)) as [[-> ->]|Hne].
      * apply matrix_get_set_eq; [done|lia|lia].
      * rewrite matrix_get_set_ne by lia. by apply Hr.
    + intros i Hi. destruct (decide (i = k)) as [->|Hne].
      * apply matrix_get_set_eq; [done|lia|lia].
      * rewrite matrix_get_set_ne by auto. apply Hc. lia.
  - split; [done|]. split; [done|]. intros i Hi. apply Hc2. lia.
Qed.

Lemma fill_cell_filled i j m :
  1 ≤ i ≤ length str2 → 1 ≤ j ≤ length str1 →
  filled str1 str2 i j m → filled str1 str2 i (S j) (Plain.fill_cell str1 str2 i m j).
Proof.
  intros Hi Hj (Hd & Hc & Hrows & Hrow). unfold Plain.fill_cell.
  split; [by apply matrix_set_dims|]. split; [|split].
  - intros i' Hi'. rewrite matrix_get_set_ne by lia. by apply Hc.
  - intros i' j' Hi' Hj'. rewrite matrix_get_set_ne by lia. by apply Hrows.
  - intros j' Hj' _. destruct (decide (j' = j)) as [->|Hne].
    + rewrite matrix_get_set_eq by (done || lia).
      rewrite (Hrows (i - 1) j), (Hrows (i - 1) (j - 1)), (Hrow (j - 1)) by lia.
      destruct i as [|i]; [lia|]. destruct j as [|j]; [lia|].
      replace (S i - 1) with i by lia. replace (S j - 1) with j by lia.
      symmetry. apply table_step; lia.
    + rewrite matrix_get_set_ne by auto. apply Hrow; lia.
Qed.

Lemma fill_row_filled i m :
  1 ≤ i ≤ length str2 →
  filled str1 str2 i 1 m →
  filled str1 str2 (S i) 1 (fold_left (Plain.fill_cell str1 str2 i) (seq 1 (length str1)) m).
Proof.
  intros Hi Hm.
  pose proof (fold_left_seq_ind (filled str1 str2 i) (Plain.fill_cell str1 str2 i)
                1 (length str1) m Hm) as Hloop.
  destruct Hloop as (Hd & Hc & Hrows & Hrow).
  { intros k s Hk. apply fill_cell_filled; lia. }
  split; [done|]. split; [done|]. split.
  - intros i' j' Hi' Hj'. destruct (decide (i' = i)) as [->|Hne].
    + apply Hrow; lia.
    + apply Hrows; lia.
  - intros j' Hj' Hi'. replace j' with 0 by lia.
    rewrite Hc by done. symmetry. by apply table_col_0.
Qed.

Lemma plain_levenshteinDistance_lev :
  Plain.levenshteinDistance str1 str2 = lev str1 str2.
Proof.
  unfold Plain.levenshteinDistance.
  destruct init_loops_borders as (Hd & Hr & Hc).
  set (m2 := fold_left (λ m j, Plain.matrix_set m j 0 j) _ _) in *.
  pose proof (fold_left_seq_ind (λ i m, filled str1 str2 i 1 m)
    (λ m i, fold_left (Plain.fill_cell str1 str2 i) (seq 1 (length str1)) m)
    1 (length str2) m2) as Hloop.
  destruct Hloop as (_ & _ & Hrows & _).
  - split; [done|]. split; [done|]. split.
    + intros i' j' Hi' Hj'. replace i' with 0 by lia.
      rewrite Hr by done. symmetry. by apply table_row_0.
    + intros j' Hj' Hlen. replace j' with 0 by lia.
      rewrite Hc by lia. symmetry. apply table_col_0. lia.
  - intros k m Hk. apply fill_row_filled. lia.
  - rewrite Hrows by lia. apply table_last.
Qed.

End PlainMatrix.

(** ** The two-row implementation keeps the last row of the table *)

Section TwoRows.
Variables str1 str2 : jsstring.

Lemma first_row_init :
  rows_at str1 str2 1
    (fold_left (λ row i, <[i := i]> row) (seq 0 (length str1 + 1))
       (replicate (length str1 + 1) 0),
     replicate (length str1 + 1) 0).
Proof.
  pose proof (fold_left_seq_ind
    (λ k (row : list nat), length row = length str1 + 1 ∧ ∀ j, j < k → row !!! j = j)
    (λ row i, <[i := i]> row) 0 (length str1 + 1)
    (replicate (length str1 + 1) 0)) as Hloop.
  destruct Hloop as [Hlen Hrow].
  - split; [by rewrite length_replicate|]. lia.
  - intros k row Hk [Hlen Hrow]. split; [by rewrite length_insert|].
    intros j Hj. destruct (decide (j = k)) as [->|Hne].
    + apply list_lookup_total_insert_eq. lia.
    + rewrite list_lookup_total_insert_ne by done. apply Hrow. lia.
  - unfold rows_at. simpl. split; [done|].
    split; [by rewrite length_replicate|].
    intros j Hj. rewrite Hrow by lia. symmetry. by apply table_row_0.
Qed.

Lemma fill_slot_slots i j prevRow currRow :
  1 ≤ i ≤ length str2 → 1 ≤ j ≤ length str1 →
  (∀ j', j' ≤ length str1 → prevRow !!! j' = table str1 str2 (i - 1) j') →
  slots_at str1 str2 i j currRow →
  slots_at str1 str2 i (S j) (Cached.fill_slot str1 str2 i prevRow currRow j).
Proof.
  intros Hi Hj Hprev [Hlen Hcur]. unfold Cached.fill_slot.
  split; [by rewrite length_insert|].
  intros j' Hj'. destruct (decide (j' = j)) as [->|Hne].
  - rewrite list_lookup_total_insert_eq by lia.
    rewrite !Hprev, Hcur by lia.
    destruct i as [|i]; [lia|]. destruct j as [|j]; [lia|].
    replace (S i - 1) with i by lia. replace (S j - 1) with j by lia.
    symmetry. apply table_step; lia.
  - rewrite list_lookup_total_insert_ne by done. apply Hcur. lia.
Qed.

Lemma fill_row_rows i rows :
  1 ≤ i ≤ length str2 →
  rows_at str1 str2 i rows → rows_at str1 str2 (S i) (Cached.fill_row str1 str2 rows i).
Proof.
  intros Hi (Hl1 & Hl2 & Hprev). unfold Cached.fill_row.
  pose proof (fold_left_seq_ind (slots_at str1 str2 i)
    (Cached.fill_slot str1 str2 i rows.1) 1 (length str1)
    (<[0 := i]> rows.2)) as Hloop.
  destruct Hloop as [Hlen Hcur].
  - split; [by rewrite length_insert|]. intros j' Hj'.
    replace j' with 0 by lia. rewrite list_lookup_total_insert_eq by lia.
    symmetry. apply table_col_0. lia.
  - intros k s Hk. apply fill_slot_slots; [lia|lia|done].
  - unfold rows_at. simpl. split; [done|]. split; [done|]. intros j Hj.
    replace (i - 0) with i by lia. apply Hcur. lia.
Qed.

Lemma two_rows_lev : Cached.two_rows str1 str2 = lev str1 str2.
Proof.
  unfold Cached.two_rows.
  pose proof (fold_left_seq_ind (rows_at str1 str2) (Cached.fill_row str1 str2)
    1 (length str2) _ first_row_init) as Hloop.
  destruct Hloop as (_ & _ & Hprev).
  { intros k s Hk. apply fill_row_rows. lia. }
  rewrite Hprev by lia.
  replace (1 + length str2 - 1) with (length str2) by lia. apply table_last.
Qed.

End TwoRows.

Lemma cached_levenshteinDistance_lev (str1 str2 : jsstring) :
  Cached.levenshteinDistance str1 str2 = lev str1 str2.
Proof.
  unfold Cached.levenshteinDistance. case_match.
  - rewrite two_rows_lev. apply lev_sym.
  - apply two_rows_lev.
Qed.

(** C5. Both implementations of [levenshteinDistance] return the minimum
    number of single-character insertions, deletions and substitutions that
    transform [a] into [b] (a natural number); against an empty string the
    distance is the length of the other string. *)
Theorem levenshteinDistance_minimum_edits (a b : jsstring) :
  min_edits a b (Plain.levenshteinDistance a b) ∧
  min_edits a b (Cached.levenshteinDistance a b) ∧
  Plain.levenshteinDistance [] b = length b ∧
  Plain.levenshteinDistance a [] = length a ∧
  Cached.levenshteinDistance [] b = length b ∧
  Cached.levenshteinDistance a [] = length a.
Proof.
  rewrite !plain_levenshteinDistance_lev, !cached_levenshteinDistance_lev.
  rewrite !lev_nil_r. repeat split; try apply lev_min_edits; done.
Qed.

(** ** Strings *)

Lemma indexOf_ge t q : (-1 ≤ indexOf t q)%Z.
Proof.
  induction t as [|c t IH]; cbn [indexOf]; repeat case_match; lia.
Qed.

Lemma indexOf_0_startsWith t q : indexOf t q = 0%Z → startsWith t q = true.
Proof.
  pose proof (indexOf_ge (tail t) q) as Hge.
  destruct t as [|c t]; cbn [indexOf tail] in *; repeat case_match; try done; lia.
Qed.

Lemma includes_indexOf t q : includes t q = negb (indexOf t q =? -1)%Z.
Proof.
  induction t as [|c t IH]; cbn [includes indexOf].
  - by destruct (startsWith [] q).
  - destruct (startsWith (c :: t) q); [done|]. cbn [orb]. rewrite IH.
    pose proof (indexOf_ge t q). repeat case_match; lia.
Qed.

(** [indexOf] returns the first place at which the query occurs. *)
Lemma indexOf_first t q (p : nat) :
  indexOf t q = Z.of_nat p →
  startsWith (drop p t) q = true ∧ ∀ k, k < p → startsWith (drop k t) q = false.
Proof.
  revert p. induction t as [|c t IH]; intros p; cbn [indexOf].
  - destruct (startsWith [] q) eqn:Hs; [|lia]. intros Hp.
    assert (p = 0) as -> by lia. split; [done|lia].
  - destruct (startsWith (c :: t) q) eqn:Hs.
    + intros Hp. assert (p = 0) as -> by lia. split; [done|lia].
    + case_match; [lia|]. intros Hp. destruct p as [|p]; [lia|].
      destruct (IH p) as [Hocc Hmin]; [lia|]. split; [done|].
      intros [|k] Hk; [done|]. apply Hmin. lia.
Qed.

(** ** The words of a text *)

Lemma fold_left_long_words {B} (f : B → jsstring → B) (l : list jsstring) (b : B) :
  fold_left (λ acc word, if 3 <=? length word then f acc word else acc) l b =
  fold_left f (filter (λ word, 3 ≤ length word) l) b.
Proof.
  revert b. induction l as [|w l IH]; intros b; [done|]. cbn [fold_left].
  rewrite filter_cons. destruct (Nat.leb_spec 3 (length w)).
  - rewrite decide_True by done. apply IH.
  - rewrite decide_False by lia. apply IH.
Qed.

Lemma split_ws_aux_long_words in_ws cur s :
  (in_ws = true → cur = []) →
  filter (λ word, 3 ≤ length word) (split_ws_aux in_ws cur s) =
  filter (λ word, 3 ≤ length word) (words_aux cur s).
Proof.
  revert in_ws cur. induction s as [|c s IH]; intros in_ws cur Hcur; simpl.
  - destruct cur; [|done]. rewrite filter_cons, decide_False; [done|].
    rewrite reverse_nil. cbn [length]. lia.
  - destruct (is_white_space c).
    + destruct in_ws.
      * rewrite Hcur by done. by apply IH.
      * destruct cur as [|d cur].
        -- rewrite filter_cons, decide_False; [by apply IH|].
           rewrite reverse_nil. cbn [length]. lia.
        -- rewrite !filter_cons. by rewrite IH.
    + by apply IH.
Qed.

Lemma split_ws_long_words s :
  filter (λ word, 3 ≤ length word) (split_ws s) = long_words s.
Proof. by apply split_ws_aux_long_words. Qed.

(** ** The two matchers compute the classification of the specification *)

Lemma fuzzy_word_ext (d1 d2 : jsstring → jsstring → nat) text sq w opts best word :
  d1 word sq = d2 word sq →
  fuzzy_word d1 text sq w opts best word = fuzzy_word d2 text sq w opts best word.
Proof. intros Hd. unfold fuzzy_word. by rewrite Hd. Qed.

Lemma fold_fuzzy_word_ext (d1 d2 : jsstring → jsstring → nat) text sq w opts l best :
  (∀ a b, d1 a b = d2 a b) →
  fold_left (fuzzy_word d1 text sq w opts) l best =
  fold_left (fuzzy_word d2 text sq w opts) l best.
Proof.
  intros Hd. revert best. induction l as [|word l IH]; intros best; [done|].
  cbn [fold_left]. rewrite IH. f_equal. by apply fuzzy_word_ext.
Qed.

Lemma words_aux_ws cur c s :
  is_white_space c = true →
  words_aux (reverse cur) (c :: s) =
  match cur with [] => [] | _ => [cur] end ++ words_aux [] s.
Proof.
  intros Hc. cbn [words_aux]. rewrite Hc.
  destruct cur as [|x cur]; [done|].
  destruct (reverse (x :: cur)) as [|y l] eqn:Hr.
  - apply (f_equal length) in Hr. rewrite length_reverse in Hr. done.
  - by rewrite <-Hr, reverse_involutive.
Qed.

Lemma words_aux_end cur :
  words_aux (reverse cur) [] = match cur with [] => [] | _ => [cur] end.
Proof.
  cbn [words_aux]. destruct cur as [|x cur]; [done|].
  destruct (reverse (x :: cur)) as [|y l] eqn:Hr.
  - apply (f_equal length) in Hr. rewrite length_reverse in Hr. done.
  - by rewrite <-Hr, reverse_involutive.
Qed.

Lemma fold_left_word_if {B} (f : B → jsstring → B) (cur : jsstring)
    (l : list jsstring) (b : B) :
  fold_left f
    (filter (λ word, 3 ≤ length word)
       (match cur with [] => [] | _ => [cur] end ++ l))
    (b : B) =
  fold_left f (filter (λ word, 3 ≤ length word) l)
    (if 3 <=? length cur then f b cur else b).
Proof.
  destruct (Nat.leb_spec 3 (length cur)) as [Hle|Hlt].
  - destruct cur as [|x cur]; [simpl in Hle; lia|].
    cbn [app]. by rewrite filter_cons, decide_True by done.
  - destruct cur as [|x cur]; [done|].
    cbn [app]. by rewrite filter_cons, decide_False by lia.
Qed.

Section Matcher.
Variable toLowerCase : jsstring → jsstring.

(** The word-splitting loop of the cached matcher, from index [length pre]
    on, visits the words of the text that are at least 3 units long. *)
Lemma fuzzy_scan_words text sq w opts pre suf best wordStart :
  wordStart ≤ length pre →
  (fold_left (Cached.fuzzy_scan text (pre ++ suf) sq w opts)
     (seq (length pre) (length suf + 1)) (best, wordStart)).1 =
  fold_left (fuzzy_word Cached.levenshteinDistance text sq w opts)
    (filter (λ word, 3 ≤ length word)
       (words_aux (reverse (drop wordStart pre)) suf))
    best.
Proof.
  revert pre best wordStart.
  induction suf as [|c suf IH]; intros pre best wordStart Hws.
  - cbn [length Nat.add seq fold_left]. unfold Cached.fuzzy_scan.
    rewrite app_nil_r, Nat.eqb_refl. cbn [orb fst snd].
    rewrite words_aux_end.
    rewrite <-(app_nil_r (match drop wordStart pre with [] => [] | _ => _ end)).
    rewrite fold_left_word_if. cbn [filter fold_left].
    unfold slice. by rewrite take_ge, length_drop by done.
  - cbn [length Nat.add seq fold_left]. unfold Cached.fuzzy_scan at 2.
    rewrite list_lookup_middle by done.
    replace (length pre =? length (pre ++ c :: suf)) with false
      by (symmetry; apply Nat.eqb_neq; rewrite length_app; simpl; lia).
    cbn [orb fst snd].
    replace (pre ++ c :: suf) with ((pre ++ [c]) ++ suf)
      by (by rewrite <-(assoc_L (++))).
    replace (S (length pre)) with (length (pre ++ [c]))
      by (rewrite length_app; simpl; lia).
    destruct (is_white_space c) eqn:Hc.
    + replace (length pre + 1) with (length (pre ++ [c]))
        by (rewrite length_app; simpl; lia).
      rewrite IH by done. rewrite drop_all, reverse_nil.
      rewrite words_aux_ws by done. rewrite fold_left_word_if.
      unfold slice. rewrite <-(assoc_L (++)), take_app_length.
      by rewrite length_drop.
    + rewrite IH by (rewrite length_app; lia).
      rewrite drop_app_le by done. rewrite reverse_snoc.
      cbn [words_aux]. by rewrite Hc.
Qed.

Lemma cached_fuzzy_best text searchText sq w opts :
  (fold_left (Cached.fuzzy_scan text searchText sq w opts)
     (seq 0 (length searchText + 1)) (None, 0)).1 =
  best_fuzzy text searchText sq w opts.
Proof.
  pose proof (fuzzy_scan_words text sq w opts [] searchText None 0) as H.
  simpl in H. rewrite H by lia. unfold best_fuzzy, long_words, words.
  apply fold_fuzzy_word_ext, cached_levenshteinDistance_lev.
Qed.

Lemma plain_fuzzy_best text searchText sq w opts :
  fold_left
    (λ bestMatch word,
       if 3 <=? length word then
         fuzzy_word Plain.levenshteinDistance text sq w opts bestMatch word
       else bestMatch)
    (split_ws searchText) None =
  best_fuzzy text searchText sq w opts.
Proof.
  rewrite (fold_left_long_words
    (fuzzy_word Plain.levenshteinDistance text sq w opts)).
  rewrite split_ws_long_words. unfold best_fuzzy.
  apply fold_fuzzy_word_ext, plain_levenshteinDistance_lev.
Qed.

(** The plain matcher is the classification of the normalized strings. *)
Lemma plain_calculateFieldScore_field_match text query w opts :
  Plain.calculateFieldScore toLowerCase text query w opts =
  if str_falsy text || str_falsy query then None
  else field_match text
         (Plain.normalize toLowerCase (o_caseSensitive opts) text)
         (Plain.normalize toLowerCase (o_caseSensitive opts) query) w opts.
Proof.
  unfold Plain.calculateFieldScore, field_match.
  destruct (str_falsy text || str_falsy query); [done|].
  rewrite includes_indexOf, plain_fuzzy_best.
  set (p := indexOf _ _). pose proof (indexOf_ge
    (Plain.normalize toLowerCase (o_caseSensitive opts) text)
    (Plain.normalize toLowerCase (o_caseSensitive opts) query)) as Hp.
  fold p in Hp.
  replace (negb (p =? -1)%Z) with (0 <=? p)%Z; [done|].
  destruct (Z.leb_spec 0 p), (Z.eqb_spec p (-1)); simpl; lia.
Qed.

(** *** The string cache *)

Lemma string_cache_ok_nil : string_cache_ok toLowerCase [].
Proof. constructor. Qed.

Lemma cache_get_ok cache s v :
  string_cache_ok toLowerCase cache →
  Cached.cache_get cache (js "lc:" ++ s) = Some v → v = toLowerCase s.
Proof.
  unfold string_cache_ok, Cached.cache_get. intros Hok Hget.
  destruct (find _ cache) as [kv|] eqn:Hfind; [|done].
  simpl in Hget. injection Hget as <-.
  apply find_some in Hfind as [Hin Hkey].
  apply bool_decide_eq_true in Hkey.
  rewrite Forall_forall in Hok.
  destruct (Hok kv) as (s' & Hk & Hv); [by apply list_elem_of_In|].
  rewrite Hk in Hkey. apply app_inv_head in Hkey. by subst s'.
Qed.

Lemma evict_oldest_ok n cache :
  string_cache_ok toLowerCase cache →
  string_cache_ok toLowerCase (Cached.evict_oldest n cache).
Proof.
  unfold string_cache_ok, Cached.evict_oldest. rewrite !Forall_forall.
  intros Hok kv Hkv. apply list_elem_of_filter in Hkv as [_ Hkv]. by apply Hok.
Qed.

Lemma getProcessedString_normalize str cs cache :
  string_cache_ok toLowerCase cache →
  (Cached.getProcessedString toLowerCase str cs cache).1 =
    Plain.normalize toLowerCase cs str ∧
  string_cache_ok toLowerCase
    (Cached.getProcessedString toLowerCase str cs cache).2.
Proof.
  intros Hok. unfold Cached.getProcessedString, Plain.normalize.
  destruct cs; [done|].
  destruct (Cached.cache_get cache (js "lc:" ++ str)) as [v|] eqn:Hget.
  - split; [|done]. simpl. by eapply cache_get_ok.
  - split; [done|]. cbn [snd]. apply Forall_app. split.
    + case_match; [by apply evict_oldest_ok|done].
    + constructor; [|constructor]. by exists str.
Qed.

(** On a well-formed string cache the cached matcher returns what the plain
    matcher returns, and leaves the cache well-formed. *)
Lemma cached_calculateFieldScore_plain text query w opts cache :
  string_cache_ok toLowerCase cache →
  (Cached.calculateFieldScore toLowerCase text query w opts cache).1 =
    Plain.calculateFieldScore toLowerCase text query w opts ∧
  string_cache_ok toLowerCase
    (Cached.calculateFieldScore toLowerCase text query w opts cache).2.
Proof.
  intros Hok. rewrite plain_calculateFieldScore_field_match.
  unfold Cached.calculateFieldScore, field_match.
  destruct (str_falsy text || str_falsy query); [done|].
  destruct (getProcessedString_normalize text (o_caseSensitive opts) cache Hok)
    as [Ht Hok1].
  destruct (getProcessedString_normalize query (o_caseSensitive opts) _ Hok1)
    as [Hq Hok2].
  cbn [fst snd]. split; [|done]. rewrite Ht, Hq, cached_fuzzy_best.
  set (p := indexOf _ _). pose proof (indexOf_ge
    (Plain.normalize toLowerCase (o_caseSensitive opts) text)
    (Plain.normalize toLowerCase (o_caseSensitive opts) query)) as Hp.
  fold p in Hp.
  replace (negb (p =? -1)%Z) with (0 <=? p)%Z; [done|].
  destruct (Z.leb_spec 0 p), (Z.eqb_spec p (-1)); simpl; lia.
Qed.

End Matcher.

(** ** The string cache stays well-formed *)

Section ReachableStates.
Variable toLowerCase : jsstring → jsstring.

Lemma score_field_cache_ok fieldWeights fieldStats searchQuery searchOptions
    item acc field :
  string_cache_ok toLowerCase acc.2 →
  string_cache_ok toLowerCase
    (Cached.score_field toLowerCase fieldWeights fieldStats searchQuery
       searchOptions item acc field).2.
Proof.
  intros Hok. unfold Cached.score_field.
  destruct acc.1 as [[matches totalScore]|e]; [|done].
  destruct (negb (truthy (getNestedValue item field))); [done|].
  destruct (getNestedValue item field) as [| | | |text| | |]; try done.
  destruct (cached_calculateFieldScore_plain toLowerCase text searchQuery
    (field_weight fieldWeights fieldStats field) searchOptions acc.2 Hok)
    as [_ Hok'].
  by destruct (Cached.calculateFieldScore _ _ _ _ _ _).1.
Qed.

Lemma score_fields_cache_ok fieldWeights fieldStats searchQuery searchOptions
    item searchFields acc :
  string_cache_ok toLowerCase acc.2 →
  string_cache_ok toLowerCase
    (fold_left
       (Cached.score_field toLowerCase fieldWeights fieldStats searchQuery
          searchOptions item) searchFields acc).2.
Proof.
  revert acc. induction searchFields as [|field searchFields IH];
    intros acc Hok; [done|].
  cbn [fold_left]. by apply IH, score_field_cache_ok.
Qed.

Lemma collect_cache_ok fieldWeights fieldStats searchFields searchQuery
    searchOptions maxResults items results cache :
  string_cache_ok toLowerCase cache →
  string_cache_ok toLowerCase
    (Cached.collect toLowerCase fieldWeights fieldStats searchFields
       searchQuery searchOptions maxResults items results cache).2.
Proof.
  revert results cache. induction items as [|item items IH];
    intros results cache Hok; cbn [Cached.collect]; [done|].
  destruct (negb (truthy item)); [by apply IH|].
  pose proof (score_fields_cache_ok fieldWeights fieldStats searchQuery
    searchOptions item searchFields (Ok ([], 0%Q), cache) Hok) as Hok'.
  destruct (fold_left _ searchFields _) as [[[matches totalScore]|e] cache'];
    cbn [fst snd] in *; [|done].
  case_match; [done|by apply IH].
Qed.

Lemma count_call_cache_ok st :
  string_cache_ok toLowerCase (Cached.stringProcessingCache st) →
  string_cache_ok toLowerCase
    (Cached.stringProcessingCache (Cached.count_call st)).
Proof.
  intros Hok. unfold Cached.count_call. cbn [Cached.stringProcessingCache].
  case_match; [by apply evict_oldest_ok|done].
Qed.

Lemma search_cache_ok data_addr data query options st :
  string_cache_ok toLowerCase (Cached.stringProcessingCache st) →
  string_cache_ok toLowerCase
    (Cached.stringProcessingCache
       (Cached.search toLowerCase data_addr data query options st).2).
Proof.
  intros Hok. apply count_call_cache_ok in Hok. unfold Cached.search.
  destruct (str_falsy (trim query)); [done|].
  cbn [snd Cached.stringProcessingCache]. by apply collect_cache_ok.
Qed.

(** In every state the module can reach, the string cache maps the key of a
    string to its lower-casing: the matcher theorems apply there. *)
Lemma reachable_string_cache_ok st :
  Cached.reachable toLowerCase st →
  string_cache_ok toLowerCase (Cached.stringProcessingCache st).
Proof.
  induction 1 as [|st data_addr data query options _ IH|st _ IH].
  - constructor.
  - by apply search_cache_ok.
  - constructor.
Qed.

End ReachableStates.

(** ** The fuzzy tier keeps the best qualifying word *)

Section BestFuzzy.
Variables (text sq : jsstring) (w : Q) (opts : ScoreOptions).

Lemma similarity_range (word : jsstring) :
  3 ≤ length word → (0 <= similarity word sq <= 1)%Q.
Proof.
  intros Hlen. unfold similarity, similarity_of, num.
  pose proof (lev_le_max word sq) as Hlev.
  set (M := Nat.max (length word) (length sq)) in *.
  assert (0 < M) as HM by lia.
  assert (0 < inject_Z (Z.of_nat M))%Q as HMq.
  { rewrite <-(Zlt_Qlt 0). lia. }
  split.
  - apply Qle_shift_div_l; [done|]. rewrite Qmult_0_l.
    rewrite <-(Zle_Qle 0). lia.
  - apply Qle_shift_div_r; [done|]. rewrite Qmult_1_l.
    rewrite <-Zle_Qle. lia.
Qed.

Lemma similarity_min_edits (word : jsstring) (d : nat) :
  min_edits word sq d →
  similarity word sq =
  (inject_Z (Z.of_nat (Nat.max (length word) (length sq)) - Z.of_nat d) /
   num (Nat.max (length word) (length sq)))%Q.
Proof.
  intros Hd. unfold similarity, similarity_of.
  by rewrite (min_edits_unique _ _ _ _ (lev_min_edits word sq) Hd).
Qed.

Lemma fuzzy_word_best_after seen best word :
  best_after text sq w opts seen best →
  best_after text sq w opts (seen ++ [word]) (fuzzy_word lev text sq w opts best word).
Proof.
  intros Hbest. unfold fuzzy_word. fold (similarity word sq).
  destruct (Qle_bool (o_fuzzyThreshold opts) (similarity word sq)) eqn:Hq.
  - destruct best as [m|]; simpl in Hbest.
    + destruct Hbest as (w0 & Hin & Hq0 & -> & Hmax). cbn [m_score fuzzy_match].
      unfold Qgt_bool.
      destruct (Qle_bool (fuzzy_score text w (similarity word sq))
                  (fuzzy_score text w (similarity w0 sq))) eqn:Hcmp; cbn [negb].
      * apply Qle_bool_iff in Hcmp. exists w0.
        split; [set_solver|]. split; [done|]. split; [done|].
        intros word' [Hin'| ->%list_elem_of_singleton]%elem_of_app Hq'; auto.
      * assert (fuzzy_score text w (similarity w0 sq) <
                fuzzy_score text w (similarity word sq))%Q as Hlt.
        { apply Qnot_le_lt. intros Hle. apply Qle_bool_iff in Hle. congruence. }
        exists word. split; [set_solver|]. split; [done|]. split; [done|].
        intros word' [Hin'| ->%list_elem_of_singleton]%elem_of_app Hq'.
        -- eapply Qle_trans; [by apply Hmax|]. by apply Qlt_le_weak.
        -- apply Qle_refl.
    + exists word. split; [set_solver|]. split; [done|]. split; [done|].
      intros word' [Hin'| ->%list_elem_of_singleton]%elem_of_app Hq'.
      * rewrite Hbest in Hq' by done. done.
      * apply Qle_refl.
  - destruct best as [m|]; simpl in *.
    + destruct Hbest as (w0 & Hin & Hq0 & -> & Hmax). exists w0.
      split; [set_solver|]. split; [done|]. split; [done|].
      intros word' [Hin'| ->%list_elem_of_singleton]%elem_of_app Hq'; [auto|].
      congruence.
    + intros word' [Hin'| ->%list_elem_of_singleton]%elem_of_app; auto.
Qed.

Lemma fold_fuzzy_word_best_after l seen best :
  best_after text sq w opts seen best →
  best_after text sq w opts (seen ++ l) (fold_left (fuzzy_word lev text sq w opts) l best).
Proof.
  revert seen best. induction l as [|word l IH]; intros seen best Hbest.
  - by rewrite app_nil_r.
  - cbn [fold_left]. rewrite cons_middle, (assoc_L (++) seen [word] l).
    apply IH. by apply fuzzy_word_best_after.
Qed.

Lemma best_fuzzy_best_after searchText :
  best_after text sq w opts (long_words searchText) (best_fuzzy text searchText sq w opts).
Proof.
  apply (fold_fuzzy_word_best_after (long_words searchText) [] None).
  intros word Hin. set_solver.
Qed.

Lemma best_fuzzy_kind searchText m :
  best_fuzzy text searchText sq w opts = Some m →
  m_type m = Fuzzy ∧ m_position m = None.
Proof.
  intros Hm. pose proof (best_fuzzy_best_after searchText) as Hbest.
  rewrite Hm in Hbest. by destruct Hbest as (w0 & _ & _ & -> & _).
Qed.

End BestFuzzy.

(** ** The classification of a field *)

Section Classification.
Variable toLowerCase : jsstring → jsstring.

(** What either matcher returns is the classification of the specification. *)
Lemma either_matcher_field_match text query w opts cache m :
  string_cache_ok toLowerCase cache →
  Plain.calculateFieldScore toLowerCase text query w opts = Some m ∨
  (Cached.calculateFieldScore toLowerCase text query w opts cache).1
    = Some m →
  field_match text
    (Plain.normalize toLowerCase (o_caseSensitive opts) text)
    (Plain.normalize toLowerCase (o_caseSensitive opts) query) w opts = Some m.
Proof.
  intros Hok Hm.
  destruct (cached_calculateFieldScore_plain toLowerCase text query w opts cache Hok)
    as [Heq _].
  rewrite Heq in Hm. assert (Plain.calculateFieldScore toLowerCase text query w opts
    = Some m) as Hp by (by destruct Hm).
  rewrite plain_calculateFieldScore_field_match in Hp.
  by destruct (str_falsy text || str_falsy query).
Qed.

(** C8. For a non-empty text and a non-empty query, when the normalized text
    starts with the normalized query, the match of the field is the prefix
    match: kind exact-start, score [weight * 20], position 0. The result is
    one optional match, so no substring or fuzzy match comes with it. *)
Theorem prefix_match_first (text query : jsstring) (w : Q) (opts : ScoreOptions)
    (cache : list (jsstring * jsstring)) :
  text ≠ [] → query ≠ [] →
  string_cache_ok toLowerCase cache →
  startsWith (Plain.normalize toLowerCase (o_caseSensitive opts) text)
    (Plain.normalize toLowerCase (o_caseSensitive opts) query) = true →
  Plain.calculateFieldScore toLowerCase text query w opts =
    Some {| m_field := []; m_value := text; m_score := (w * 20)%Q;
            m_type := ExactStart; m_position := Some 0%Z |} ∧
  (Cached.calculateFieldScore toLowerCase text query w opts cache).1 =
    Some {| m_field := []; m_value := text; m_score := (w * 20)%Q;
            m_type := ExactStart; m_position := Some 0%Z |}.
Proof.
  intros Ht Hq Hok Hstart.
  destruct (cached_calculateFieldScore_plain toLowerCase text query w opts cache Hok)
    as [-> _].
  rewrite plain_calculateFieldScore_field_match. unfold field_match.
  destruct text; [done|]. destruct query; [done|]. simpl str_falsy. cbn [orb].
  by rewrite Hstart.
Qed.

(** C7. A substring (exact-contain) match of either matcher sits at the
    first occurrence of the normalized query in the normalized text and
    scores [max(weight * (10 + max(1, 100 / len(text)) - position * 0.1),
    weight)], which is at least the weight. *)
Theorem substring_match_score (text query : jsstring) (w : Q)
    (opts : ScoreOptions) (cache : list (jsstring * jsstring))
    (m : SearchMatch) :
  string_cache_ok toLowerCase cache →
  Plain.calculateFieldScore toLowerCase text query w opts = Some m ∨
  (Cached.calculateFieldScore toLowerCase text query w opts cache).1
    = Some m →
  m_type m = ExactContain →
  ∃ position : nat,
    m_position m = Some (Z.of_nat position) ∧
    startsWith
      (drop position (Plain.normalize toLowerCase (o_caseSensitive opts) text))
      (Plain.normalize toLowerCase (o_caseSensitive opts) query) = true ∧
    (∀ k, k < position →
       startsWith
         (drop k (Plain.normalize toLowerCase (o_caseSensitive opts) text))
         (Plain.normalize toLowerCase (o_caseSensitive opts) query) = false) ∧
    m_score m =
      Qmax (w * (10 + Qmax 1 (100 / num (length text))
                 - inject_Z (Z.of_nat position) * 0.1)) w ∧
    (w <= m_score m)%Q.
Proof.
  intros Hok Hm Hkind.
  pose proof (either_matcher_field_match _ _ _ _ _ _ Hok Hm) as Hfm.
  unfold field_match in Hfm.
  destruct (startsWith _ _); [by simplify_eq|].
  destruct (Z.leb_spec 0 (indexOf
    (Plain.normalize toLowerCase (o_caseSensitive opts) text)
    (Plain.normalize toLowerCase (o_caseSensitive opts) query))) as [Hp|Hp].
  - injection Hfm as <-.
    set (p := indexOf _ _) in *. exists (Z.to_nat p).
    destruct (indexOf_first
      (Plain.normalize toLowerCase (o_caseSensitive opts) text)
      (Plain.normalize toLowerCase (o_caseSensitive opts) query) (Z.to_nat p))
      as [Hocc Hmin]; [fold p; lia|].
    rewrite Z2Nat.id by done. cbn [exact_contain_match m_position m_score].
    split; [done|]. split; [done|]. split; [done|]. split; [done|].
    apply Q.le_max_r.
  - destruct (Qle_bool _ _); [|done].
    apply best_fuzzy_kind in Hfm as [Hf _]. congruence.
Qed.

(** C10. A match of either matcher has position 0 exactly when it is a
    prefix match, a position of at least 1 exactly when it is a substring
    match, and no position exactly when it is a fuzzy match. *)
Theorem position_tells_kind (text query : jsstring) (w : Q)
    (opts : ScoreOptions) (cache : list (jsstring * jsstring))
    (m : SearchMatch) :
  string_cache_ok toLowerCase cache →
  Plain.calculateFieldScore toLowerCase text query w opts = Some m ∨
  (Cached.calculateFieldScore toLowerCase text query w opts cache).1
    = Some m →
  (m_type m = ExactStart ↔ m_position m = Some 0%Z) ∧
  (m_type m = ExactContain ↔ ∃ p, m_position m = Some p ∧ (1 ≤ p)%Z) ∧
  (m_type m = Fuzzy ↔ m_position m = None).
Proof.
  intros Hok Hm.
  pose proof (either_matcher_field_match _ _ _ _ _ _ Hok Hm) as Hfm.
  unfold field_match in Hfm.
  destruct (startsWith _ _) eqn:Hstart.
  { injection Hfm as <-. cbn [exact_start_match m_type m_position].
    split; [done|]. split; [|done]. split; [done|].
    intros (p & Hp & Hp1). simplify_eq. lia. }
  destruct (Z.leb_spec 0 (indexOf
    (Plain.normalize toLowerCase (o_caseSensitive opts) text)
    (Plain.normalize toLowerCase (o_caseSensitive opts) query))) as [Hp|Hp].
  - injection Hfm as <-. cbn [exact_contain_match m_type m_position].
    set (p := indexOf _ _) in *.
    assert (p ≠ 0%Z) as Hp0.
    { intros Hp0. apply indexOf_0_startsWith in Hp0. congruence. }
    split; [split; intros; simplify_eq|].
    split; [|done]. split; [|done]. intros _. exists p. split; [done|lia].
  - destruct (Qle_bool _ _); [|done].
    apply best_fuzzy_kind in Hfm as [Hf Hpos]. rewrite Hf, Hpos.
    split; [done|]. split; [|done]. split; [done|].
    by intros (p & Hp' & _).
Qed.

(** C6. A fuzzy match of either matcher is produced only when the normalized
    query is at least [minFuzzyLength] long and some white-space delimited
    word of the normalized text, of length at least 3, has a similarity
    [(maxLen - distance) / maxLen] that reaches [fuzzyThreshold]; the
    similarity of such a word lies in [0, 1]; the score of the match is
    [weight * similarity * (2 + max(1, 50 / len(text)))] for a best-scoring
    qualifying word. *)
Theorem fuzzy_match_best_word (text query : jsstring) (w : Q)
    (opts : ScoreOptions) (cache : list (jsstring * jsstring))
    (m : SearchMatch) :
  string_cache_ok toLowerCase cache →
  Plain.calculateFieldScore toLowerCase text query w opts = Some m ∨
  (Cached.calculateFieldScore toLowerCase text query w opts cache).1
    = Some m →
  m_type m = Fuzzy →
  let searchText := Plain.normalize toLowerCase (o_caseSensitive opts) text in
  let searchQuery := Plain.normalize toLowerCase (o_caseSensitive opts) query in
  (o_minFuzzyLength opts <= num (length searchQuery))%Q ∧
  (∀ word d, min_edits word searchQuery d →
     similarity word searchQuery =
     (inject_Z (Z.of_nat (Nat.max (length word) (length searchQuery))
                - Z.of_nat d) /
      num (Nat.max (length word) (length searchQuery)))%Q) ∧
  (∀ word,
     3 ≤ length word → (0 <= similarity word searchQuery <= 1)%Q) ∧
  ∃ word,
    word ∈ words searchText ∧ 3 ≤ length word ∧
    (o_fuzzyThreshold opts <= similarity word searchQuery)%Q ∧
    m_score m =
      (w * similarity word searchQuery
       * (2 + Qmax 1 (50 / num (length text))))%Q ∧
    ∀ word',
      word' ∈ words searchText → 3 ≤ length word' →
      (o_fuzzyThreshold opts <= similarity word' searchQuery)%Q →
      (w * similarity word' searchQuery
       * (2 + Qmax 1 (50 / num (length text))) <= m_score m)%Q.
Proof.
  intros Hok Hm Hkind searchText searchQuery.
  pose proof (either_matcher_field_match _ _ _ _ _ _ Hok Hm) as Hfm.
  unfold field_match in Hfm. fold searchText searchQuery in Hfm.
  destruct (startsWith _ _); [by simplify_eq|].
  destruct (0 <=? indexOf searchText searchQuery)%Z; [by simplify_eq|].
  destruct (Qle_bool (o_minFuzzyLength opts) (num (length searchQuery)))
    eqn:Hmin; [|done].
  split; [by apply Qle_bool_iff|].
  split; [intros word d; apply similarity_min_edits|].
  split; [intros word; apply similarity_range|].
  pose proof (best_fuzzy_best_after text searchQuery w opts searchText) as Hbest.
  rewrite Hfm in Hbest. destruct Hbest as (word & Hin & Hq & -> & Hmax).
  apply list_elem_of_filter in Hin as [Hlen Hin].
  exists word. split; [done|]. split; [done|].
  split; [by apply Qle_bool_iff|]. split; [done|].
  intros word' Hin' Hlen' Hq'. apply Hmax.
  - by apply list_elem_of_filter.
  - by apply Qle_bool_iff.
Qed.

End Classification.

(** *** The classification on the scenarios of the specification *)

Lemma prefix_match_first_witness :
  js "Development Team" ≠ [] ∧ js "develop" ≠ [] ∧
  string_cache_ok ascii_lower [] ∧
  startsWith (Plain.normalize ascii_lower false (js "Development Team"))
    (Plain.normalize ascii_lower false (js "develop")) = true ∧
  Plain.calculateFieldScore ascii_lower (js "Development Team") (js "develop")
    10 default_score_options =
    Some {| m_field := []; m_value := js "Development Team";
            m_score := (10 * 20)%Q; m_type := ExactStart;
            m_position := Some 0%Z |} ∧
  (Cached.calculateFieldScore ascii_lower (js "Development Team")
     (js "develop") 10 default_score_options []).1 =
    Some {| m_field := []; m_value := js "Development Team";
            m_score := (10 * 20)%Q; m_type := ExactStart;
            m_position := Some 0%Z |}.
Proof.
  split; [done|]. split; [done|]. split; [constructor|].
  split; [reflexivity|].
  apply (prefix_match_first ascii_lower (js "Development Team") (js "develop")
           10 default_score_options []);
    [done|done|constructor|reflexivity].
Defined.

Lemma substring_match_score_witness :
  ∃ position : nat,
    m_position (exact_contain_match (js "Bob Johnson") 10 4)
      = Some (Z.of_nat position) ∧
    startsWith (drop position (Plain.normalize ascii_lower false (js "Bob Johnson")))
      (Plain.normalize ascii_lower false (js "john")) = true ∧
    (∀ k, k < position →
       startsWith (drop k (Plain.normalize ascii_lower false (js "Bob Johnson")))
         (Plain.normalize ascii_lower false (js "john")) = false) ∧
    m_score (exact_contain_match (js "Bob Johnson") 10 4) =
      Qmax (10 * (10 + Qmax 1 (100 / num (length (js "Bob Johnson")))
                  - inject_Z (Z.of_nat position) * 0.1)) 10 ∧
    (10 <= m_score (exact_contain_match (js "Bob Johnson") 10 4))%Q.
Proof.
  apply (substring_match_score ascii_lower (js "Bob Johnson") (js "john") 10
           default_score_options []
           (exact_contain_match (js "Bob Johnson") 10 4));
    [constructor|left; vm_compute; reflexivity|reflexivity].
Defined.

Lemma position_tells_kind_witness :
  (m_type (exact_contain_match (js "Bob Johnson") 10 4) = ExactStart ↔
   m_position (exact_contain_match (js "Bob Johnson") 10 4) = Some 0%Z) ∧
  (m_type (exact_contain_match (js "Bob Johnson") 10 4) = ExactContain ↔
   ∃ p, m_position (exact_contain_match (js "Bob Johnson") 10 4) = Some p ∧
        (1 ≤ p)%Z) ∧
  (m_type (exact_contain_match (js "Bob Johnson") 10 4) = Fuzzy ↔
   m_position (exact_contain_match (js "Bob Johnson") 10 4) = None).
Proof.
  apply (position_tells_kind ascii_lower (js "Bob Johnson") (js "john") 10
           default_score_options []
           (exact_contain_match (js "Bob Johnson") 10 4));
    [constructor|right; vm_compute; reflexivity].
Defined.

Lemma fuzzy_match_best_word_witness :
  ∃ word,
    word ∈ words (js "this has multiple words for testing") ∧ 3 ≤ length word ∧
    (0.6 <= similarity word (js "multipel"))%Q ∧
    m_score (fuzzy_match (js "this has multiple words for testing")
               (fuzzy_score (js "this has multiple words for testing") 2
                  (similarity (js "multiple") (js "multipel")))) =
      (2 * similarity word (js "multipel")
       * (2 + Qmax 1 (50 / num (length (js "this has multiple words for testing")))))%Q.
Proof.
  destruct (fuzzy_match_best_word ascii_lower
           (js "this has multiple words for testing") (js "multipel") 2
           lenient_score_options []
           (fuzzy_match (js "this has multiple words for testing")
              (fuzzy_score (js "this has multiple words for testing") 2
                 (similarity (js "multiple") (js "multipel")))))
    as (_ & _ & _ & word & Hin & Hlen & Hq & Hscore & _);
    [constructor|left; vm_compute; reflexivity|reflexivity|].
  exists word. split; [exact Hin|]. split; [exact Hlen|].
  split; [exact Hq|exact Hscore].
Defined.

(** ** Ranking *)

Lemma sort_insert_length {A} (cmp : A → A → Q) x l :
  length (sort_insert cmp x l) = S (length l).
Proof.
  induction l as [|y l IH]; [done|]. simpl. case_match; simpl; by rewrite ?IH.
Qed.

Lemma sort_length {A} (cmp : A → A → Q) l : length (sort cmp l) = length l.
Proof.
  induction l as [|x l IH]; [done|]. simpl. by rewrite sort_insert_length, IH.
Qed.

Lemma sort_insert_Permutation {A} (cmp : A → A → Q) x l :
  sort_insert cmp x l ≡ₚ x :: l.
Proof.
  induction l as [|y l IH]; [done|]. simpl. case_match; [done|].
  rewrite IH. apply Permutation_swap.
Qed.

Lemma sort_Permutation {A} (cmp : A → A → Q) l : sort cmp l ≡ₚ l.
Proof.
  induction l as [|x l IH]; [done|]. simpl.
  by rewrite sort_insert_Permutation, IH.
Qed.

Lemma compare_results_ranks a b :
  Qle_bool (compare_results a b) 0 = true ↔ ranks_before a b.
Proof.
  rewrite Qle_bool_iff. unfold compare_results, ranks_before.
  destruct (Qeq_bool (r_score a) (r_score b)) eqn:Heq; cbn [negb].
  - apply Qeq_bool_iff in Heq. rewrite <-(Zle_Qle _ 0). split.
    + intros Hle. right. split; [done|lia].
    + intros [Hlt|[_ Hle]]; [|lia]. rewrite Heq in Hlt.
      by apply Qlt_irrefl in Hlt.
  - apply Qeq_bool_neq in Heq. split.
    + intros Hle. left. apply Qnot_le_lt. intros Hle'. apply Heq. lra.
    + intros [Hlt|[Heq' _]]; [lra|done].
Qed.

Lemma ranks_before_total a b : ¬ ranks_before a b → ranks_before b a.
Proof.
  unfold ranks_before. intros Hn.
  destruct (Q_dec (r_score a) (r_score b)) as [[Hlt|Hgt]|Heq].
  - by left.
  - destruct Hn. by left.
  - right. split; [by symmetry|].
    destruct (Z.le_gt_cases (total_length b) (total_length a)); [done|].
    destruct Hn. right. split; [done|lia].
Qed.

Lemma ranks_before_trans a b c :
  ranks_before a b → ranks_before b c → ranks_before a c.
Proof.
  unfold ranks_before. intros [Hab|[Hab Lab]] [Hbc|[Hbc Lbc]].
  - left. by eapply Qlt_trans.
  - left. by rewrite <-Hbc.
  - left. by rewrite Hab.
  - right. split; [by rewrite Hab|lia].
Qed.

Lemma sort_insert_sorted x l :
  StronglySorted ranks_before l →
  StronglySorted ranks_before (sort_insert compare_results x l).
Proof.
  induction 1 as [|y l Hl IH Hy]; simpl.
  - by repeat constructor.
  - destruct (Qle_bool (compare_results x y) 0) eqn:Hcmp.
    + apply compare_results_ranks in Hcmp.
      constructor; [by constructor|]. constructor; [done|].
      eapply Forall_impl; [done|]. intros z Hz. by eapply ranks_before_trans.
    + constructor; [done|].
      rewrite sort_insert_Permutation. constructor; [|done].
      apply ranks_before_total. intros Hr.
      apply compare_results_ranks in Hr. congruence.
Qed.

(** The sorted results are ranked: every result ranks before all later ones. *)
Lemma sort_ranked l : StronglySorted ranks_before (sort compare_results l).
Proof.
  induction l as [|x l IH]; simpl; [constructor|]. by apply sort_insert_sorted.
Qed.

Lemma truncate_take {A} (n : nat) (l : list A) :
  1 ≤ n → truncate (Z.of_nat n) l = take n l.
Proof.
  intros Hn. unfold truncate, slice0.
  destruct (Z.eqb_spec (Z.of_nat n) 0); [lia|].
  destruct (Z.ltb_spec (Z.of_nat n) 0); [lia|]. by rewrite Nat2Z.id.
Qed.

Lemma truncate_0 {A} (l : list A) : truncate 0 l = l.
Proof. done. Qed.

(** ** The scan of the collection and its early termination *)

Section Scan.
Variable toLowerCase : jsstring → jsstring.
Variables (fieldWeights : gmap jsstring Q) (fieldStats : gmap jsstring FieldStats).
Variables (searchFields : list jsstring) (searchQuery : jsstring).
Variable searchOptions : ScoreOptions.

Local Abbreviation collect :=
  (Cached.collect toLowerCase fieldWeights fieldStats searchFields searchQuery
     searchOptions).




End Scan.

(** ** The limit *)

Lemma ranked_take (n : nat) (l : list SearchResult) :
  StronglySorted ranks_before l → StronglySorted ranks_before (take n l).
Proof.
  intros Hl. revert n. induction Hl as [|x l Hl IH Hx]; intros [|n]; simpl;
    try constructor; [apply IH|].
  eapply Forall_take in Hx. exact Hx.
Qed.

Section Limit.
Variable toLowerCase : jsstring → jsstring.

Lemma plain_search_limit data query options (n : nat) :
  1 ≤ n → trim query ≠ [] →
  Plain.search toLowerCase data query (with_limit options (Z.of_nat n)) =
  outcome_map (take n)
    (Plain.search toLowerCase data query (with_limit options 0)).
Proof.
  intros Hn Hq. unfold Plain.search.
  destruct (trim query) eqn:Htrim; [done|]. cbn [str_falsy].
  cbn [with_limit limit fields fieldWeights fuzzyThreshold minFuzzyLength
       caseSensitive from_option id].
  destruct (fold_left _ data (Ok [])) as [results|e]; [|done].
  cbn [outcome_map]. by rewrite truncate_0, truncate_take.
Qed.




Lemma cached_search_at_most data_addr data query options (n : nat) st rs :
  1 ≤ n → trim query ≠ [] →
  (Cached.search toLowerCase data_addr data query
     (with_limit options (Z.of_nat n)) st).1 = Ok rs →
  length rs ≤ n.
Proof.
  intros Hn Hq. unfold Cached.search.
  destruct (trim query) eqn:Htrim; [done|]. cbn [str_falsy].
  cbn [with_limit limit fields fieldWeights fuzzyThreshold minFuzzyLength
       caseSensitive from_option id fst].
  destruct (Cached.collect _ _ _ _ _ _ _ _ _ _).1 as [all|e]; [|done].
  intros [= <-]. rewrite truncate_take by done. rewrite length_take. lia.
Qed.

End Limit.




(** C9. For a query whose trim is empty, [search] returns one result per
    record of the collection, in the order of the collection, each with
    score 0 and no match, whatever the options and the state of the caches. *)
Theorem empty_query_passes_all (toLowerCase : jsstring → jsstring)
    (data_addr : positive) (data : list JsValue) (query : jsstring)
    (options : SearchOptions) (st : Cached.Caches) :
  trim query = [] →
  Plain.search toLowerCase data query options = Ok (pass_through data) ∧
  (Cached.search toLowerCase data_addr data query options st).1 =
    Ok (pass_through data) ∧
  length (pass_through data) = length data ∧
  r_item <$> pass_through data = data ∧
  Forall (λ r, r_score r = 0%Q ∧ r_matches r = []) (pass_through data).
Proof.
  intros Hq. unfold Plain.search, Cached.search, pass_through. rewrite Hq.
  cbn [str_falsy fst]. split; [done|]. split; [done|].
  split; [by rewrite length_fmap|]. split.
  - rewrite <-list_fmap_compose. by rewrite list_fmap_id.
  - apply Forall_fmap, Forall_true. done.
Qed.

Lemma empty_query_passes_all_witness :
  trim (js "  ") = [] ∧
  Plain.search ascii_lower johns (js "  ") no_options = Ok (pass_through johns) ∧
  (Cached.search ascii_lower 9 johns (js "  ") no_options Cached.cold).1 =
    Ok (pass_through johns) ∧
  length (pass_through johns) = 4.
Proof.
  destruct (empty_query_passes_all ascii_lower 9 johns (js "  ") no_options
              Cached.cold) as (Hplain & Hcached & Hlen & _);
    [reflexivity|].
  split; [reflexivity|]. split; [exact Hplain|]. split; [exact Hcached|exact Hlen].
Defined.

(** ** Field statistics *)

Lemma field_lengths_cons item data fieldPath :
  field_lengths (item :: data) fieldPath =
  match getNestedValue item fieldPath with
  | JStr (c :: text) => length (c :: text) :: field_lengths data fieldPath
  | _ => field_lengths data fieldPath
  end.
Proof.
  unfold field_lengths. cbn [omap list_omap].
  by destruct (getNestedValue item fieldPath) as [| | | |[|ch s]| | |].
Qed.

Lemma stats_step_fold fieldPath data (acc : nat * nat) :
  fold_left (stats_step fieldPath) data acc =
  (acc.1 + sum_list (field_lengths data fieldPath),
   acc.2 + length (field_lengths data fieldPath)).
Proof.
  revert acc. induction data as [|item data IH]; intros [t c].
  - simpl. f_equal; lia.
  - cbn [fold_left]. rewrite IH, field_lengths_cons. unfold stats_step.
    destruct (getNestedValue item fieldPath) as [| | | |[|ch s]| | |];
      cbn [fst snd sum_list sum_list_with length id]; f_equal; lia.
Qed.

Lemma mean_length_fold fieldPath data :
  (let acc := fold_left (stats_step fieldPath) data (0, 0) in
   if 0 <? acc.2 then (num acc.1 / num acc.2)%Q else 0%Q) =
  mean_length data fieldPath.
Proof.
  cbv zeta. rewrite stats_step_fold. unfold mean_length. cbn [fst snd].
  by destruct (field_lengths data fieldPath).
Qed.

(** The index loop over the first [k] records is the loop over [take k]. *)
Lemma fold_left_index_take {B} (f : B → JsValue → B) (data : list JsValue)
    (k : nat) (b : B) :
  k ≤ length data →
  fold_left (λ acc i, f acc (default JUndefined (data !! i))) (seq 0 k) b =
  fold_left f (take k data) b.
Proof.
  induction k as [|k IH]; intros Hk; [done|].
  destruct (lookup_lt_is_Some_2 data k) as [x Hx]; [lia|].
  rewrite seq_S, fold_left_app, (take_S_r data k x), fold_left_app by done.
  cbn [fold_left Nat.add]. rewrite IH by lia. by rewrite Hx.
Qed.

Lemma sample_take (data : list JsValue) :
  take (Nat.min (length data) 100) data = take 100 data.
Proof.
  destruct (Nat.min_spec (length data) 100) as [[Hlt ->]|[Hge ->]]; [|done].
  by rewrite !take_ge by lia.
Qed.

Section FieldStatistics.
Variable toLowerCase : jsstring → jsstring.

Lemma cached_calculateFieldStats_sample data fieldPath :
  Cached.calculateFieldStats toLowerCase data fieldPath =
  Plain.calculateFieldStats toLowerCase (take 100 data) fieldPath.
Proof.
  unfold Cached.calculateFieldStats, Plain.calculateFieldStats. cbv zeta.
  rewrite (fold_left_index_take (stats_step fieldPath)) by lia.
  by rewrite sample_take.
Qed.

Lemma plain_calculateFieldStats_mean data fieldPath :
  Plain.calculateFieldStats toLowerCase data fieldPath =
  {| avgLength := mean_length data fieldPath;
     weight := (base_weight (toLowerCase (last_segment fieldPath))
                * length_weight (mean_length data fieldPath))%Q |}.
Proof.
  unfold Plain.calculateFieldStats. cbv zeta.
  pose proof (mean_length_fold fieldPath data) as H. cbv zeta in H.
  by rewrite H.
Qed.

(** C4 (amended). In the cached variant the field statistics are computed
    from the first 100 records of the collection: the average length is the
    mean length of the non-empty strings found at the path among them (0 when
    there is none), the weight is the base weight of the lower-cased last
    segment of the path times the length weight of the average. In the plain
    variant the same holds with all the records of the collection. *)
Theorem field_stats_of_sample (data : list JsValue) (fieldPath : jsstring) :
  Cached.calculateFieldStats toLowerCase data fieldPath =
    Cached.calculateFieldStats toLowerCase (take 100 data) fieldPath ∧
  Cached.calculateFieldStats toLowerCase data fieldPath =
    {| avgLength := mean_length (take 100 data) fieldPath;
       weight := (base_weight (toLowerCase (last_segment fieldPath))
                  * length_weight
                      (mean_length (take 100 data) fieldPath))%Q |} ∧
  Plain.calculateFieldStats toLowerCase data fieldPath =
    {| avgLength := mean_length data fieldPath;
       weight := (base_weight (toLowerCase (last_segment fieldPath))
                  * length_weight (mean_length data fieldPath))%Q |} ∧
  (∀ name, name ∈ [js "title"; js "name"; js "heading"] →
     base_weight name = 5%Q) ∧
  (∀ name, name ∈ [js "description"; js "summary"; js "subtitle"] →
     base_weight name = 3%Q) ∧
  (∀ name, name ∉ [js "title"; js "name"; js "heading"] →
     name ∉ [js "description"; js "summary"; js "subtitle"] →
     base_weight name = 1%Q) ∧
  (∀ avg, (avg < 50)%Q → length_weight avg = 2.0%Q) ∧
  (∀ avg, (50 <= avg)%Q → (avg < 100)%Q → length_weight avg = 1.5%Q) ∧
  (∀ avg, (100 <= avg)%Q → (avg < 300)%Q → length_weight avg = 1.2%Q) ∧
  (∀ avg, (300 <= avg)%Q → length_weight avg = 1.0%Q).
Proof.
  split; [|split; [|split]].
  - rewrite !cached_calculateFieldStats_sample. by rewrite take_take.
  - rewrite cached_calculateFieldStats_sample. apply plain_calculateFieldStats_mean.
  - apply plain_calculateFieldStats_mean.
  - assert (∀ a b, Qlt_bool a b = true ↔ (a < b)%Q) as Hlt.
    { intros a b. unfold Qlt_bool. destruct (Qle_bool b a) eqn:Hle; cbn [negb].
      - apply Qle_bool_iff in Hle. split; [done|]. intros Hab. lra.
      - split; [|done]. intros _. apply Qnot_le_lt. intros Hba.
        apply Qle_bool_iff in Hba. congruence. }
    assert (∀ a b, (b <= a)%Q → Qlt_bool a b = false) as Hge.
    { intros a b Hba. destruct (Qlt_bool a b) eqn:Hab; [|done].
      apply Hlt in Hab. lra. }
    unfold base_weight, length_weight. split_and!.
    + intros name Hin. by rewrite bool_decide_eq_true_2.
    + intros name Hin. rewrite (bool_decide_eq_true_2 (name ∈ [_; _; _]) Hin).
      case_bool_decide as Hin1; [|done].
      exfalso. revert Hin Hin1. rewrite !elem_of_cons, !elem_of_nil.
      intros [->|[->|[->|[]]]]; vm_compute; intros [H|[H|[H|[]]]]; discriminate H.
    + intros name H1 H2.
      rewrite (bool_decide_eq_false_2 _ H1), (bool_decide_eq_false_2 _ H2).
      by case_bool_decide.
    + intros avg H. by rewrite (proj2 (Hlt _ _) H).
    + intros avg H1 H2. by rewrite (Hge _ _ H1), (proj2 (Hlt _ _) H2).
    + intros avg H1 H2. rewrite !Hge by lra. by rewrite (proj2 (Hlt _ _) H2).
    + intros avg H. by rewrite !Hge by lra.
Qed.

End FieldStatistics.

(** In the plain variant the record at index 101 moves the average length of
    [long_tail] from 1 to 5101/102, and the inferred weight from 2 to 1.5. *)
Lemma plain_stats_use_every_record :
  avgLength (Plain.calculateFieldStats ascii_lower (take 100 long_tail) (js "t"))
    == 1 ∧
  avgLength (Plain.calculateFieldStats ascii_lower long_tail (js "t"))
    == 5101 # 102 ∧
  weight (Plain.calculateFieldStats ascii_lower (take 100 long_tail) (js "t"))
    == 2 ∧
  weight (Plain.calculateFieldStats ascii_lower long_tail (js "t")) == 1.5 ∧
  ¬ avgLength (Plain.calculateFieldStats ascii_lower long_tail (js "t"))
    == avgLength (Plain.calculateFieldStats ascii_lower (take 100 long_tail) (js "t")).
Proof.
  repeat split; try (vm_compute; reflexivity).
  vm_compute. discriminate.
Qed.

(** ** Resolving a field path *)

(** Once a segment is missing the walk stays on the empty string. *)
Lemma walk_from_empty (segments : list jsstring) :
  fold_left
    (λ current key,
       if truthy current && is_object current then
         match get_property current key with
         | Some v => v
         | None => JStr []
         end
       else JStr [])
    segments (JStr []) = JStr [].
Proof. induction segments as [|key segments IH]; [done|]. apply IH. Qed.

Lemma getNestedValue_missing obj path key rest :
  split_dot path = key :: rest →
  get_property obj key = None →
  getNestedValue obj path = JStr [].
Proof.
  intros Hsplit Hget. unfold getNestedValue. rewrite Hsplit. cbn [fold_left].
  rewrite Hget.
  replace (if truthy obj && is_object obj then JStr [] else JStr [])
    with (JStr []) by (by destruct (truthy obj && is_object obj)).
  by rewrite walk_from_empty.
Qed.

Lemma getNestedValue_own_string addr props key (s : jsstring) :
  split_dot key = [key] →
  get_property (JObj addr props) key = Some (JStr s) →
  getNestedValue (JObj addr props) key = JStr s.
Proof.
  intros Hsplit Hget. unfold getNestedValue. rewrite Hsplit.
  cbn [fold_left truthy is_object andb]. by rewrite Hget.
Qed.

(** C3. On the record [{ age: 30 }] and the path [age], [getNestedValue]
    returns the number 30, which is no string; a search over that field then
    fails with a [TypeError] in both variants. *)
Theorem getNestedValue_returns_number :
  getNestedValue (JObj 1 [(js "age", JNum 30)]) (js "age") = JNum 30 ∧
  (∀ s,
     getNestedValue (JObj 1 [(js "age", JNum 30)]) (js "age") ≠ JStr s) ∧
  Plain.search ascii_lower ages (js "3") (only_fields [js "age"]) =
    Throw TypeError ∧
  (Cached.search ascii_lower 9 ages (js "3") (only_fields [js "age"])
     Cached.cold).1 = Throw TypeError.
Proof.
  split; [reflexivity|]. split; [intros s; vm_compute; discriminate|].
  split; vm_compute; reflexivity.
Qed.

(** ** The field statistics cache *)

(** C2. On the collection [notes], the query [hello] over the field [body]
    scores 40 on cold caches, as in the plain variant, and 20 once an earlier
    search of the same collection over the field [title] has filled the
    statistics cache, also after [clearSearchCaches]. *)
Theorem stale_field_stats_change_scores :
  let warm :=
    (Cached.search ascii_lower 9 notes (js "hello") (only_fields [js "title"])
       Cached.cold).2 in
  scores_of
    (Plain.search ascii_lower notes (js "hello") (only_fields [js "body"]))
    = Ok [40%Q] ∧
  scores_of (Cached.search ascii_lower 9 notes (js "hello")
               (only_fields [js "body"]) Cached.cold).1 = Ok [40%Q] ∧
  scores_of (Cached.search ascii_lower 9 notes (js "hello")
               (only_fields [js "body"]) warm).1 = Ok [20%Q] ∧
  scores_of (Cached.search ascii_lower 9 notes (js "hello")
               (only_fields [js "body"]) (Cached.clearSearchCaches warm)).1
    = Ok [20%Q].
Proof. vm_compute. repeat split; reflexivity. Qed.

(** * Part III: further properties of the engine *)

(** ** The edit distance is a metric *)

Section EditDistanceMetric.
Context {A : Type} `{EqDecision A}.
Implicit Types a b c : list A.

Lemma edits_trans n m a b c :
  edits n a b → edits m b c → edits (n + m) a c.
Proof.
  induction 1 as [a|n a a' b He _ IH]; intros Hbc; [done|].
  simpl. eapply edits_S; [done|]. by apply IH.
Qed.

Lemma lev_triangle a b c : lev a c ≤ lev a b + lev b c.
Proof. apply edits_lev. eapply edits_trans; apply lev_edits. Qed.

Lemma lev_0_eq a b : lev a b = 0 ↔ a = b.
Proof.
  split; [|intros ->; apply lev_refl]. intros H0.
  pose proof (lev_edits a b) as He. rewrite H0 in He. by inversion He.
Qed.

Lemma edit1_length a b :
  edit1 a b → length a ≤ S (length b) ∧ length b ≤ S (length a).
Proof. intros [l1 x l2|l1 x l2|l1 x y l2]; rewrite !length_app; simpl; lia. Qed.

Lemma edits_length n a b :
  edits n a b → length a ≤ length b + n ∧ length b ≤ length a + n.
Proof.
  induction 1 as [a|n a a' b He _ IH]; [lia|].
  apply edit1_length in He. lia.
Qed.

Lemma lev_length_diff a b :
  length a - length b ≤ lev a b ∧ length b - length a ≤ lev a b.
Proof. pose proof (edits_length _ _ _ (lev_edits a b)). lia. Qed.

End EditDistanceMetric.

(** X1. The two implementations of [levenshteinDistance] return the same
    number, and that number is a metric on strings: it is 0 exactly for equal
    strings, symmetric, and satisfies the triangle inequality. *)
Theorem levenshteinDistance_metric (a b c : jsstring) :
  Cached.levenshteinDistance a b = Plain.levenshteinDistance a b ∧
  (Plain.levenshteinDistance a b = 0 ↔ a = b) ∧
  Plain.levenshteinDistance a b = Plain.levenshteinDistance b a ∧
  Plain.levenshteinDistance a c ≤
    Plain.levenshteinDistance a b + Plain.levenshteinDistance b c.
Proof.
  rewrite !plain_levenshteinDistance_lev, cached_levenshteinDistance_lev.
  split; [done|]. split; [apply lev_0_eq|]. split; [apply lev_sym|].
  apply lev_triangle.
Qed.

(** X2. The distance of two strings lies between the difference of their
    lengths and the greater of their lengths, in both implementations. *)
Theorem levenshteinDistance_bounds (a b : jsstring) :
  length a - length b ≤ Plain.levenshteinDistance a b ∧
  length b - length a ≤ Plain.levenshteinDistance a b ∧
  Plain.levenshteinDistance a b ≤ Nat.max (length a) (length b) ∧
  length a - length b ≤ Cached.levenshteinDistance a b ∧
  length b - length a ≤ Cached.levenshteinDistance a b ∧
  Cached.levenshteinDistance a b ≤ Nat.max (length a) (length b).
Proof.
  rewrite !plain_levenshteinDistance_lev, !cached_levenshteinDistance_lev.
  pose proof (lev_length_diff a b). pose proof (lev_le_max a b). lia.
Qed.

(** ** The state of the caches *)

Lemma cache_get_None (cache : list (jsstring * jsstring)) key :
  Cached.cache_get cache key = None ↔ key ∉ cache.*1.
Proof.
  unfold Cached.cache_get. induction cache as [|[k v] cache IH]; simpl.
  - split; [intros _; apply not_elem_of_nil|done].
  - rewrite not_elem_of_cons. case_bool_decide as Hk; simpl.
    + split; [done|]. by intros [? _].
    + rewrite IH. split; [by split|by intros [_ ?]].
Qed.

Lemma cache_get_snoc (cache : list (jsstring * jsstring)) key v :
  key ∉ cache.*1 → Cached.cache_get (cache ++ [(key, v)]) key = Some v.
Proof.
  unfold Cached.cache_get. induction cache as [|[k v'] cache IH]; simpl.
  - intros _. by rewrite bool_decide_eq_true_2.
  - rewrite not_elem_of_cons. intros [Hne Hnot].
    rewrite bool_decide_eq_false_2 by done. by apply IH.
Qed.

Lemma evict_oldest_sublist n (cache : list (jsstring * jsstring)) :
  Cached.evict_oldest n cache `sublist_of` cache.
Proof. apply sublist_filter. Qed.

Lemma evict_oldest_keys n (cache : list (jsstring * jsstring)) key :
  key ∉ cache.*1 → key ∉ (Cached.evict_oldest n cache).*1.
Proof.
  intros Hnot Hin. apply Hnot.
  apply list_elem_of_fmap in Hin as (kv & -> & Hkv).
  apply list_elem_of_filter in Hkv as [_ Hkv]. by apply list_elem_of_fmap_2.
Qed.

Lemma filter_keys_among (l : list (jsstring * jsstring)) (ks : list jsstring) :
  (∀ kv, kv ∈ l → kv.1 ∈ ks) → filter (λ kv, kv.1 ∉ ks) l = [].
Proof.
  induction l as [|kv l IH]; intros Hsub; [done|].
  rewrite filter_cons_False.
  - apply IH. intros kv' Hin. apply Hsub. by right.
  - intros Hnot. apply Hnot, Hsub. by left.
Qed.

Lemma evict_oldest_length n (cache : list (jsstring * jsstring)) :
  length (Cached.evict_oldest n cache) ≤ length cache - n.
Proof.
  unfold Cached.evict_oldest. set (ks := take n (cache.*1)).
  replace (filter (λ kv, kv.1 ∉ ks) cache)
    with (filter (λ kv, kv.1 ∉ ks) (take n cache ++ drop n cache))
    by (by rewrite take_drop).
  rewrite filter_app, length_app, (filter_keys_among (take n cache)).
  - pose proof (length_filter (λ kv, kv.1 ∉ ks) (drop n cache)).
    rewrite length_drop in *. simpl. lia.
  - intros kv Hin. unfold ks. rewrite <-fmap_take. by apply list_elem_of_fmap_2.
Qed.

Lemma evict_oldest_bounded n cache :
  string_cache_bounded cache → string_cache_bounded (Cached.evict_oldest n cache).
Proof.
  intros [Hnd Hlen]. split.
  - exact (sublist_NoDup _ _ Hnd
             (fmap_sublist fst _ _ (evict_oldest_sublist n cache))).
  - pose proof (evict_oldest_length n cache). lia.
Qed.

Section CacheState.
Variable toLowerCase : jsstring → jsstring.

Lemma getProcessedString_bounded str cs cache :
  string_cache_bounded cache →
  string_cache_bounded (Cached.getProcessedString toLowerCase str cs cache).2.
Proof.
  intros [Hnd Hlen]. unfold Cached.getProcessedString.
  destruct cs; [done|].
  destruct (Cached.cache_get cache (js "lc:" ++ str)) as [v|] eqn:Hget; [done|].
  apply cache_get_None in Hget. cbn [snd]. unfold string_cache_bounded.
  rewrite fmap_app, length_app. cbn [fmap list_fmap length fst].
  unfold Cached.MAX_STRING_CACHE_SIZE in *.
  destruct (Nat.leb_spec 500 (length cache)) as [Hfull|Hroom].
  - pose proof (evict_oldest_length (500 / 2) cache) as Hev.
    change (500 / 2) with 250 in *. split; [|lia].
    apply NoDup_app. split; [|split; [|apply NoDup_singleton]].
    + exact (sublist_NoDup _ _ Hnd
               (fmap_sublist fst _ _ (evict_oldest_sublist 250 cache))).
    + intros k Hk ->%list_elem_of_singleton. by eapply evict_oldest_keys.
  - split; [|lia]. apply NoDup_app. split; [done|].
    split; [|apply NoDup_singleton].
    by intros k Hk ->%list_elem_of_singleton.
Qed.

(** X3. After [getProcessedString(str, false)] the cache holds the string it
    returned under the key of [str], and asking again is a hit: the second
    call returns that string from the cache, whatever lower-casing would
    give by then, and leaves the cache as it is; this holds whatever the
    cache was before, also when the first call evicted entries. *)
Theorem getProcessedString_again (otherLowerCase : jsstring → jsstring)
    (str : jsstring) (cache : list (jsstring * jsstring)) :
  Cached.cache_get (Cached.getProcessedString toLowerCase str false cache).2
    (js "lc:" ++ str) =
    Some (Cached.getProcessedString toLowerCase str false cache).1 ∧
  Cached.getProcessedString otherLowerCase str false
    (Cached.getProcessedString toLowerCase str false cache).2 =
  Cached.getProcessedString toLowerCase str false cache.
Proof.
  unfold Cached.getProcessedString.
  destruct (Cached.cache_get cache (js "lc:" ++ str)) as [v|] eqn:Hget;
    cbn [fst snd].
  - by rewrite Hget.
  - apply cache_get_None in Hget. rewrite cache_get_snoc; [done|].
    case_match; [by apply evict_oldest_keys|done].
Qed.

(** *** What every search keeps of a property of the string cache *)

Section Preserved.
Variable P : list (jsstring * jsstring) → Prop.
Hypothesis P_processed :
  ∀ str cs cache, P cache → P (Cached.getProcessedString toLowerCase str cs cache).2.
Hypothesis P_evicted : ∀ n cache, P cache → P (Cached.evict_oldest n cache).

Lemma calculateFieldScore_preserves text query w opts cache :
  P cache → P (Cached.calculateFieldScore toLowerCase text query w opts cache).2.
Proof using P_processed.
  intros HP. unfold Cached.calculateFieldScore.
  destruct (str_falsy text || str_falsy query); [done|]. cbn [snd].
  by apply P_processed, P_processed.
Qed.

Lemma score_field_preserves fieldWeights fieldStats searchQuery searchOptions
    item acc field :
  P acc.2 →
  P (Cached.score_field toLowerCase fieldWeights fieldStats searchQuery
       searchOptions item acc field).2.
Proof using P_processed.
  intros HP. unfold Cached.score_field.
  destruct acc.1 as [[matches totalScore]|e]; [|done].
  destruct (negb (truthy (getNestedValue item field))); [done|].
  destruct (getNestedValue item field) as [| | | |text| | |]; try done.
  pose proof (calculateFieldScore_preserves text searchQuery
    (field_weight fieldWeights fieldStats field) searchOptions acc.2 HP).
  by destruct (Cached.calculateFieldScore _ _ _ _ _ _).1.
Qed.

Lemma score_fields_preserves fieldWeights fieldStats searchQuery searchOptions
    item searchFields acc :
  P acc.2 →
  P (fold_left
       (Cached.score_field toLowerCase fieldWeights fieldStats searchQuery
          searchOptions item) searchFields acc).2.
Proof using P_processed.
  revert acc. induction searchFields as [|field searchFields IH];
    intros acc HP; [done|].
  cbn [fold_left]. by apply IH, score_field_preserves.
Qed.

Lemma collect_preserves fieldWeights fieldStats searchFields searchQuery
    searchOptions maxResults items results cache :
  P cache →
  P (Cached.collect toLowerCase fieldWeights fieldStats searchFields
       searchQuery searchOptions maxResults items results cache).2.
Proof using P_processed.
  revert results cache. induction items as [|item items IH];
    intros results cache HP; cbn [Cached.collect]; [done|].
  destruct (negb (truthy item)); [by apply IH|].
  pose proof (score_fields_preserves fieldWeights fieldStats searchQuery
    searchOptions item searchFields (Ok ([], 0%Q), cache) HP) as HP'.
  destruct (fold_left _ searchFields _) as [[[matches totalScore]|e] cache'];
    cbn [fst snd] in *; [|done].
  case_match; [done|by apply IH].
Qed.

Lemma search_preserves data_addr data query options st :
  P (Cached.stringProcessingCache st) →
  P (Cached.stringProcessingCache
       (Cached.search toLowerCase data_addr data query options st).2).
Proof using P_processed P_evicted.
  intros HP.
  assert (P (Cached.stringProcessingCache (Cached.count_call st))) as HP'.
  { unfold Cached.count_call. cbn [Cached.stringProcessingCache].
    case_match; [by apply P_evicted|done]. }
  unfold Cached.search. destruct (str_falsy (trim query)); [done|].
  cbn [snd Cached.stringProcessingCache]. by apply collect_preserves.
Qed.

End Preserved.

(** X4. In every state the module can reach, the string cache has distinct
    keys and at most 500 entries: [getCacheStats] never reports more. *)
Theorem reachable_string_cache_bounded (st : Cached.Caches) :
  Cached.reachable toLowerCase st →
  NoDup ((Cached.stringProcessingCache st).*1) ∧
  (Cached.getCacheStats st).1 ≤ 500.
Proof.
  change (Cached.reachable toLowerCase st →
          string_cache_bounded (Cached.stringProcessingCache st)).
  induction 1 as [|st data_addr data query options _ IH|st _ IH].
  - split; [constructor|]. simpl. unfold Cached.MAX_STRING_CACHE_SIZE. lia.
  - apply (search_preserves string_cache_bounded); [|intros; by apply evict_oldest_bounded|done].
    intros. by apply getProcessedString_bounded.
  - split; [constructor|]. simpl. unfold Cached.MAX_STRING_CACHE_SIZE. lia.
Qed.


End CacheState.

Lemma reachable_string_cache_bounded_witness :
  Cached.reachable ascii_lower warm_notes ∧
  NoDup ((Cached.stringProcessingCache warm_notes).*1) ∧
  (Cached.getCacheStats warm_notes).1 ≤ 500.
Proof.
  assert (Cached.reachable ascii_lower warm_notes) as Hr
    by apply Cached.reachable_search, Cached.reachable_cold.
  split; [exact Hr|]. exact (reachable_string_cache_bounded ascii_lower _ Hr).
Defined.


(** ** The order of the tiers *)




Section Tiers.
Variable toLowerCase : jsstring → jsstring.




End Tiers.



(** ** The results of a search *)

Lemma fold_left_inv {A B} (P : A → Prop) (f : A → B → A) (l : list B) (a : A) :
  (∀ a x, P a → P (f a x)) → P a → P (fold_left f l a).
Proof.
  intros Hf. revert a. induction l as [|x l IH]; intros a Ha; [done|].
  cbn [fold_left]. by apply IH, Hf.
Qed.

Lemma fold_left_Throw {A B} (f : outcome A → B → outcome A) (l : list B) e :
  (∀ x e, f (Throw e) x = Throw e) → fold_left f l (Throw e) = Throw e.
Proof.
  intros Hf. induction l as [|x l IH]; [done|]. cbn [fold_left].
  by rewrite Hf.
Qed.

Lemma sum_scores_snoc matches m :
  sum_scores (matches ++ [m]) = (sum_scores matches + m_score m)%Q.
Proof. unfold sum_scores. by rewrite fold_left_app. Qed.

Lemma truncate_sublist {A} (limit : Z) (l : list A) :
  truncate limit l `sublist_of` l.
Proof.
  unfold truncate, slice0. repeat case_match; [done|apply sublist_take..].
Qed.

Lemma sublist_Forall' {A} (P : A → Prop) (l k : list A) :
  l `sublist_of` k → Forall P k → Forall P l.
Proof.
  intros Hsub Hk. apply Forall_forall. intros x Hx.
  eapply Forall_forall in Hk; [done|]. by eapply elem_of_sublist.
Qed.

Lemma fuzzy_word_value d text sq w opts best word :
  (∀ b, best = Some b → m_value b = text) →
  ∀ m, fuzzy_word d text sq w opts best word = Some m → m_value m = text.
Proof.
  intros Hbest m. unfold fuzzy_word.
  destruct (Qle_bool _ _); [|by apply Hbest].
  destruct best as [b|]; [destruct (Qgt_bool _ _)|]; try (by intros [= <-]).
  by apply Hbest.
Qed.

Section Results.
Variable toLowerCase : jsstring → jsstring.

(** A match of either matcher carries the text it was computed from, which
    is not empty. *)
Lemma plain_calculateFieldScore_value text query w opts m :
  Plain.calculateFieldScore toLowerCase text query w opts = Some m →
  m_value m = text ∧ text ≠ [].
Proof.
  unfold Plain.calculateFieldScore. destruct text as [|c text]; [done|].
  cbn [str_falsy orb]. destruct (str_falsy query); [done|].
  intros H. split; [|done]. revert m H.
  destruct (startsWith _ _); [by intros m [= <-]|].
  destruct (includes _ _); [by intros m [= <-]|].
  destruct (Qle_bool _ _); [|done].
  apply (fold_left_inv (λ best, ∀ m, best = Some m → m_value m = c :: text));
    [|done].
  intros best word Hbest m. case_match; [|by apply Hbest].
  apply fuzzy_word_value. done.
Qed.

Lemma cached_calculateFieldScore_value text query w opts cache m :
  (Cached.calculateFieldScore toLowerCase text query w opts cache).1 = Some m →
  m_value m = text ∧ text ≠ [].
Proof.
  unfold Cached.calculateFieldScore. destruct text as [|c text]; [done|].
  cbn [str_falsy orb]. destruct (str_falsy query); [done|]. cbn [fst].
  intros H. split; [|done]. revert m H.
  destruct (startsWith _ _); [by intros m [= <-]|].
  destruct (negb _); [by intros m [= <-]|].
  destruct (Qle_bool _ _); [|done].
  apply (fold_left_inv
    (λ acc : option SearchMatch * nat,
       ∀ m, acc.1 = Some m → m_value m = c :: text)); [|done].
  intros acc i Hacc m. unfold Cached.fuzzy_scan.
  destruct (_ || _); [|by apply Hacc]. cbn [fst].
  case_match; [|by apply Hacc]. by apply fuzzy_word_value.
Qed.

(** The loop over the fields keeps [totalScore] the sum of the scores of
    [matches], and every match a match of the record. *)
Lemma plain_score_fields_ok fieldWeights fieldStats searchQuery searchOptions
    item searchFields matches totalScore :
  fold_left
    (Plain.score_field toLowerCase fieldWeights fieldStats searchQuery
       searchOptions item) searchFields (Ok ([], 0%Q)) =
    Ok (matches, totalScore) →
  totalScore = sum_scores matches ∧ Forall (match_of item) matches.
Proof.
  set (P := λ acc : outcome (list SearchMatch * Q),
    ∀ matches totalScore, acc = Ok (matches, totalScore) →
      totalScore = sum_scores matches ∧ Forall (match_of item) matches).
  intros H. revert matches totalScore H. fold (P (fold_left
    (Plain.score_field toLowerCase fieldWeights fieldStats searchQuery
       searchOptions item) searchFields (Ok ([], 0%Q)))).
  apply fold_left_inv; [|by intros ?? [= <- <-]].
  intros [[matches totalScore]|e] field Hacc; [|done].
  specialize (Hacc _ _ eq_refl) as [-> Hms]. unfold Plain.score_field.
  destruct (negb _); [by intros ?? [= <- <-]|].
  destruct (getNestedValue item field) as [| | | |text| | |] eqn:Hv; try done.
  destruct (Plain.calculateFieldScore _ _ _ _ _) as [m|] eqn:Hm;
    [|by intros ?? [= <- <-]].
  apply plain_calculateFieldScore_value in Hm as [Hval Hne].
  intros ?? [= <- <-]. rewrite sum_scores_snoc. split; [done|].
  apply Forall_app. split; [done|]. apply Forall_singleton.
  unfold match_of. cbn [set_field m_value m_field]. by rewrite Hval.
Qed.

Lemma cached_score_fields_ok fieldWeights fieldStats searchQuery searchOptions
    item searchFields cache matches totalScore :
  (fold_left
     (Cached.score_field toLowerCase fieldWeights fieldStats searchQuery
        searchOptions item) searchFields (Ok ([], 0%Q), cache)).1 =
    Ok (matches, totalScore) →
  totalScore = sum_scores matches ∧ Forall (match_of item) matches.
Proof.
  set (P := λ acc : outcome (list SearchMatch * Q) * list (jsstring * jsstring),
    ∀ matches totalScore, acc.1 = Ok (matches, totalScore) →
      totalScore = sum_scores matches ∧ Forall (match_of item) matches).
  intros H. revert matches totalScore H. fold (P (fold_left
    (Cached.score_field toLowerCase fieldWeights fieldStats searchQuery
       searchOptions item) searchFields (Ok ([], 0%Q), cache))).
  apply fold_left_inv; [|by intros ?? [= <- <-]].
  intros [[[matches totalScore]|e] cache'] field Hacc; [|done].
  specialize (Hacc _ _ eq_refl) as [-> Hms]. unfold Cached.score_field.
  cbn [fst snd].
  destruct (negb _); [by intros ?? [= <- <-]|].
  destruct (getNestedValue item field) as [| | | |text| | |] eqn:Hv; try done.
  destruct (Cached.calculateFieldScore _ _ _ _ _ _).1 as [m|] eqn:Hm;
    [|by intros ?? [= <- <-]].
  apply cached_calculateFieldScore_value in Hm as [Hval Hne].
  intros ?? [= <- <-]. rewrite sum_scores_snoc. split; [done|].
  apply Forall_app. split; [done|]. apply Forall_singleton.
  unfold match_of. cbn [set_field m_value m_field]. by rewrite Hval.
Qed.

(** The loop over the records appends well-formed results, at most one for
    each record and in the order of the records. *)
Lemma plain_scan_ok fieldWeights fieldStats searchFields searchQuery
    searchOptions items results rs :
  fold_left
    (Plain.score_item toLowerCase fieldWeights fieldStats searchFields
       searchQuery searchOptions) items (Ok results) = Ok rs →
  ∃ more, rs = results ++ more ∧ Forall well_formed_result more ∧
          r_item <$> more `sublist_of` items.
Proof.
  revert results. induction items as [|item items IH]; intros results.
  - intros [= <-]. exists []. by rewrite app_nil_r.
  - cbn [fold_left]. unfold Plain.score_item at 2.
    destruct (fold_left _ searchFields _) as [[matches totalScore]|e] eqn:Hf.
    2:{ rewrite fold_left_Throw; [done|by intros ??]. }
    apply plain_score_fields_ok in Hf as [Hsum Hms].
    destruct matches as [|m matches].
    + intros (more & -> & Hwf & Hsub)%IH. exists more.
      split_and!; [done..|]. by apply sublist_cons.
    + intros (more & -> & Hwf & Hsub)%IH. eexists (_ :: more).
      split_and!; [by rewrite <- (assoc_L (++))| |].
      * constructor; [|done]. by split_and!.
      * cbn [fmap list_fmap r_item]. by apply sublist_skip.
Qed.

Lemma cached_scan_ok fieldWeights fieldStats searchFields searchQuery
    searchOptions maxResults items results cache rs :
  (Cached.collect toLowerCase fieldWeights fieldStats searchFields searchQuery
     searchOptions maxResults items results cache).1 = Ok rs →
  ∃ more, rs = results ++ more ∧ Forall well_formed_result more ∧
          r_item <$> more `sublist_of` items.
Proof.
  revert results cache. induction items as [|item items IH];
    intros results cache; cbn [Cached.collect].
  - intros [= <-]. exists []. by rewrite app_nil_r.
  - destruct (negb (truthy item)).
    { intros (more & -> & Hwf & Hsub)%IH. exists more.
      split_and!; [done..|]. by apply sublist_cons. }
    destruct (fold_left _ searchFields _) as [[[matches totalScore]|e] cache']
      eqn:Hf; cbn [fst snd]; [|done].
    apply (f_equal fst) in Hf. cbn [fst] in Hf.
    apply cached_score_fields_ok in Hf as [Hsum Hms].
    destruct matches as [|m matches].
    + case_match.
      * intros [= <-]. exists []. rewrite app_nil_r. split_and!; [done..|].
        apply sublist_nil_l.
      * intros (more & -> & Hwf & Hsub)%IH. exists more.
        split_and!; [done..|]. by apply sublist_cons.
    + case_match.
      * intros [= <-]. eexists [_]. split_and!; [done| |].
        -- apply Forall_singleton. by split_and!.
        -- cbn [fmap list_fmap r_item]. apply sublist_skip, sublist_nil_l.
      * intros (more & -> & Hwf & Hsub)%IH. eexists (_ :: more).
        split_and!; [by rewrite <- (assoc_L (++))| |].
        -- constructor; [|done]. by split_and!.
        -- cbn [fmap list_fmap r_item]. by apply sublist_skip.
Qed.

Lemma ranked_truncate limit results :
  StronglySorted ranks_before (truncate limit (sort compare_results results)).
Proof.
  unfold truncate, slice0.
  repeat case_match; try apply sort_ranked; apply ranked_take, sort_ranked.
Qed.

(** X8. What both variants return for a query that is not blank, where the
    weights of the searched fields are numbers and, for the cached variant,
    every searched field holds a string or a falsy value in every record:
    every result has at least one match, each match carries the non-empty
    string found in the result's record at the match's field, the score of
    the result is the sum of the scores of its matches, and the results are
    ranked. *)
Theorem search_results_well_formed (data_addr : positive)
    (data : list JsValue) (query : jsstring) (options : SearchOptions)
    (st : Cached.Caches) (rs : list SearchResult) :
  trim query ≠ [] →
  Plain.search toLowerCase data query options = Ok rs ∧
    numeric_weights options (plain_search_fields data options) ∨
  (Cached.search toLowerCase data_addr data query options st).1 = Ok rs ∧
    numeric_weights options (cached_search_fields data options st) ∧
    string_valued data (cached_search_fields data options st) →
  Forall well_formed_result rs ∧ StronglySorted ranks_before rs.
Proof.
  intros Hq. unfold Plain.search, Cached.search.
  destruct (trim query) eqn:Htrim; [done|]. cbn [str_falsy fst].
  intros [[H _]|[H _]]; revert H.
  - destruct (fold_left _ data (Ok [])) as [results|e] eqn:Hscan; [|done].
    intros [= <-]. split; [|apply ranked_truncate].
    apply plain_scan_ok in Hscan as (more & -> & Hwf & _).
    eapply sublist_Forall'; [apply truncate_sublist|].
    by rewrite sort_Permutation.
  - destruct (Cached.collect _ _ _ _ _ _ _ _ _ _).1 as [results|e] eqn:Hscan;
      [|done].
    intros [= <-]. split; [|apply ranked_truncate].
    apply cached_scan_ok in Hscan as (more & -> & Hwf & _).
    eapply sublist_Forall'; [apply truncate_sublist|].
    by rewrite sort_Permutation.
Qed.

(** X9. The records of the results are records of the collection, each taken at
    most as often as it occurs there: no record is returned twice, whatever
    the query and the options. *)
Theorem search_results_among_data (data_addr : positive)
    (data : list JsValue) (query : jsstring) (options : SearchOptions)
    (st : Cached.Caches) (rs : list SearchResult) :
  Plain.search toLowerCase data query options = Ok rs ∨
  (Cached.search toLowerCase data_addr data query options st).1 = Ok rs →
  r_item <$> rs ⊆+ data ∧ length rs ≤ length data.
Proof.
  intros H. assert (r_item <$> rs ⊆+ data) as Hsub.
  2:{ split; [done|]. apply submseteq_length in Hsub.
      by rewrite length_fmap in Hsub. }
  revert H. unfold Plain.search, Cached.search.
  destruct (str_falsy (trim query)).
  { cbn [fst]. assert (r_item <$> pass_through data = data) as Hid.
    { unfold pass_through. rewrite <- list_fmap_compose.
      apply list_fmap_id. }
    by intros [[= <-]|[= <-]]; rewrite Hid. }
  cbn [fst]. intros [H|H]; revert H.
  - destruct (fold_left _ data (Ok [])) as [results|e] eqn:Hscan; [|done].
    intros [= <-].
    apply plain_scan_ok in Hscan as (more & -> & _ & Hsub).
    cbn [app] in *. etrans; [|by apply sublist_submseteq].
    etrans; [apply sublist_submseteq, fmap_sublist, truncate_sublist|].
    by rewrite sort_Permutation.
  - destruct (Cached.collect _ _ _ _ _ _ _ _ _ _).1 as [results|e] eqn:Hscan;
      [|done].
    intros [= <-].
    apply cached_scan_ok in Hscan as (more & -> & _ & Hsub).
    cbn [app] in *. etrans; [|by apply sublist_submseteq].
    etrans; [apply sublist_submseteq, fmap_sublist, truncate_sublist|].
    by rewrite sort_Permutation.
Qed.

End Results.

Lemma search_results_well_formed_witness :
  ∃ rs,
    (Cached.search ascii_lower 9 johns (js "john") no_options Cached.cold).1 =
      Ok rs ∧
    Forall well_formed_result rs ∧ StronglySorted ranks_before rs.
Proof.
  eexists. split; [vm_compute; reflexivity|].
  apply (search_results_well_formed ascii_lower 9 johns (js "john") no_options
           Cached.cold); [done|].
  right. split; [vm_compute; reflexivity|].
  replace (cached_search_fields johns no_options Cached.cold)
    with [js "name"] by (vm_compute; reflexivity).
  split.
  - repeat (first [apply List.Forall_nil|apply List.Forall_cons]).
    intros [v Hv]. vm_compute in Hv. discriminate Hv.
  - unfold string_valued, johns.
    repeat (first [apply List.Forall_nil|apply List.Forall_cons]);
      vm_compute; reflexivity.
Defined.

Lemma search_results_among_data_witness :
  ∃ rs,
    Plain.search ascii_lower johns (js "jon") no_options = Ok rs ∧
    r_item <$> rs ⊆+ johns ∧ length rs ≤ length johns.
Proof.
  eexists. split; [vm_compute; reflexivity|].
  apply (search_results_among_data ascii_lower 9 johns (js "jon") no_options
           Cached.cold).
  left. vm_compute. reflexivity.
Defined.

(** ** When a search raises *)

Section Raises.
Variable toLowerCase : jsstring → jsstring.
Variables (fieldWeights : gmap jsstring Q) (fieldStats : gmap jsstring FieldStats).
Variables (searchQuery : jsstring) (searchOptions : ScoreOptions).

Lemma not_a_string_false v :
  not_a_string v = false → truthy v = false ∨ ∃ s, v = JStr s.
Proof. destruct v; cbn [not_a_string]; eauto. Qed.

Lemma plain_score_field_returns item field x :
  not_a_string (getNestedValue item field) = false →
  ∃ y, Plain.score_field toLowerCase fieldWeights fieldStats searchQuery
         searchOptions item (Ok x) field = Ok y.
Proof.
  intros [Hv|[s Hv]]%not_a_string_false; unfold Plain.score_field;
    destruct x as [matches totalScore]; rewrite Hv; [by eexists|].
  destruct (negb _); [by eexists|].
  destruct (Plain.calculateFieldScore _ _ _ _ _); by eexists.
Qed.

Lemma plain_score_field_raises item field acc :
  not_a_string (getNestedValue item field) = true →
  Plain.score_field toLowerCase fieldWeights fieldStats searchQuery
    searchOptions item acc field = Throw TypeError.
Proof.
  intros Hv. unfold Plain.score_field.
  destruct acc as [[matches totalScore]|[]]; [|done].
  destruct (getNestedValue item field); cbn [not_a_string] in Hv; try done;
    by rewrite Hv.
Qed.

Lemma plain_score_fields_returns item searchFields x :
  Forall (λ field, not_a_string (getNestedValue item field) = false)
    searchFields →
  ∃ y, fold_left
         (Plain.score_field toLowerCase fieldWeights fieldStats searchQuery
            searchOptions item) searchFields (Ok x) = Ok y.
Proof.
  intros Hfs. revert x. induction Hfs as [|field searchFields Hv _ IH];
    intros x; [by eexists|].
  cbn [fold_left].
  destruct (plain_score_field_returns item field x Hv) as [y ->]. apply IH.
Qed.

Lemma plain_score_fields_raises item searchFields acc :
  Exists (λ field, not_a_string (getNestedValue item field) = true)
    searchFields →
  fold_left
    (Plain.score_field toLowerCase fieldWeights fieldStats searchQuery
       searchOptions item) searchFields acc = Throw TypeError.
Proof.
  intros Hfs. revert acc. induction Hfs as [field searchFields Hv|field searchFields _ IH];
    intros acc; cbn [fold_left]; [|apply IH].
  rewrite plain_score_field_raises by done.
  apply fold_left_Throw. by intros ? [].
Qed.

Lemma plain_scan_returns searchFields items results :
  Forall (λ item,
    Forall (λ field, not_a_string (getNestedValue item field) = false)
      searchFields) items →
  ∃ rs, fold_left
          (Plain.score_item toLowerCase fieldWeights fieldStats searchFields
             searchQuery searchOptions) items (Ok results) = Ok rs.
Proof.
  intros Hitems. revert results.
  induction Hitems as [|item items Hfs _ IH]; intros results; [by eexists|].
  cbn [fold_left]. unfold Plain.score_item at 2.
  destruct (plain_score_fields_returns item searchFields ([], 0%Q) Hfs)
    as [[[|m matches] totalScore] ->]; apply IH.
Qed.

Lemma plain_scan_raises searchFields items acc :
  Exists (λ item,
    Exists (λ field, not_a_string (getNestedValue item field) = true)
      searchFields) items →
  fold_left
    (Plain.score_item toLowerCase fieldWeights fieldStats searchFields
       searchQuery searchOptions) items acc = Throw TypeError.
Proof.
  intros Hitems. revert acc.
  induction Hitems as [item items Hfs|item items _ IH]; intros acc;
    cbn [fold_left]; [|apply IH].
  assert (Plain.score_item toLowerCase fieldWeights fieldStats searchFields
            searchQuery searchOptions acc item = Throw TypeError) as ->.
  { unfold Plain.score_item. destruct acc as [results|[]]; [|done].
    by rewrite plain_score_fields_raises. }
  apply fold_left_Throw. by intros ? [].
Qed.

Lemma cached_score_field_returns item field acc x :
  not_a_string (getNestedValue item field) = false →
  acc.1 = Ok x →
  ∃ y, (Cached.score_field toLowerCase fieldWeights fieldStats searchQuery
          searchOptions item acc field).1 = Ok y.
Proof.
  intros Hv Hacc. unfold Cached.score_field. rewrite Hacc.
  destruct x as [matches totalScore].
  destruct (not_a_string_false _ Hv) as [Hf|[s Hs]]; rewrite ?Hf, ?Hs;
    cbn [negb]; [by eexists|].
  destruct (negb _); [by eexists|].
  destruct (Cached.calculateFieldScore _ _ _ _ _ _).1; by eexists.
Qed.

Lemma cached_score_fields_returns item searchFields acc x :
  Forall (λ field, not_a_string (getNestedValue item field) = false)
    searchFields →
  acc.1 = Ok x →
  ∃ y, (fold_left
          (Cached.score_field toLowerCase fieldWeights fieldStats searchQuery
             searchOptions item) searchFields acc).1 = Ok y.
Proof.
  intros Hfs. revert acc x. induction Hfs as [|field searchFields Hv _ IH];
    intros acc x Hacc; [by eexists|].
  cbn [fold_left].
  destruct (cached_score_field_returns item field acc x Hv Hacc) as [y Hy].
  by eapply IH.
Qed.

Lemma getNestedValue_falsy item field :
  truthy item = false → getNestedValue item field = JStr [].
Proof.
  intros Hitem. unfold getNestedValue.
  assert (∀ segments, segments ≠ [] →
    fold_left
      (λ (current : JsValue) (key : jsstring),
         if truthy current && is_object current
         then match get_property current key with
              | Some v => v
              | None => JStr []
              end
         else JStr []) segments item = JStr []) as Hwalk.
  { intros [|key segments] Hne; [done|]. cbn [fold_left].
    rewrite Hitem. cbn [andb]. apply walk_from_empty. }
  rewrite Hwalk; [done|]. unfold split_dot.
  generalize (@nil code_unit). generalize 46%N.
  induction field as [|c path IH]; intros sep cur; cbn [split_on_aux]; [done|].
  case_match; [done|apply IH].
Qed.

Lemma cached_scan_returns searchFields maxResults items results cache :
  Forall (λ item,
    Forall (λ field, not_a_string (getNestedValue item field) = false)
      searchFields) items →
  ∃ rs, (Cached.collect toLowerCase fieldWeights fieldStats searchFields
           searchQuery searchOptions maxResults items results cache).1 = Ok rs.
Proof.
  intros Hitems. revert results cache.
  induction Hitems as [|item items Hfs _ IH]; intros results cache;
    cbn [Cached.collect]; [by eexists|].
  destruct (negb (truthy item)); [apply IH|].
  destruct (cached_score_fields_returns item searchFields
              (Ok ([], 0%Q), cache) _ Hfs eq_refl) as [[matches totalScore] Hy].
  rewrite Hy. case_match; [by eexists|apply IH].
Qed.

End Raises.

(** X10. The plain [search] raises exactly when the query is not blank and some
    record holds, at one of the searched fields, a truthy value that is no
    string; the error is a [TypeError]. *)
Theorem plain_search_raises_iff (toLowerCase : jsstring → jsstring)
    (data : list JsValue) (query : jsstring) (options : SearchOptions)
    (e : js_error) :
  Plain.search toLowerCase data query options = Throw e ↔
  trim query ≠ [] ∧
  ∃ item field,
    item ∈ data ∧ field ∈ plain_search_fields data options ∧
    not_a_string (getNestedValue item field) = true.
Proof.
  unfold Plain.search. fold (plain_search_fields data options).
  set (searchFields := plain_search_fields data options).
  destruct (trim query) as [|c q] eqn:Htrim; cbn [str_falsy].
  { split; [done|]. by intros [? _]. }
  destruct e.
  destruct (decide (Exists (λ item,
    Exists (λ field, not_a_string (getNestedValue item field) = true)
      searchFields) data)) as [Hbad|Hgood].
  - rewrite plain_scan_raises by done. split; [|done]. intros _.
    split; [done|]. apply Exists_exists in Hbad as (item & Hitem & Hbad).
    apply Exists_exists in Hbad as (field & Hfield & Hbad). eauto.
  - assert (Forall (λ item,
      Forall (λ field, not_a_string (getNestedValue item field) = false)
        searchFields) data) as Hall.
    { apply Forall_forall. intros item Hitem. apply Forall_forall.
      intros field Hfield.
      destruct (not_a_string (getNestedValue item field)) eqn:Hv; [|done].
      destruct Hgood. apply Exists_exists. exists item. split; [done|].
      apply Exists_exists. eauto. }
    match goal with
    | |- context [fold_left (Plain.score_item _ ?fw ?fs _ ?sq ?so) data (Ok [])] =>
        destruct (plain_scan_returns toLowerCase fw fs sq so searchFields data
                    [] Hall) as [rs ->]
    end.
    split; [done|]. intros (_ & item & field & Hitem & Hfield & Hv).
    destruct Hgood. apply Exists_exists. exists item. split; [done|].
    apply Exists_exists. eauto.
Qed.

(** X11. The cached [search] returns whenever every searched field holds a
    string or a falsy value in every record, in every state of the caches. *)
Theorem cached_search_returns (toLowerCase : jsstring → jsstring)
    (data_addr : positive) (data : list JsValue) (query : jsstring)
    (options : SearchOptions) (st : Cached.Caches) :
  string_valued data (cached_search_fields data options st) →
  ∃ rs,
    (Cached.search toLowerCase data_addr data query options st).1 = Ok rs.
Proof.
  intros Hall. unfold Cached.search.
  destruct (str_falsy (trim query)); [by eexists|]. cbn [fst].
  match goal with
  | |- context [Cached.collect _ ?fw ?fs ?sf ?sq ?so ?mx data [] ?c] =>
      destruct (cached_scan_returns toLowerCase fw fs sq so sf mx data [] c)
        as [rs ->]
  end.
  - unfold cached_search_fields in Hall.
    by destruct (fields options) as [fs|], data as [|item0 data'].
  - by eexists.
Qed.

Lemma cached_search_returns_witness :
  ∃ rs,
    (Cached.search ascii_lower 9 johns (js "doe") no_options Cached.cold).1 =
      Ok rs.
Proof.
  apply (cached_search_returns ascii_lower 9 johns (js "doe") no_options
           Cached.cold).
  replace (cached_search_fields johns no_options Cached.cold)
    with [js "name"] by (vm_compute; reflexivity).
  unfold string_valued, johns.
  repeat (first [apply List.Forall_nil|apply List.Forall_cons]);
    vm_compute; reflexivity.
Defined.

(** ** The query is trimmed *)

Lemma trimStart_head s :
  match trimStart s with
  | [] => True
  | c :: _ => is_white_space c = false
  end.
Proof.
  induction s as [|c s IH]; cbn [trimStart]; [done|].
  destruct (is_white_space c) eqn:Hc; [done|]. by rewrite Hc.
Qed.

Lemma trimStart_suffix s : ∃ pre, s = pre ++ trimStart s.
Proof.
  induction s as [|c s [pre IH]]; cbn [trimStart]; [by exists []|].
  destruct (is_white_space c); [|by exists []].
  exists (c :: pre). by rewrite IH at 1.
Qed.

Lemma trimStart_fixed s :
  match s with
  | [] => True
  | c :: _ => is_white_space c = false
  end → trimStart s = s.
Proof. destruct s as [|c s]; [done|]. cbn [trimStart]. by intros ->. Qed.

(** Trimming twice is trimming once. *)
Lemma trim_idemp s : trim (trim s) = trim s.
Proof.
  unfold trim. pose proof (trimStart_head s) as Ht.
  destruct (trimStart_suffix (reverse (trimStart s))) as [pre Hpre].
  pose proof (trimStart_head (reverse (trimStart s))) as Hu.
  set (t := trimStart s) in *. set (u := trimStart (reverse t)) in *.
  apply (f_equal reverse) in Hpre.
  rewrite reverse_involutive, reverse_app in Hpre.
  assert (trimStart (reverse u) = reverse u) as ->.
  { apply trimStart_fixed. destruct (reverse u) as [|c r] eqn:Hr; [done|].
    rewrite Hpre in Ht. done. }
  rewrite reverse_involutive. by rewrite (trimStart_fixed u).
Qed.

(** X12. Both variants see the query only through its trim: white space around
    the query changes neither the results nor the state of the caches. *)
Theorem search_trims_query (toLowerCase : jsstring → jsstring)
    (data_addr : positive) (data : list JsValue) (query : jsstring)
    (options : SearchOptions) (st : Cached.Caches) :
  Plain.search toLowerCase data (trim query) options =
    Plain.search toLowerCase data query options ∧
  Cached.search toLowerCase data_addr data (trim query) options st =
    Cached.search toLowerCase data_addr data query options st.
Proof.
  unfold Plain.search, Cached.search. by rewrite trim_idemp.
Qed.

(** ** The string cache never shows in the results *)

Section Transparent.
Variable toLowerCase : jsstring → jsstring.
Variables (fieldWeights : gmap jsstring Q) (fieldStats : gmap jsstring FieldStats).
Variable searchOptions : ScoreOptions.

(** Two runs of the scan, over well-formed string caches and with queries
    the plain matcher does not tell apart, give the same results. *)
Lemma cached_score_field_rel q1 q2 item field acc1 acc2 :
  (∀ text w,
     Plain.calculateFieldScore toLowerCase text q1 w searchOptions =
     Plain.calculateFieldScore toLowerCase text q2 w searchOptions) →
  string_cache_ok toLowerCase acc1.2 → string_cache_ok toLowerCase acc2.2 →
  acc1.1 = acc2.1 →
  (Cached.score_field toLowerCase fieldWeights fieldStats q1 searchOptions
     item acc1 field).1 =
  (Cached.score_field toLowerCase fieldWeights fieldStats q2 searchOptions
     item acc2 field).1.
Proof.
  intros Hq Hok1 Hok2 Hacc. unfold Cached.score_field.
  destruct acc1 as [o c1], acc2 as [o2 c2]. cbn [fst snd] in *. subst o2.
  destruct o as [[matches totalScore]|e]; [|done].
  destruct (negb _); [done|].
  destruct (getNestedValue item field) as [| | | |text| | |]; try done.
  destruct (cached_calculateFieldScore_plain toLowerCase text q1
    (field_weight fieldWeights fieldStats field) searchOptions c1 Hok1)
    as [-> _].
  destruct (cached_calculateFieldScore_plain toLowerCase text q2
    (field_weight fieldWeights fieldStats field) searchOptions c2 Hok2)
    as [-> _].
  rewrite Hq. by destruct (Plain.calculateFieldScore _ _ _ _ _).
Qed.

Lemma cached_score_fields_rel q1 q2 item searchFields acc1 acc2 :
  (∀ text w,
     Plain.calculateFieldScore toLowerCase text q1 w searchOptions =
     Plain.calculateFieldScore toLowerCase text q2 w searchOptions) →
  string_cache_ok toLowerCase acc1.2 → string_cache_ok toLowerCase acc2.2 →
  acc1.1 = acc2.1 →
  (fold_left
     (Cached.score_field toLowerCase fieldWeights fieldStats q1 searchOptions
        item) searchFields acc1).1 =
  (fold_left
     (Cached.score_field toLowerCase fieldWeights fieldStats q2 searchOptions
        item) searchFields acc2).1.
Proof.
  intros Hq. revert acc1 acc2.
  induction searchFields as [|field searchFields IH];
    intros acc1 acc2 Hok1 Hok2 Hacc; [done|].
  cbn [fold_left]. apply IH; [by apply score_field_cache_ok..|].
  by apply cached_score_field_rel.
Qed.

Lemma cached_scan_rel q1 q2 searchFields maxResults items results c1 c2 :
  (∀ text w,
     Plain.calculateFieldScore toLowerCase text q1 w searchOptions =
     Plain.calculateFieldScore toLowerCase text q2 w searchOptions) →
  string_cache_ok toLowerCase c1 → string_cache_ok toLowerCase c2 →
  (Cached.collect toLowerCase fieldWeights fieldStats searchFields q1
     searchOptions maxResults items results c1).1 =
  (Cached.collect toLowerCase fieldWeights fieldStats searchFields q2
     searchOptions maxResults items results c2).1.
Proof.
  intros Hq. revert results c1 c2.
  induction items as [|item items IH]; intros results c1 c2 Hok1 Hok2;
    cbn [Cached.collect]; [done|].
  destruct (negb (truthy item)); [by apply IH|].
  pose proof (cached_score_fields_rel q1 q2 item searchFields
    (Ok ([], 0%Q), c1) (Ok ([], 0%Q), c2) Hq Hok1 Hok2 eq_refl) as Hr.
  pose proof (score_fields_cache_ok toLowerCase fieldWeights fieldStats q1
    searchOptions item searchFields (Ok ([], 0%Q), c1) Hok1) as Hok1'.
  pose proof (score_fields_cache_ok toLowerCase fieldWeights fieldStats q2
    searchOptions item searchFields (Ok ([], 0%Q), c2) Hok2) as Hok2'.
  destruct (fold_left _ searchFields (Ok ([], 0%Q), c1)) as [o1 c1'].
  destruct (fold_left _ searchFields (Ok ([], 0%Q), c2)) as [o2 c2'].
  cbn [fst snd] in *. subst o2.
  destruct o1 as [[matches totalScore]|e]; [|done].
  case_match; [done|by apply IH].
Qed.

End Transparent.

Lemma cached_search_rel (toLowerCase : jsstring → jsstring)
    data_addr data q1 q2 options st1 st2 :
  str_falsy (trim q1) = str_falsy (trim q2) →
  (∀ text w so,
     o_caseSensitive so = default DEFAULT_caseSensitive (caseSensitive options) →
     Plain.calculateFieldScore toLowerCase text (trim q1) w so =
     Plain.calculateFieldScore toLowerCase text (trim q2) w so) →
  Cached.fieldDetectionCache st1 = Cached.fieldDetectionCache st2 →
  Cached.fieldStatsCache st1 = Cached.fieldStatsCache st2 →
  string_cache_ok toLowerCase (Cached.stringProcessingCache st1) →
  string_cache_ok toLowerCase (Cached.stringProcessingCache st2) →
  (Cached.search toLowerCase data_addr data q1 options st1).1 =
  (Cached.search toLowerCase data_addr data q2 options st2).1.
Proof.
  intros Hblank Hq Hdet Hstats Hok1%count_call_cache_ok Hok2%count_call_cache_ok.
  unfold Cached.search. rewrite <- Hblank.
  destruct (str_falsy (trim q1)); [done|]. cbn [fst].
  cbn [Cached.count_call Cached.fieldDetectionCache Cached.fieldStatsCache].
  rewrite <- Hdet, <- Hstats.
  match goal with
  | |- context [Cached.collect _ ?fw ?fs ?sf (trim q1) ?so ?mx data [] ?c1] =>
      match goal with
      | |- context [Cached.collect _ _ _ _ (trim q2) _ _ data [] ?c2] =>
          rewrite (cached_scan_rel toLowerCase fw fs so (trim q1) (trim q2)
                     sf mx data [] c1 c2)
      end
  end; [done| |done..].
  intros text w. by apply Hq.
Qed.

(** X13. On a collection in which every searched field holds a string or a
    falsy value in every record, in any two states the module can reach
    that agree on the two [WeakMap]s, a call of [search] gives the same
    result: the string cache, the call counter and the periodic cleanup do
    not show in the result. In particular [clearSearchCaches] does not
    change it. *)
Theorem results_ignore_string_cache (toLowerCase : jsstring → jsstring)
    (data_addr : positive) (data : list JsValue) (query : jsstring)
    (options : SearchOptions) (st1 st2 : Cached.Caches) :
  string_valued data (cached_search_fields data options st1) →
  Cached.reachable toLowerCase st1 → Cached.reachable toLowerCase st2 →
  Cached.fieldDetectionCache st1 = Cached.fieldDetectionCache st2 →
  Cached.fieldStatsCache st1 = Cached.fieldStatsCache st2 →
  (Cached.search toLowerCase data_addr data query options st1).1 =
    (Cached.search toLowerCase data_addr data query options st2).1 ∧
  (Cached.search toLowerCase data_addr data query options
     (Cached.clearSearchCaches st1)).1 =
    (Cached.search toLowerCase data_addr data query options st1).1.
Proof.
  intros _ Hr1%reachable_string_cache_ok Hr2%reachable_string_cache_ok
    Hdet Hstats.
  split; apply cached_search_rel; try done. constructor.
Qed.

Lemma results_ignore_string_cache_witness :
  (Cached.search ascii_lower 9 notes (js "world") no_options warm_notes).1 =
    (Cached.search ascii_lower 9 notes (js "world") no_options
       (Cached.search ascii_lower 9 notes (js "hello world")
          (only_fields [js "body"]) warm_notes).2).1 ∧
  (Cached.search ascii_lower 9 notes (js "world") no_options
     (Cached.clearSearchCaches warm_notes)).1 =
    (Cached.search ascii_lower 9 notes (js "world") no_options warm_notes).1.
Proof.
  assert (Cached.reachable ascii_lower warm_notes) as Hr
    by apply Cached.reachable_search, Cached.reachable_cold.
  apply (results_ignore_string_cache ascii_lower 9 notes (js "world")
           no_options warm_notes
           (Cached.search ascii_lower 9 notes (js "hello world")
              (only_fields [js "body"]) warm_notes).2);
    [|exact Hr|by apply Cached.reachable_search|reflexivity|reflexivity].
  replace (cached_search_fields notes no_options warm_notes)
    with [js "title"; js "body"] by (vm_compute; reflexivity).
  unfold string_valued, notes.
  repeat (first [apply List.Forall_nil|apply List.Forall_cons]);
    vm_compute; reflexivity.
Defined.

(** ** The case of the query *)

Lemma fold_left_pointwise {A B} (f g : A → B → A) (l : list B) (a : A) :
  (∀ a x, f a x = g a x) → fold_left f l a = fold_left g l a.
Proof.
  intros Hfg. revert a. induction l as [|x l IH]; intros a; [done|].
  cbn [fold_left]. by rewrite Hfg, IH.
Qed.

Lemma plain_scan_ext (toLowerCase : jsstring → jsstring) fieldWeights fieldStats
    searchFields searchOptions q1 q2 items acc :
  (∀ text w,
     Plain.calculateFieldScore toLowerCase text q1 w searchOptions =
     Plain.calculateFieldScore toLowerCase text q2 w searchOptions) →
  fold_left
    (Plain.score_item toLowerCase fieldWeights fieldStats searchFields q1
       searchOptions) items acc =
  fold_left
    (Plain.score_item toLowerCase fieldWeights fieldStats searchFields q2
       searchOptions) items acc.
Proof.
  intros Hq. apply fold_left_pointwise. intros results item.
  unfold Plain.score_item.
  rewrite (fold_left_pointwise
    (Plain.score_field toLowerCase fieldWeights fieldStats q1 searchOptions item)
    (Plain.score_field toLowerCase fieldWeights fieldStats q2 searchOptions item));
    [done|].
  intros [[matches totalScore]|e] field; unfold Plain.score_field; [|done].
  destruct (negb _); [done|].
  destruct (getNestedValue item field) as [| | | |text| | |]; try done.
  by rewrite Hq.
Qed.

(** X14. Unless [caseSensitive] is set, two queries whose trims have the same
    lower-casing give the same results: in the plain variant always, in the
    cached variant on a collection in which every searched field holds a
    string or a falsy value in every record. *)
Theorem query_case_insensitive (toLowerCase : jsstring → jsstring)
    (data_addr : positive) (data : list JsValue) (q1 q2 : jsstring)
    (options : SearchOptions) (st : Cached.Caches) :
  caseSensitive options ≠ Some true →
  toLowerCase (trim q1) = toLowerCase (trim q2) →
  trim q1 ≠ [] → trim q2 ≠ [] →
  Cached.reachable toLowerCase st →
  Plain.search toLowerCase data q1 options =
    Plain.search toLowerCase data q2 options ∧
  (string_valued data (cached_search_fields data options st) →
   (Cached.search toLowerCase data_addr data q1 options st).1 =
     (Cached.search toLowerCase data_addr data q2 options st).1).
Proof.
  intros Hcs Hlower Hq1 Hq2 Hok%reachable_string_cache_ok.
  assert (default DEFAULT_caseSensitive (caseSensitive options) = false) as Hdef.
  { by destruct (caseSensitive options) as [[]|]. }
  assert (∀ text w so,
    o_caseSensitive so = default DEFAULT_caseSensitive (caseSensitive options) →
    Plain.calculateFieldScore toLowerCase text (trim q1) w so =
    Plain.calculateFieldScore toLowerCase text (trim q2) w so) as Hq.
  { intros text w so Hso. unfold Plain.calculateFieldScore, Plain.normalize.
    rewrite Hso, Hdef, Hlower.
    by destruct (trim q1), (trim q2). }
  assert (str_falsy (trim q1) = str_falsy (trim q2)) as Hblank
    by by destruct (trim q1), (trim q2).
  split; [|intros _; by apply cached_search_rel].
  unfold Plain.search. rewrite <- Hblank.
  destruct (str_falsy (trim q1)); [done|].
  match goal with
  | |- context [fold_left (Plain.score_item _ ?fw ?fs ?sf (trim q1) ?so) data
                  (Ok [])] =>
      rewrite (plain_scan_ext toLowerCase fw fs sf so (trim q1) (trim q2))
  end; [done|].
  intros text w. by apply Hq.
Qed.

Lemma query_case_insensitive_witness :
  Plain.search ascii_lower johns (js "JOHN") no_options =
    Plain.search ascii_lower johns (js " john") no_options ∧
  (Cached.search ascii_lower 9 johns (js "JOHN") no_options Cached.cold).1 =
    (Cached.search ascii_lower 9 johns (js " john") no_options Cached.cold).1.
Proof.
  destruct (query_case_insensitive ascii_lower 9 johns (js "JOHN")
              (js " john") no_options Cached.cold) as [Hplain Hcached];
    [done|reflexivity|done|done|apply Cached.reachable_cold|].
  split; [exact Hplain|]. apply Hcached.
  replace (cached_search_fields johns no_options Cached.cold)
    with [js "name"] by (vm_compute; reflexivity).
  unfold string_valued, johns.
  repeat (first [apply List.Forall_nil|apply List.Forall_cons]);
    vm_compute; reflexivity.
Defined.

(** ** When the two variants agree *)

Section Agreement.
Variable toLowerCase : jsstring → jsstring.
Variables (fieldWeights : gmap jsstring Q) (fieldStats : gmap jsstring FieldStats).
Variables (searchFields : list jsstring) (searchQuery : jsstring).
Variable searchOptions : ScoreOptions.

Lemma cached_score_fields_plain item fs acc :
  string_cache_ok toLowerCase acc.2 →
  (fold_left
     (Cached.score_field toLowerCase fieldWeights fieldStats searchQuery
        searchOptions item) fs acc).1 =
  fold_left
    (Plain.score_field toLowerCase fieldWeights fieldStats searchQuery
       searchOptions item) fs acc.1.
Proof.
  revert acc. induction fs as [|field fs IH]; intros acc Hok; [done|].
  cbn [fold_left]. rewrite IH by by apply score_field_cache_ok.
  f_equal. unfold Cached.score_field, Plain.score_field.
  destruct acc as [[[matches totalScore]|e] cache]; cbn [fst snd] in *; [|done].
  destruct (negb _); [done|].
  destruct (getNestedValue item field) as [| | | |text| | |]; try done.
  destruct (cached_calculateFieldScore_plain toLowerCase text searchQuery
    (field_weight fieldWeights fieldStats field) searchOptions cache Hok)
    as [-> _].
  by destruct (Plain.calculateFieldScore _ _ _ _ _).
Qed.

(** The plain loop finds nothing in a falsy record, which the cached loop
    skips. *)
Lemma plain_score_item_falsy item results :
  truthy item = false →
  Plain.score_item toLowerCase fieldWeights fieldStats searchFields searchQuery
    searchOptions (Ok results) item = Ok results.
Proof.
  intros Hitem. unfold Plain.score_item.
  assert (∀ fs,
    fold_left
      (Plain.score_field toLowerCase fieldWeights fieldStats searchQuery
         searchOptions item) fs (Ok ([], 0%Q)) = Ok ([], 0%Q)) as ->; [|done].
  induction fs as [|field fs IH]; [done|]. cbn [fold_left].
  unfold Plain.score_field at 2. by rewrite getNestedValue_falsy.
Qed.

(** A scan that cannot reach its cutoff is the plain scan. *)
Lemma cached_scan_plain maxResults items results cache :
  (Z.of_nat (length results + length items) ≤ maxResults)%Z →
  string_cache_ok toLowerCase cache →
  (Cached.collect toLowerCase fieldWeights fieldStats searchFields searchQuery
     searchOptions maxResults items results cache).1 =
  fold_left
    (Plain.score_item toLowerCase fieldWeights fieldStats searchFields
       searchQuery searchOptions) items (Ok results).
Proof.
  revert results cache. induction items as [|item items IH];
    intros results cache Hmax Hok; cbn [Cached.collect fold_left]; [done|].
  cbn [length] in Hmax.
  destruct (truthy item) eqn:Hitem; cbn [negb].
  2:{ rewrite plain_score_item_falsy by done. apply IH; [lia|done]. }
  pose proof (cached_score_fields_plain item searchFields
    (Ok ([], 0%Q), cache) Hok) as Hr.
  pose proof (score_fields_cache_ok toLowerCase fieldWeights fieldStats
    searchQuery searchOptions item searchFields (Ok ([], 0%Q), cache) Hok)
    as Hok'.
  unfold Plain.score_item at 2. cbn [fst] in Hr. rewrite <- Hr.
  destruct (fold_left _ searchFields (Ok ([], 0%Q), cache)) as [o cache'].
  cbn [fst snd] in *.
  destruct o as [[matches totalScore]|e].
  2:{ rewrite fold_left_Throw; [done|by intros ??]. }
  set (results' := match matches with [] => results | _ => _ end).
  assert (length results' ≤ length results + 1) as Hlen.
  { destruct matches; subst results'; [lia|]. rewrite length_app. simpl. lia. }
  assert (match matches with
          | [] => Ok results
          | _ => Ok (results ++
                     [{| r_item := item; r_score := totalScore;
                         r_matches := matches |}])
          end = Ok results') as -> by by destruct matches.
  case_match eqn:Hstop.
  - apply Z.leb_le in Hstop.
    assert (items = []) as -> by (destruct items; [done|simpl in *; lia]).
    done.
  - apply IH; [lia|done].
Qed.

End Agreement.

(** X15. On a collection of at most 100 records whose statistics are not
    cached and in which every searched field holds a string or a falsy
    value in every record, searched over the same fields and with a limit
    that cannot cut the scan short, the cached [search] returns what the
    plain [search] returns. *)
Theorem variants_agree (toLowerCase : jsstring → jsstring)
    (data_addr : positive) (data : list JsValue) (query : jsstring)
    (options : SearchOptions) (st : Cached.Caches) :
  string_valued data (plain_search_fields data options) →
  Cached.reachable toLowerCase st →
  cached_search_fields data options st = plain_search_fields data options →
  Cached.fieldStatsCache st !! data_addr = None →
  length data ≤ 100 →
  (Z.of_nat (length data) ≤ 3 * default DEFAULT_limit (limit options))%Z ∨
    limit options = Some 0%Z →
  (Cached.search toLowerCase data_addr data query options st).1 =
    Plain.search toLowerCase data query options.
Proof.
  intros _ Hok%reachable_string_cache_ok%count_call_cache_ok Hfields Hmiss
    Hlen Hlimit.
  unfold Cached.search, Plain.search.
  destruct (str_falsy (trim query)); [done|]. cbn [fst].
  cbn [Cached.count_call Cached.fieldDetectionCache Cached.fieldStatsCache].
  rewrite Hmiss. cbn [fst].
  fold (plain_search_fields data options).
  match goal with
  | |- context [Cached.collect _ _ _ ?sf _ _ _ data [] _] =>
      replace sf with (plain_search_fields data options)
        by (rewrite <- Hfields; unfold cached_search_fields;
            by destruct (fields options), data)
  end.
  rewrite cached_scan_plain; [|cbn [length]|done].
  - rewrite (fold_left_pointwise
      (λ stats field,
         <[field := Cached.calculateFieldStats toLowerCase data field]> stats)
      (λ stats field,
         <[field := Plain.calculateFieldStats toLowerCase data field]> stats));
      [done|].
    intros stats field. rewrite cached_calculateFieldStats_sample.
    by rewrite take_ge by lia.
  - destruct Hlimit as [Hlimit| ->]; cbn [from_option id].
    + case_match; lia.
    + cbn. lia.
Qed.

Lemma variants_agree_witness :
  (Cached.search ascii_lower 9 johns (js "jon") no_options Cached.cold).1 =
    Plain.search ascii_lower johns (js "jon") no_options.
Proof.
  apply (variants_agree ascii_lower 9 johns (js "jon") no_options Cached.cold);
    [|apply Cached.reachable_cold|reflexivity|reflexivity|vm_compute; lia
     |left; by vm_compute].
  replace (plain_search_fields johns no_options)
    with [js "name"] by (vm_compute; reflexivity).
  unfold string_valued, johns.
  repeat (first [apply List.Forall_nil|apply List.Forall_cons]);
    vm_compute; reflexivity.
Defined.

(** ** The entry points built on [search] *)

Section EntryPoints.
Variable toLowerCase : jsstring → jsstring.

(** [search] reads its options only through the values it destructures: an
    option left out and an option set to its default are the same. *)
Lemma search_options_ext data_addr data query o1 o2 st :
  fields o1 = fields o2 →
  default DEFAULT_fieldWeights (fieldWeights o1) =
    default DEFAULT_fieldWeights (fieldWeights o2) →
  default DEFAULT_fuzzyThreshold (fuzzyThreshold o1) =
    default DEFAULT_fuzzyThreshold (fuzzyThreshold o2) →
  default DEFAULT_minFuzzyLength (minFuzzyLength o1) =
    default DEFAULT_minFuzzyLength (minFuzzyLength o2) →
  default DEFAULT_limit (limit o1) = default DEFAULT_limit (limit o2) →
  default DEFAULT_caseSensitive (caseSensitive o1) =
    default DEFAULT_caseSensitive (caseSensitive o2) →
  Plain.search toLowerCase data query o1 =
    Plain.search toLowerCase data query o2 ∧
  Cached.search toLowerCase data_addr data query o1 st =
    Cached.search toLowerCase data_addr data query o2 st.
Proof.
  intros Hf Hw Ht Hm Hl Hc. unfold Plain.search, Cached.search.
  by rewrite Hf, Hw, Ht, Hm, Hl, Hc.
Qed.

(** X16. A searcher called without overrides is [search] with the configuration
    it was made from, and the document searcher is [search] itself: called
    with [overrides] it returns what [search] returns for these as options,
    in both variants. *)
Theorem createDocumentSearcher_is_search (data_addr : positive)
    (data : list JsValue) (query : jsstring) (config : SearchOptions)
    (overrides : Overrides) (st : Cached.Caches) :
  Plain.createSearcher toLowerCase config data query no_overrides =
    Plain.search toLowerCase data query config ∧
  Cached.createSearcher toLowerCase config data_addr data query no_overrides st
    = Cached.search toLowerCase data_addr data query config st ∧
  Plain.createDocumentSearcher toLowerCase data query overrides =
    Plain.search toLowerCase data query (spread no_options overrides) ∧
  Cached.createDocumentSearcher toLowerCase data_addr data query overrides st =
    Cached.search toLowerCase data_addr data query
      (spread no_options overrides) st.
Proof.
  unfold Plain.createDocumentSearcher, Cached.createDocumentSearcher,
    Plain.createSearcher, Cached.createSearcher.
  split; [by destruct config|]. split; [by destruct config|].
  apply search_options_ext; unfold spread, no_options;
    cbn [fields fieldWeights fuzzyThreshold minFuzzyLength limit caseSensitive];
    [done|..].
  - by destruct (ov_fieldWeights overrides).
  - by destruct (ov_fuzzyThreshold overrides).
  - by destruct (ov_minFuzzyLength overrides).
  - by destruct (ov_limit overrides).
  - by destruct (ov_caseSensitive overrides).
Qed.

(** X17. [quickSearch] is [searchItems] over the given fields with no other
    option, and so returns at most 100 records for a query that is not
    blank. *)
Theorem quickSearch_is_searchItems (data_addr : positive)
    (data : list JsValue) (query : jsstring) (fs : option (list jsstring))
    (st : Cached.Caches) :
  Plain.quickSearch toLowerCase data query fs =
    Plain.searchItems toLowerCase data query
      {| fields := fs; fieldWeights := None; fuzzyThreshold := None;
         minFuzzyLength := None; limit := None; caseSensitive := None |} ∧
  Cached.quickSearch toLowerCase data_addr data query fs st =
    Cached.searchItems toLowerCase data_addr data query
      {| fields := fs; fieldWeights := None; fuzzyThreshold := None;
         minFuzzyLength := None; limit := None; caseSensitive := None |} st ∧
  (trim query ≠ [] →
   (∀ items, Plain.quickSearch toLowerCase data query fs = Ok items →
      length items ≤ 100) ∧
   (∀ items,
      (Cached.quickSearch toLowerCase data_addr data query fs st).1 = Ok items →
      length items ≤ 100)).
Proof.
  set (options :=
    {| fields := fs; fieldWeights := None; fuzzyThreshold := None;
       minFuzzyLength := None; limit := None; caseSensitive := None |}).
  split; [done|]. split; [done|]. intros Hq.
  unfold Plain.quickSearch, Cached.quickSearch, Plain.searchItems,
    Cached.searchItems. cbn [fst]. split; intros items.
  - pose proof (plain_search_limit toLowerCase data query options 100
      ltac:(lia) Hq) as Hlim.
    change (with_limit options (Z.of_nat 100)) with
      {| fields := fs; fieldWeights := None; fuzzyThreshold := None;
         minFuzzyLength := None; limit := Some DEFAULT_limit;
         caseSensitive := None |} in Hlim.
    destruct (search_options_ext data_addr data query
      {| fields := fs; fieldWeights := Some DEFAULT_fieldWeights;
         fuzzyThreshold := Some DEFAULT_fuzzyThreshold;
         minFuzzyLength := Some DEFAULT_minFuzzyLength;
         limit := Some DEFAULT_limit;
         caseSensitive := Some DEFAULT_caseSensitive |}
      {| fields := fs; fieldWeights := None; fuzzyThreshold := None;
         minFuzzyLength := None; limit := Some DEFAULT_limit;
         caseSensitive := None |} st) as [-> _]; try done.
    rewrite Hlim. clear Hlim.
    destruct (Plain.search _ _ _ _) as [rs|e]; cbn [outcome_map]; [|done].
    intros [= <-]. rewrite length_fmap, length_take. lia.
  - destruct (Cached.search _ _ _ _ _ _).1 as [rs|e] eqn:Hrs;
      cbn [outcome_map]; [|done].
    intros [= <-]. rewrite length_fmap.
    apply (cached_search_at_most toLowerCase data_addr data query
      {| fields := fs; fieldWeights := Some DEFAULT_fieldWeights;
         fuzzyThreshold := Some DEFAULT_fuzzyThreshold;
         minFuzzyLength := Some DEFAULT_minFuzzyLength;
         limit := Some DEFAULT_limit;
         caseSensitive := Some DEFAULT_caseSensitive |} 100 st rs);
      [lia|done|exact Hrs].
Qed.

End EntryPoints.

(** ** Field detection *)

Lemma split_on_aux_last sep cur k :
  sep ∉ k → split_on_aux sep cur k = [reverse cur ++ k].
Proof.
  revert cur. induction k as [|c k IH]; intros cur Hk; cbn [split_on_aux].
  - by rewrite app_nil_r.
  - apply not_elem_of_cons in Hk as [Hc Hk].
    destruct (N.eqb_spec c sep) as [->|_]; [done|].
    rewrite IH by done. by rewrite reverse_cons, <- (assoc_L (++)).
Qed.

Lemma split_on_aux_snoc sep cur s k :
  sep ∉ k →
  split_on_aux sep cur (s ++ sep :: k) = split_on_aux sep cur s ++ [k].
Proof.
  intros Hk. revert cur. induction s as [|c s IH]; intros cur;
    cbn [app split_on_aux].
  - rewrite N.eqb_refl. by rewrite split_on_aux_last.
  - destruct (c =? sep)%N; [|apply IH]. by rewrite IH.
Qed.

(** The path [detectStringFields] builds from the keys [segments] under
    [prefix] splits back into the segments of [prefix] and these keys. *)
Lemma split_dot_join (segments : list jsstring) (prefix : jsstring) :
  prefix ≠ [] →
  Forall (λ k : jsstring, k ≠ [] ∧ (46%N ∉ k)) segments →
  split_dot
    (fold_left
       (λ prefix key : jsstring,
          if str_falsy prefix then key else prefix ++ js "." ++ key)
       segments prefix) =
  split_dot prefix ++ segments.
Proof.
  intros Hp Hsegs. revert prefix Hp.
  induction Hsegs as [|k segments [Hk Hdot] _ IH]; intros prefix Hp;
    cbn [fold_left]; [by rewrite app_nil_r|].
  destruct prefix as [|c prefix]; [done|]. cbn [str_falsy].
  rewrite IH by done. unfold split_dot.
  change (js "." ++ k) with (46%N :: k).
  rewrite split_on_aux_snoc by done. by rewrite <- (assoc_L (++)).
Qed.

Lemma get_property_own a props k v :
  NoDup props.*1 → (k, v) ∈ props →
  get_property (JObj a props) k = Some v.
Proof.
  cbn [get_property]. induction props as [|[k' v'] props IH];
    intros Hnd Hin; [by apply elem_of_nil in Hin|].
  cbn [fmap list_fmap fst] in Hnd. apply NoDup_cons in Hnd as [Hk' Hnd].
  cbn [find fst]. case_bool_decide as Hk.
  - subst k'. apply elem_of_cons in Hin as [[= ->]|Hin]; [done|].
    destruct Hk'. apply list_elem_of_fmap. by exists (k, v).
  - apply elem_of_cons in Hin as [[= -> ->]|Hin]; [done|]. by apply IH.
Qed.

(** The loop over the entries appends, for each entry, the paths found
    there. *)
Lemma plain_detect_entries d prefix (props : list (jsstring * JsValue)) fields :
  fold_left
    (λ fields kv,
       let fieldPath :=
         if str_falsy prefix then kv.1 else prefix ++ js "." ++ kv.1 in
       match kv.2 with
       | JStr (_ :: _) => fields ++ [fieldPath]
       | JObj _ _ => fields ++ Plain.detectStringFields d kv.2 fieldPath
       | _ => fields
       end) props fields =
  fields ++
  (props ≫= λ kv,
     let fieldPath :=
       if str_falsy prefix then kv.1 else prefix ++ js "." ++ kv.1 in
     match kv.2 with
     | JStr (_ :: _) => [fieldPath]
     | JObj _ _ => Plain.detectStringFields d kv.2 fieldPath
     | _ => []
     end).
Proof.
  revert fields. induction props as [|[k v] props IH]; intros fields;
    cbn [fold_left]; [by rewrite app_nil_r|].
  rewrite IH. cbn [mbind list_bind fst snd]. cbv zeta.
  destruct v as [| | | |[|c s]| | |]; cbn [app]; try done;
    by rewrite <- app_assoc.
Qed.

(** Every path detected in an object with well-formed keys leads, key by
    key, to a non-empty string of the object. *)
Lemma plain_detect_walk d a props prefix path :
  dotless_keys d (JObj a props) →
  path ∈ Plain.detectStringFields d (JObj a props) prefix →
  ∃ segments c s,
    segments ≠ [] ∧
    Forall (λ k : jsstring, k ≠ [] ∧ (46%N ∉ k)) segments ∧
    path =
      fold_left
        (λ prefix key : jsstring,
           if str_falsy prefix then key else prefix ++ js "." ++ key)
        segments prefix ∧
    fold_left
      (λ current key,
         if truthy current && is_object current then
           match get_property current key with
           | Some v => v
           | None => JStr []
           end
         else JStr [])
      segments (JObj a props) = JStr (c :: s).
Proof.
  revert a props prefix path. induction d as [|d IH];
    intros a props prefix path Hkeys; cbn [Plain.detectStringFields].
  { by intros ?%elem_of_nil. }
  cbn [truthy is_object andb negb entries].
  rewrite plain_detect_entries. cbn [app].
  intros ([k v] & Hpath & Hkv)%list_elem_of_bind.
  cbn [dotless_keys] in Hkeys. destruct Hkeys as [Hnd Hprops].
  pose proof (get_property_own a props k v Hnd Hkv) as Hget.
  eapply Forall_forall in Hprops; [|exact Hkv].
  cbn [fst snd] in *. destruct Hprops as (Hk & Hdot & Hv).
  destruct v as [| | | |[|c s]|a' props'| |]; try by apply elem_of_nil in Hpath.
  - apply list_elem_of_singleton in Hpath as ->.
    exists [k], c, s. split_and!; [done|by repeat constructor|done|].
    cbn [fold_left truthy is_object andb]. by rewrite Hget.
  - destruct (IH a' props' _ path Hv Hpath)
      as (segments & c & s & Hne & Hsegs & -> & Hwalk).
    exists (k :: segments), c, s.
    split_and!; [done|by constructor|done|].
    cbn [fold_left truthy is_object andb]. by rewrite Hget.
Qed.

(** X18. Every path that [detectStringFields] finds in a record whose keys are
    distinct, not empty and free of dots resolves in that record, by
    [getNestedValue], to a non-empty string. *)
Theorem detected_fields_resolve (maxDepth : nat) (a : positive)
    (props : list (jsstring * JsValue)) (path : jsstring) :
  dotless_keys maxDepth (JObj a props) →
  path ∈ Plain.detectStringFields maxDepth (JObj a props) [] →
  ∃ c s, getNestedValue (JObj a props) path = JStr (c :: s).
Proof.
  intros Hkeys Hpath.
  destruct (plain_detect_walk maxDepth a props [] path Hkeys Hpath)
    as (segments & c & s & Hne & Hsegs & -> & Hwalk).
  exists c, s. unfold getNestedValue.
  destruct Hsegs as [|k segments [Hk Hdot] Hsegs]; [done|].
  match goal with
  | |- context [split_dot ?p] =>
      assert (split_dot p = k :: segments) as ->
  end.
  { cbn [fold_left str_falsy]. rewrite split_dot_join by done.
    unfold split_dot. by rewrite split_on_aux_last. }
  by rewrite Hwalk.
Qed.

Lemma detected_fields_resolve_witness :
  js "address.city" ∈ Plain.detectStringFields 3 resident [] ∧
  ∃ c s, getNestedValue resident (js "address.city") = JStr (c :: s).
Proof.
  assert (js "address.city" ∈ Plain.detectStringFields 3 resident []) as Hin.
  { apply (list_elem_of_lookup_2 _ 1). reflexivity. }
  split; [exact Hin|].
  apply (detected_fields_resolve 3 1 _ (js "address.city")); [|exact Hin].
  vm_compute. repeat constructor; try discriminate;
    try (intros Hin'; repeat (apply elem_of_cons in Hin' as [Hin'|Hin'];
           [discriminate Hin'|]); by apply elem_of_nil in Hin').
Defined.

(** *** The cache of the detected fields *)

Lemma cached_detect_entries d prefix (l : list (jsstring * JsValue)) fields
    (cache : gmap positive (list jsstring)) :
  (∀ obj p (cache : gmap positive (list jsstring)), p ≠ [] →
     Cached.detectStringFields d obj p cache =
       (Plain.detectStringFields d obj p, cache)) →
  Forall
    (λ kv : jsstring * JsValue,
       (if str_falsy prefix then kv.1 else prefix ++ js "." ++ kv.1) ≠ []) l →
  fold_left
    (λ (acc : list jsstring * gmap positive (list jsstring)) kv,
       let fieldPath :=
         if str_falsy prefix then kv.1 else prefix ++ js "." ++ kv.1 in
       match kv.2 with
       | JStr (_ :: _) => (acc.1 ++ [fieldPath], acc.2)
       | JObj _ _ =>
           let sub := Cached.detectStringFields d kv.2 fieldPath acc.2 in
           (acc.1 ++ sub.1, sub.2)
       | _ => acc
       end) l (fields, cache) =
  (fold_left
     (λ fields kv,
        let fieldPath :=
          if str_falsy prefix then kv.1 else prefix ++ js "." ++ kv.1 in
        match kv.2 with
        | JStr (_ :: _) => fields ++ [fieldPath]
        | JObj _ _ => fields ++ Plain.detectStringFields d kv.2 fieldPath
        | _ => fields
        end) l fields,
   cache).
Proof.
  intros Hd Hl. revert fields. induction Hl as [|[k v] l Hk _ IH];
    intros fields; cbn [fold_left]; [done|].
  cbn [fst snd] in *. cbv zeta.
  destruct v as [| | | |[|c s]|a' props'| |]; try apply IH.
  rewrite Hd by done. apply IH.
Qed.

Local Ltac use_fold H :=
  match type of H with
  | ?lhs = _ =>
      match goal with
      | |- context [fold_left ?f ?l (@nil jsstring, ?cache)] =>
          change (fold_left f l (@nil jsstring, cache)) with lhs; rewrite H
      end
  end.

(** Below the root, where the prefix is not empty, the cache is neither
    read nor written. *)
Lemma cached_detect_nested d obj prefix
    (cache : gmap positive (list jsstring)) :
  prefix ≠ [] →
  Cached.detectStringFields d obj prefix cache =
    (Plain.detectStringFields d obj prefix, cache).
Proof.
  revert obj prefix cache. induction d as [|d IH]; intros obj prefix cache Hp;
    cbn [Cached.detectStringFields Plain.detectStringFields]; [done|].
  destruct prefix as [|c prefix]; [done|]. cbn [str_falsy].
  destruct obj as [| |b|q|s|a props|a elems|b];
    cbn [addr_of truthy is_object]; rewrite ?andb_false_r; try done;
    cbn [andb negb].
  - pose proof (cached_detect_entries d (c :: prefix) props [] cache IH
      ltac:(by apply Forall_true)) as Hfold.
    by use_fold Hfold.
  - pose proof (cached_detect_entries d (c :: prefix)
      (imap (λ i x, (index_key i, x)) elems) [] cache IH
      ltac:(by apply Forall_true)) as Hfold.
    by use_fold Hfold.
  - by destruct b.
Qed.

(** X19. A detection on an object that was detected before returns the list of
    the first detection, whatever the object holds by then, and leaves the
    cache as it is. The first detection on an object whose keys are not
    empty computes what the plain variant computes and stores it under the
    identity of the object. *)
Theorem cached_detectStringFields_plain (d : nat) (obj : JsValue)
    (a : positive) (cache : gmap positive (list jsstring)) :
  addr_of obj = Some a →
  (∀ obj',
     addr_of obj' = Some a →
     Cached.detectStringFields (S d) obj' []
       (Cached.detectStringFields (S d) obj [] cache).2 =
     Cached.detectStringFields (S d) obj [] cache) ∧
  (cache !! a = None →
   Forall (λ kv : jsstring * JsValue, kv.1 ≠ []) (entries obj) →
   Cached.detectStringFields (S d) obj [] cache =
     (Plain.detectStringFields (S d) obj [],
      <[a := Plain.detectStringFields (S d) obj []]> cache)).
Proof.
  intros Ha. split.
  - intros obj' Ha'. cbn [Cached.detectStringFields]. rewrite Ha, Ha'.
    cbn [str_falsy]. destruct (cache !! a) as [fs|] eqn:Hget; cbn [snd].
    + by rewrite Hget.
    + by rewrite lookup_insert_eq.
  - intros Hmiss Hkeys.
    cbn [Cached.detectStringFields Plain.detectStringFields].
    rewrite Ha. cbn [str_falsy]. rewrite Hmiss.
    assert (truthy obj && is_object obj = true) as ->
      by by destruct obj.
    cbn [negb].
    pose proof (cached_detect_entries d [] (entries obj) [] cache
      (cached_detect_nested d) Hkeys) as Hfold.
    by use_fold Hfold.
Qed.

Lemma cached_detectStringFields_plain_witness :
  Cached.detectStringFields 3 (JObj 1 []) []
    (Cached.detectStringFields 3 resident [] ∅).2 =
    Cached.detectStringFields 3 resident [] ∅ ∧
  Cached.detectStringFields 3 resident [] ∅ =
    (Plain.detectStringFields 3 resident [],
     <[1%positive := Plain.detectStringFields 3 resident []]> ∅).
Proof.
  destruct (cached_detectStringFields_plain 2 resident 1 ∅) as [Hnext Hfirst];
    [reflexivity|].
  split; [by apply Hnext|]. apply Hfirst; [reflexivity|by repeat constructor].
Defined.

(** ** One match for each field, in the order of the fields *)

Section FieldOrder.
Variable toLowerCase : jsstring → jsstring.
Variables (fieldWeights : gmap jsstring Q) (fieldStats : gmap jsstring FieldStats).
Variables (searchQuery : jsstring) (searchOptions : ScoreOptions).

Lemma plain_score_fields_order item searchFields matches0 total0 matches total :
  fold_left
    (Plain.score_field toLowerCase fieldWeights fieldStats searchQuery
       searchOptions item) searchFields (Ok (matches0, total0)) =
    Ok (matches, total) →
  ∃ more, matches = matches0 ++ more ∧
          m_field <$> more `sublist_of` searchFields.
Proof.
  revert matches0 total0.
  induction searchFields as [|field searchFields IH]; intros matches0 total0.
  - intros [= <- <-]. exists []. by rewrite app_nil_r.
  - cbn [fold_left]. unfold Plain.score_field at 2.
    destruct (negb _).
    { intros (more & -> & Hsub)%IH. exists more. split; [done|].
      by apply sublist_cons. }
    destruct (getNestedValue item field) as [| | | |text| | |];
      try (rewrite fold_left_Throw; [done|by intros ??]).
    destruct (Plain.calculateFieldScore _ _ _ _ _) as [m|].
    + intros (more & -> & Hsub)%IH. exists (set_field field m :: more).
      split; [by rewrite <- (assoc_L (++))|].
      cbn [fmap list_fmap set_field m_field]. by apply sublist_skip.
    + intros (more & -> & Hsub)%IH. exists more. split; [done|].
      by apply sublist_cons.
Qed.

Lemma cached_score_fields_order item searchFields matches0 total0 cache
    matches total :
  (fold_left
     (Cached.score_field toLowerCase fieldWeights fieldStats searchQuery
        searchOptions item) searchFields (Ok (matches0, total0), cache)).1 =
    Ok (matches, total) →
  ∃ more, matches = matches0 ++ more ∧
          m_field <$> more `sublist_of` searchFields.
Proof.
  revert matches0 total0 cache.
  induction searchFields as [|field searchFields IH];
    intros matches0 total0 cache.
  - intros [= <- <-]. exists []. by rewrite app_nil_r.
  - cbn [fold_left]. unfold Cached.score_field at 2. cbn [fst snd].
    destruct (negb _).
    { intros (more & -> & Hsub)%IH. exists more. split; [done|].
      by apply sublist_cons. }
    assert (∀ fs c,
      (fold_left
         (Cached.score_field toLowerCase fieldWeights fieldStats searchQuery
            searchOptions item) fs (Throw TypeError, c)).1 ≠
        Ok (matches, total)) as Hthrow.
    { intros fs. induction fs as [|f fs IHfs]; intros c; [done|].
      cbn [fold_left]. apply IHfs. }
    destruct (getNestedValue item field) as [| | | |text| | |];
      try (intros H; by apply Hthrow in H).
    destruct (Cached.calculateFieldScore _ _ _ _ _ _) as [[m|] cache'];
      cbn [fst snd].
    + intros (more & -> & Hsub)%IH. exists (set_field field m :: more).
      split; [by rewrite <- (assoc_L (++))|].
      cbn [fmap list_fmap set_field m_field]. by apply sublist_skip.
    + intros (more & -> & Hsub)%IH. exists more. split; [done|].
      by apply sublist_cons.
Qed.

Lemma plain_scan_order searchFields items results rs :
  Forall (λ r, m_field <$> r_matches r `sublist_of` searchFields) results →
  fold_left
    (Plain.score_item toLowerCase fieldWeights fieldStats searchFields
       searchQuery searchOptions) items (Ok results) = Ok rs →
  Forall (λ r, m_field <$> r_matches r `sublist_of` searchFields) rs.
Proof.
  revert results. induction items as [|item items IH]; intros results Hres.
  - by intros [= <-].
  - cbn [fold_left]. unfold Plain.score_item at 2.
    destruct (fold_left _ searchFields _) as [[matches totalScore]|e] eqn:Hf.
    2:{ rewrite fold_left_Throw; [done|by intros ??]. }
    apply plain_score_fields_order in Hf as (more & -> & Hsub).
    cbn [app]. destruct more as [|m more]; apply IH; [done|].
    apply Forall_app. split; [done|]. by apply Forall_singleton.
Qed.

Lemma cached_scan_order searchFields maxResults items results cache rs :
  Forall (λ r, m_field <$> r_matches r `sublist_of` searchFields) results →
  (Cached.collect toLowerCase fieldWeights fieldStats searchFields searchQuery
     searchOptions maxResults items results cache).1 = Ok rs →
  Forall (λ r, m_field <$> r_matches r `sublist_of` searchFields) rs.
Proof.
  revert results cache. induction items as [|item items IH];
    intros results cache Hres; cbn [Cached.collect].
  - by intros [= <-].
  - destruct (negb (truthy item)); [by apply IH|].
    destruct (fold_left _ searchFields _) as [[[matches totalScore]|e] cache']
      eqn:Hf; cbn [fst snd]; [|done].
    apply (f_equal fst) in Hf. cbn [fst] in Hf.
    apply cached_score_fields_order in Hf as (more & -> & Hsub).
    cbn [app].
    set (results' := match more with [] => results | _ => _ end).
    assert (Forall (λ r, m_field <$> r_matches r `sublist_of` searchFields)
      results') as Hres'.
    { subst results'. destruct more; [done|]. apply Forall_app.
      split; [done|]. by apply Forall_singleton. }
    clearbody results'. case_match; [by intros [= <-]|by apply IH].
Qed.

End FieldOrder.

(** X20. In every result the fields of the matches are searched fields, in the
    order in which they are searched and each at most as often as it is
    listed: a field gives at most one match. *)
Theorem matches_follow_search_fields (toLowerCase : jsstring → jsstring)
    (data_addr : positive) (data : list JsValue) (query : jsstring)
    (options : SearchOptions) (st : Cached.Caches) (rs : list SearchResult) :
  (Plain.search toLowerCase data query options = Ok rs →
   Forall
     (λ r, m_field <$> r_matches r `sublist_of`
             plain_search_fields data options) rs) ∧
  ((Cached.search toLowerCase data_addr data query options st).1 = Ok rs →
   Forall
     (λ r, m_field <$> r_matches r `sublist_of`
             cached_search_fields data options st) rs).
Proof.
  unfold Plain.search, Cached.search.
  destruct (str_falsy (trim query)).
  { split; intros [= <-]; apply Forall_fmap, Forall_true; intros item;
      apply sublist_nil_l. }
  cbn [fst]. fold (plain_search_fields data options). split.
  - destruct (fold_left _ data (Ok [])) as [results|e] eqn:Hscan; [|done].
    intros [= <-]. apply plain_scan_order in Hscan; [|done].
    eapply sublist_Forall'; [apply truncate_sublist|].
    by rewrite sort_Permutation.
  - destruct (Cached.collect _ _ _ _ _ _ _ _ _ _).1 as [results|e] eqn:Hscan;
      [|done].
    intros [= <-]. apply cached_scan_order in Hscan; [|done].
    eapply sublist_Forall'; [apply truncate_sublist|].
    rewrite sort_Permutation.
    unfold cached_search_fields.
    by destruct (fields options), data.
Qed.

(** ** The fuzzy tier scores below the prefix tier *)




(** ** The records a search finds *)

Lemma fuzzy_word_is_Some d text sq w w' opts best best' word :
  (is_Some best ↔ is_Some best') →
  is_Some (fuzzy_word d text sq w opts best word) ↔
  is_Some (fuzzy_word d text sq w' opts best' word).
Proof.
  intros Hbest. unfold fuzzy_word. destruct (Qle_bool _ _); [|done].
  destruct best as [b|], best' as [b'|];
    repeat case_match; split; intros _; try done; by eexists.
Qed.

Lemma fold_fuzzy_word_is_Some d text sq w w' opts (l : list jsstring)
    best best' :
  (is_Some best ↔ is_Some best') →
  is_Some
    (fold_left
       (λ bestMatch word,
          if 3 <=? length word
          then fuzzy_word d text sq w opts bestMatch word
          else bestMatch) l best) ↔
  is_Some
    (fold_left
       (λ bestMatch word,
          if 3 <=? length word
          then fuzzy_word d text sq w' opts bestMatch word
          else bestMatch) l best').
Proof.
  revert best best'. induction l as [|word l IH]; intros best best' Hbest;
    [done|].
  cbn [fold_left]. apply IH. case_match; [|done].
  by apply fuzzy_word_is_Some.
Qed.

Lemma truncate_all {A} (limit : Z) (l : list A) :
  limit = 0%Z ∨ (Z.of_nat (length l) ≤ limit)%Z → truncate limit l = l.
Proof.
  intros Hlimit. unfold truncate, slice0.
  destruct (Z.eqb_spec limit 0); [done|].
  destruct Hlimit as [?|Hlen]; [done|].
  destruct (Z.ltb_spec limit 0); [lia|]. apply take_ge. lia.
Qed.

Section Hits.
Variable toLowerCase : jsstring → jsstring.
Variables (fieldWeights : gmap jsstring Q) (fieldStats : gmap jsstring FieldStats).
Variables (searchFields : list jsstring) (searchQuery : jsstring).
Variable searchOptions : ScoreOptions.

(** Whether a field matches does not depend on its weight. *)
Lemma plain_calculateFieldScore_is_Some text w w' :
  is_Some (Plain.calculateFieldScore toLowerCase text searchQuery w
             searchOptions) ↔
  is_Some (Plain.calculateFieldScore toLowerCase text searchQuery w'
             searchOptions).
Proof.
  unfold Plain.calculateFieldScore. destruct (_ || _); [done|].
  destruct (startsWith _ _); [split; intros _; by eexists|].
  destruct (includes _ _); [split; intros _; by eexists|].
  destruct (Qle_bool _ _); [|done].
  by apply fold_fuzzy_word_is_Some.
Qed.

Lemma field_hit_falsy item field :
  truthy (getNestedValue item field) = false →
  field_hit toLowerCase searchQuery searchOptions item field = false.
Proof.
  unfold field_hit. destruct (getNestedValue item field) as [| | | |[|c s]| | |];
    done.
Qed.

(** The loop over the fields ends without a match exactly when it started
    without one and no field is a hit. *)
Lemma plain_score_fields_hits item fs matches0 total0 matches total :
  fold_left
    (Plain.score_field toLowerCase fieldWeights fieldStats searchQuery
       searchOptions item) fs (Ok (matches0, total0)) = Ok (matches, total) →
  matches = [] ↔
  matches0 = [] ∧
  existsb (field_hit toLowerCase searchQuery searchOptions item) fs = false.
Proof.
  revert matches0 total0. induction fs as [|field fs IH];
    intros matches0 total0.
  - intros [= <- <-]. cbn [existsb]. split; [done|by intros [? _]].
  - cbn [fold_left existsb]. unfold Plain.score_field at 2.
    destruct (truthy (getNestedValue item field)) eqn:Hv; cbn [negb].
    2:{ intros ->%IH. rewrite field_hit_falsy by done. done. }
    unfold field_hit.
    destruct (getNestedValue item field) as [| | | |text| | |];
      try (rewrite fold_left_Throw; [done|by intros ??]).
    pose proof (plain_calculateFieldScore_is_Some text
      (field_weight fieldWeights fieldStats field) 1) as Hw.
    destruct (Plain.calculateFieldScore _ _ _
      (field_weight fieldWeights fieldStats field) _) as [m|].
    + intros ->%IH. rewrite bool_decide_eq_true_2 by (apply Hw; by eexists).
      cbn [orb]. split; [|by intros [_ ?]].
      by intros [[_ ?]%app_eq_nil _].
    + intros ->%IH. rewrite bool_decide_eq_false_2; [done|].
      intros Hsome%Hw. by apply is_Some_None in Hsome.
Qed.

(** The loop over the records appends one result for each record that is a
    hit, in the order of the records. *)
Lemma plain_scan_hits items results rs :
  fold_left
    (Plain.score_item toLowerCase fieldWeights fieldStats searchFields
       searchQuery searchOptions) items (Ok results) = Ok rs →
  r_item <$> rs =
    (r_item <$> results) ++
    filter (record_hit toLowerCase searchFields searchQuery searchOptions)
      items.
Proof.
  revert results. induction items as [|item items IH]; intros results.
  - intros [= <-]. by rewrite filter_nil, app_nil_r.
  - cbn [fold_left]. unfold Plain.score_item at 2.
    destruct (fold_left _ searchFields _) as [[matches totalScore]|e] eqn:Hf.
    2:{ rewrite fold_left_Throw; [done|by intros ??]. }
    apply plain_score_fields_hits in Hf.
    destruct matches as [|m matches].
    + destruct Hf as [Hf _]. destruct (Hf eq_refl) as [_ Hhit].
      intros ->%IH. rewrite filter_cons_False; [done|].
      unfold record_hit. rewrite Hhit. exact id.
    + assert (record_hit toLowerCase searchFields searchQuery searchOptions
                item = true) as Hhit.
      { unfold record_hit.
        destruct (existsb _ searchFields) eqn:Hhit; [done|].
        by pose proof (proj2 Hf (conj eq_refl eq_refl)). }
      intros ->%IH. rewrite filter_cons_True by (by rewrite Hhit).
      rewrite fmap_app. cbn [fmap list_fmap r_item].
      by rewrite <- (assoc_L (++)).
Qed.

End Hits.

(** X22. When the limit cannot cut the result short (it is 0, or at least the
    size of the collection) and the search returns, the records of the
    results are, up to the order of the ranking, exactly the records of the
    collection in which some searched field is a hit, each as often as it
    occurs; in the cached variant in every state the module can reach, on
    a collection in which every searched field holds a string or a falsy
    value in every record. *)
Theorem search_finds_the_hits (toLowerCase : jsstring → jsstring)
    (data_addr : positive) (data : list JsValue) (query : jsstring)
    (options : SearchOptions) (st : Cached.Caches) (rs : list SearchResult) :
  trim query ≠ [] →
  default DEFAULT_limit (limit options) = 0%Z ∨
    (Z.of_nat (length data) ≤ default DEFAULT_limit (limit options))%Z →
  (Plain.search toLowerCase data query options = Ok rs →
   r_item <$> rs ≡ₚ
     filter
       (record_hit toLowerCase (plain_search_fields data options)
          (trim query) (score_options_of options)) data) ∧
  (Cached.reachable toLowerCase st →
   string_valued data (cached_search_fields data options st) →
   (Cached.search toLowerCase data_addr data query options st).1 = Ok rs →
   r_item <$> rs ≡ₚ
     filter
       (record_hit toLowerCase (cached_search_fields data options st)
          (trim query) (score_options_of options)) data).
Proof.
  intros Hq Hlimit. unfold Plain.search, Cached.search.
  destruct (trim query) as [|c q] eqn:Htrim; [done|]. cbn [str_falsy fst].
  rewrite <- Htrim. fold (plain_search_fields data options).
  fold (score_options_of options).
  assert (∀ results : list SearchResult,
    r_item <$> results =
      filter (record_hit toLowerCase (plain_search_fields data options)
                (trim query) (score_options_of options)) data ∨
    r_item <$> results =
      filter (record_hit toLowerCase (cached_search_fields data options st)
                (trim query) (score_options_of options)) data →
    truncate (default DEFAULT_limit (limit options))
      (sort compare_results results) ≡ₚ results) as Htrunc.
  { intros results Hres. rewrite truncate_all; [apply sort_Permutation|].
    destruct Hlimit as [?|Hlen]; [by left|right].
    rewrite sort_length.
    assert (length results ≤ length data); [|lia].
    rewrite <- (length_fmap r_item).
    destruct Hres as [-> | ->]; apply length_filter. }
  split.
  - destruct (fold_left _ data (Ok [])) as [results|e] eqn:Hscan; [|done].
    intros [= <-]. apply plain_scan_hits in Hscan. cbn [fmap list_fmap app] in Hscan.
    rewrite Htrunc by by left. by rewrite Hscan.
  - intros Hok%reachable_string_cache_ok%count_call_cache_ok _.
    match goal with
    | |- context [Cached.collect _ ?fw ?fs ?sf ?sq ?so ?mx data [] ?c] =>
        rewrite (cached_scan_plain toLowerCase fw fs sf sq so mx data [] c);
          [|cbn [length]; destruct Hlimit as [-> | ?]; [cbn; lia|case_match; lia]
           |done];
        replace sf with (cached_search_fields data options st)
          by (unfold cached_search_fields;
              by destruct (fields options), data)
    end.
    destruct (fold_left _ data (Ok [])) as [results|e] eqn:Hscan; [|done].
    intros [= <-]. apply plain_scan_hits in Hscan.
    cbn [fmap list_fmap app] in Hscan.
    rewrite Htrunc by by right. by rewrite Hscan.
Qed.

Lemma search_finds_the_hits_witness :
  ∃ rs,
    Plain.search ascii_lower johns (js "jon") no_options = Ok rs ∧
    r_item <$> rs ≡ₚ [record1 3 "name" "John Doe"; record1 4 "name" "John"].
Proof.
  eexists. split; [vm_compute; reflexivity|].
  match goal with
  | |- r_item <$> ?rs ≡ₚ _ =>
      destruct (search_finds_the_hits ascii_lower 9 johns (js "jon")
                  no_options Cached.cold rs) as [Hplain _];
        [done|right; by vm_compute|]
  end.
  etrans; [apply Hplain; vm_compute; reflexivity|].
  vm_compute. reflexivity.
Defined.
